(** * online_meeting: media pipeline and transcription line buffer

    A shallow embedding of the audio and transcription core of the
    online_meeting browser application, in its five revisions:

    - [src/index.js]                      (delay model, shared capture stream)
    - [src/unnamed/part_000]              (delay model, cloned audio track, resampler)
    - [src/unnamed/part_001], first file  (delay model, teardown by page reload)
    - [src/unnamed/part_001], second file (push-to-talk model)
    - [src/unnamed/part_002]              (delay model, processing-graph tee, resampler)

    Conventions of the embedding.

    - A JavaScript number is a rational, an infinity or [NaN]. The
      operations of the resampler are IEEE-754 binary64 operations: the
      exact result rounded to nearest, ties to even, with overflow to an
      infinity; a store into a [Float32Array] rounds to binary32 in the
      same way. The product of a [Float32Array] sample by 32768 in the
      encoder is exact in binary64 and is modelled as the exact product.
      The sign of zero is not modelled.
    - A JavaScript string is a [string] of code units below 256.
    - Browser objects (media tracks, timers, the data channel) are kept in
      explicit stores inside the state records; a call on such an object is
      recorded in a log of external calls.
    - Time is a logical clock in milliseconds; a timer fires exactly when it
      is due. *)

From Stdlib Require Import ZArith QArith Qround Qabs Qpower Lia Lqa String Ascii List Bool.
From stdpp Require Import gmap strings list.

Local Open Scope Z_scope.

(** ** JavaScript numbers and the conversions the program relies on *)

Module JS.

(** A number held in a [Float32Array] or produced by arithmetic on one:
    a finite value, an infinity with its sign, or [NaN]. *)
Inductive number : Type :=
| Num (q : Q)
| Infinity (negative : bool)
| NaN.

(** Equality of numbers up to the representation of the rational. *)
Definition number_eq (a b : number) : Prop :=
  match a, b with
  | Num p, Num q => Qeq p q
  | Infinity s, Infinity s' => s = s'
  | NaN, NaN => True
  | _, _ => False
  end.

Definition isFinite (a : number) : bool :=
  match a with Num _ => true | _ => false end.

(** The sign of a finite value: [true] below zero. *)
Definition is_negative (q : Q) : bool := negb (Qle_bool 0 q).

(** [a + b] *)
Definition add (a b : number) : number :=
  match a, b with
  | Num p, Num q => Num (p + q)
  | Infinity s, Num _ | Num _, Infinity s => Infinity s
  | Infinity s, Infinity s' => if Bool.eqb s s' then Infinity s else NaN
  | _, _ => NaN
  end.

(** [a * b] *)
Definition mul (a b : number) : number :=
  match a, b with
  | Num p, Num q => Num (p * q)
  | Infinity s, Num q | Num q, Infinity s =>
      if Qeq_bool q 0 then NaN else Infinity (xorb s (is_negative q))
  | Infinity s, Infinity s' => Infinity (xorb s s')
  | _, _ => NaN
  end.

(** [a / b]. A zero divisor is taken to be [+0]: the divisors of this
    program are counts. [0 / 0] is [NaN], any other finite value over zero
    is an infinity. *)
Definition div (a b : number) : number :=
  match a, b with
  | Num p, Num q =>
      if Qeq_bool q 0 then
        if Qeq_bool p 0 then NaN else Infinity (is_negative p)
      else Num (p / q)
  | Infinity s, Num q => Infinity (xorb s (is_negative q))
  | Num _, Infinity _ => Num 0
  | _, _ => NaN
  end.

(** [Math.round]: the nearest integer, ties towards plus infinity. *)
Definition Math_round (q : Q) : Z := Qfloor (q + (1 # 2)).

(** The mathematical [truncate] of ECMAScript: the fraction is discarded,
    rounding towards zero. *)
Definition truncate (q : Q) : Z :=
  if Qle_bool 0 q then Qfloor q else Qceiling q.

(** ECMAScript [ToInt16], the conversion applied by a store into an
    [Int16Array]: not finite gives 0, otherwise truncate, reduce modulo
    2^16 and read the result as a signed 16-bit integer. *)
Definition ToInt16 (x : number) : Z :=
  match x with
  | Num q =>
      let int := truncate q in
      let int16bit := int mod 2 ^ 16 in
      if 2 ^ 15 <=? int16bit then int16bit - 2 ^ 16 else int16bit
  | Infinity _ | NaN => 0
  end.

(** White space as [String.prototype.trim] sees it, among the code units
    below 256: TAB, LF, VT, FF, CR, SPACE and NO-BREAK SPACE. *)
Definition isWhiteSpace (c : ascii) : bool :=
  let n := nat_of_ascii c in
  ((9 <=? n) && (n <=? 13) || (n =? 32) || (n =? 160))%nat.

Fixpoint trimStart (s : string) : string :=
  match s with
  | EmptyString => EmptyString
  | String c s' => if isWhiteSpace c then trimStart s' else s
  end.

(** Drops the white space at the end: a character is kept when it is not
    white space or when something is kept after it. *)
Fixpoint trimEnd (s : string) : string :=
  match s with
  | EmptyString => EmptyString
  | String c s' =>
      match trimEnd s' with
      | EmptyString => if isWhiteSpace c then EmptyString else String c EmptyString
      | t => String c t
      end
  end.

(** [s.trim()] *)
Definition trim (s : string) : string := trimEnd (trimStart s).

(** Truthiness of a string: [!s] is true exactly for the empty string. *)
Definition truthy (s : string) : bool :=
  match s with EmptyString => false | _ => true end.

End JS.

(** ** IEEE-754 arithmetic: binary64 operations and the float32 store

    The resampler divides and multiplies numbers that are not exactly
    representable, so its operations are modelled with their rounding:
    the exact result is rounded to the nearest value of the format, ties
    to even, and becomes an infinity beyond the largest finite value. The
    sign of zero is not modelled. *)

Module Float.
Import JS.

(** A binary format: the number of bits of the significand and the
    exponent bound. *)
Record Format : Type := { prec : Z; emax : Z }.

(** binary64, the numbers of JavaScript, and binary32, the elements of a
    [Float32Array]. *)
Definition double : Format := {| prec := 53; emax := 1024 |}.
Definition single : Format := {| prec := 24; emax := 128 |}.

(** The exponent of the smallest positive (subnormal) value. *)
Definition emin (f : Format) : Z := 3 - emax f - prec f.

(** The nearest integer, ties to even. *)
Definition rne (q : Q) : Z :=
  let n := Qfloor q in
  match (q - inject_Z n ?= 1 # 2)%Q with
  | Lt => n
  | Gt => n + 1
  | Eq => if Z.even n then n else n + 1
  end.

(** The binary exponent of a positive rational: the [k] with
    [2^k <= q < 2^(k+1)]. *)
Definition ilog2 (q : Q) : Z :=
  let k := Z.log2 (Qnum q) - Z.log2 (Z.pos (Qden q)) in
  if Qle_bool (2 ^ k) q then k else k - 1.

(** The exponent of the unit in the last place of a positive rational:
    [prec] bits below its binary exponent, and never below [emin]. *)
Definition exponent (f : Format) (a : Q) : Z :=
  Z.max (ilog2 a - (prec f - 1)) (emin f).

(** A positive rational rounded to the format, the exponent unbounded
    above. *)
Definition magnitude (f : Format) (a : Q) : Q :=
  (inject_Z (rne (a / 2 ^ exponent f a)) * 2 ^ exponent f a)%Q.

Definition round (f : Format) (q : Q) : Q :=
  match (q ?= 0)%Q with
  | Eq => 0%Q
  | Gt => magnitude f q
  | Lt => (- magnitude f (- q))%Q
  end.

(** The largest finite value of the format. *)
Definition largest (f : Format) : Q :=
  (inject_Z (2 ^ prec f - 1) * 2 ^ (emax f - prec f))%Q.

(** The value of the format an exact result becomes. *)
Definition fl (f : Format) (q : Q) : number :=
  let r := round f q in
  if Qle_bool (Qabs r) (largest f) then Num r else Infinity (is_negative q).

(** The result of a binary64 operation whose exact value is [x]. *)
Definition binary64 (x : number) : number :=
  match x with
  | Num q => fl double q
  | Infinity _ | NaN => x
  end.

(** The value a store into a [Float32Array] keeps of [x]. *)
Definition float32 (x : number) : number :=
  match x with
  | Num q => fl single q
  | Infinity _ | NaN => x
  end.

(** [a + b], [a * b] and [a / b] as JavaScript computes them. *)
Definition fadd (a b : number) : number := binary64 (add a b).
Definition fmul (a b : number) : number := binary64 (mul a b).
Definition fdiv (a b : number) : number := binary64 (div a b).

(** An integral number, the result of [Math.round]. *)
Inductive integral : Type :=
| Int (n : Z)
| IntInfinity (negative : bool)
| IntNaN.

(** [Math.round(x)]; the result is exact, every binary64 value of
    magnitude [2^52] or more being an integer. *)
Definition Math_round_number (x : number) : integral :=
  match x with
  | Num q => Int (Math_round q)
  | Infinity s => IntInfinity s
  | NaN => IntNaN
  end.

(** The length of [new Float32Array(length)]: [NaN] counts as 0, and a
    negative, an infinite or too large a length throws a [RangeError]
    ([None]). An engine may refuse a smaller length for lack of memory,
    which is not modelled. *)
Definition Float32Array_length (length : integral) : option Z :=
  match length with
  | Int n => if (0 <=? n) && (n <=? 2 ^ 53 - 1) then Some n else None
  | IntInfinity _ => None
  | IntNaN => Some 0
  end.

End Float.

(** ** Frame Encoder: [encode] and [createBlob] (identical in every revision) *)

Module Encoder.
Import JS.

(** The pair returned by [createBlob]. *)
Record Blob : Type := { data : string; mimeType : string }.

(** The 64 digits of base64, in the order [btoa] uses them. *)
Definition base64_digits : list ascii :=
  list_ascii_of_string
    "ABCDEFGHIJKLMNOPQRSTUVWXYZabcdefghijklmnopqrstuvwxyz0123456789+/".

Definition base64_digit (n : Z) : ascii :=
  nth (Z.to_nat n) base64_digits "="%char.

Definition charCode (c : ascii) : Z := Z.of_N (N_of_ascii c).

(** The browser's [btoa] on a binary string: three code units become
    four digits, and a last group of one or two is padded with [=]. *)
Fixpoint btoa (binary : string) : string :=
  match binary with
  | EmptyString => EmptyString
  | String a EmptyString =>
      let a := charCode a in
      String (base64_digit (Z.shiftr a 2))
        (String (base64_digit (Z.shiftl (Z.land a 3) 4)) "==")
  | String a (String b EmptyString) =>
      let a := charCode a in
      let b := charCode b in
      String (base64_digit (Z.shiftr a 2))
        (String (base64_digit (Z.lor (Z.shiftl (Z.land a 3) 4) (Z.shiftr b 4)))
           (String (base64_digit (Z.shiftl (Z.land b 15) 2)) "="))
  | String a (String b (String c rest)) =>
      let a := charCode a in
      let b := charCode b in
      let c := charCode c in
      String (base64_digit (Z.shiftr a 2))
        (String (base64_digit (Z.lor (Z.shiftl (Z.land a 3) 4) (Z.shiftr b 4)))
           (String (base64_digit (Z.lor (Z.shiftl (Z.land b 15) 2) (Z.shiftr c 6)))
              (String (base64_digit (Z.land c 63)) (btoa rest))))
  end.

(** [String.fromCharCode] of an element of a [Uint8Array]. *)
Definition fromCharCode (byte : Z) : ascii := ascii_of_N (Z.to_N byte).

(** [encode(bytes)]: the loop appends one character per byte to [binary],
    then [btoa(binary)] is returned. *)
Definition encode (bytes : list Z) : string :=
  let binary := fold_left (fun binary byte => binary +:+ String (fromCharCode byte) "")
                  bytes EmptyString in
  btoa binary.

(** The two bytes of one [Int16Array] element in the underlying buffer,
    low byte first (the byte order of every platform browsers run on, and
    the one the wire format names). *)
Definition int16_bytes (v : Z) : list Z := [v mod 256; (v / 256) mod 256].

(** [new Uint8Array(int16.buffer)] *)
Definition Uint8Array_of_buffer (int16 : list Z) : list Z :=
  flat_map int16_bytes int16.

(** The contents of [int16] after the loop [int16[i] = data[i] * 32768]:
    the store converts the product with [ToInt16]. *)
Definition int16_of_samples (samples : list number) : list Z :=
  map (fun s => ToInt16 (mul s (Num (32768 # 1)))) samples.

Definition createBlob (samples : list number) : Blob :=
  let int16 := int16_of_samples samples in
  {| data := encode (Uint8Array_of_buffer int16);
     mimeType := "audio/pcm;rate=16000" |}.

End Encoder.

(** ** The wire audio format as its receiver reads it

    The repository only produces encoded chunks. The definitions of this
    module follow the specification's description of the wire format
    (signed 16-bit little-endian PCM, base64, one channel); they are what
    "decoding an EncodedChunk" means in the statements below. *)

Module Wire.
Import JS Encoder.

Fixpoint index_of (c : ascii) (digits : list ascii) (n : Z) : option Z :=
  match digits with
  | [] => None
  | d :: digits' => if Ascii.eqb c d then Some n else index_of c digits' (n + 1)
  end.

Definition digit_value (c : ascii) : option Z := index_of c base64_digits 0.

Definition pad : ascii := "="%char.

(** [atob] on padded base64: groups of four digits, the last group
    possibly ending in one or two [=]. *)
Fixpoint atob (s : string) : option (list Z) :=
  match s with
  | EmptyString => Some []
  | String c1 (String c2 (String c3 (String c4 rest))) =>
      match digit_value c1, digit_value c2 with
      | Some s1, Some s2 =>
          let a := s1 * 4 + s2 / 16 in
          if Ascii.eqb c3 pad then
            if Ascii.eqb c4 pad then
              match rest with EmptyString => Some [a] | _ => None end
            else None
          else
            match digit_value c3 with
            | Some s3 =>
                let b := (s2 mod 16) * 16 + s3 / 4 in
                if Ascii.eqb c4 pad then
                  match rest with EmptyString => Some [a; b] | _ => None end
                else
                  match digit_value c4, atob rest with
                  | Some s4, Some bytes => Some (a :: b :: ((s3 mod 4) * 64 + s4) :: bytes)
                  | _, _ => None
                  end
            | None => None
            end
      | _, _ => None
      end
  | _ => None
  end.

(** Signed 16-bit little-endian samples out of a byte sequence. *)
Fixpoint int16_of_bytes (bytes : list Z) : option (list Z) :=
  match bytes with
  | [] => Some []
  | lo :: hi :: bytes' =>
      let u := lo + 256 * hi in
      let v := if 2 ^ 15 <=? u then u - 2 ^ 16 else u in
      option_map (cons v) (int16_of_bytes bytes')
  | _ => None
  end.

(** The 16-bit samples an encoded chunk carries. *)
Definition decode (blob : Blob) : option (list Z) :=
  match atob (data blob) with
  | Some bytes => int16_of_bytes bytes
  | None => None
  end.

(** A 16-bit sample on the scale of the float samples. *)
Definition dequantize (v : Z) : Q := inject_Z v / (32768 # 1).

End Wire.

(** ** Browser objects the program holds references to *)

Module Browser.

(** [AudioContext.state] *)
Inductive AudioContextState : Type := suspended | running | closed.

Record AudioContext : Type := {
  sampleRate : Q;
  state : AudioContextState
}.

(** [MediaStreamTrack]: the objects live in a store keyed by identity, so
    that two streams holding the same key hold the same object. *)
Inductive TrackKind : Type := audio | video.
Inductive ReadyState : Type := live | ended.

Record Track : Type := {
  kind : TrackKind;
  enabled : bool;
  readyState : ReadyState;
  device : nat  (* the capture source the track reads from *)
}.

Definition TrackId : Type := nat.
Definition TrackStore : Type := gmap TrackId Track.

(** A [MediaStream] is the sequence of the tracks it holds. *)
Definition MediaStream : Type := list TrackId.

(** [track.stop()] *)
Definition stop (t : TrackId) (store : TrackStore) : TrackStore :=
  match store !! t with
  | Some tr =>
      <[t := {| kind := kind tr; enabled := enabled tr;
                readyState := ended; device := device tr |}]> store
  | None => store
  end.

(** [track.enabled = b] *)
Definition set_enabled (t : TrackId) (b : bool) (store : TrackStore) : TrackStore :=
  match store !! t with
  | Some tr =>
      <[t := {| kind := kind tr; enabled := b;
                readyState := readyState tr; device := device tr |}]> store
  | None => store
  end.

(** A key no object of the store has. *)
Definition fresh_id (store : TrackStore) : TrackId := fresh (dom store).

(** [track.clone()]: a new track object on the same source, with the
    state of the original. *)
Definition clone (t : TrackId) (store : TrackStore) : TrackId * TrackStore :=
  let t' := fresh_id store in
  match store !! t with
  | Some tr => (t', <[t' := tr]> store)
  | None => (t', store)
  end.

Definition is_kind (k : TrackKind) (store : TrackStore) (t : TrackId) : bool :=
  match store !! t with
  | Some tr => match kind tr, k with
               | audio, audio | video, video => true
               | _, _ => false
               end
  | None => false
  end.

(** [stream.getAudioTracks()] and [stream.getVideoTracks()] *)
Definition getAudioTracks (store : TrackStore) (stream : MediaStream) : list TrackId :=
  List.filter (is_kind audio store) stream.
Definition getVideoTracks (store : TrackStore) (stream : MediaStream) : list TrackId :=
  List.filter (is_kind video store) stream.

(** [stream.getTracks().forEach(track => track.stop())] *)
Definition stop_all (stream : MediaStream) (store : TrackStore) : TrackStore :=
  fold_left (fun st t => stop t st) stream store.

End Browser.

(** ** Resampler: [resampleBuffer] of part_000 and part_002 (same text) *)

Module Resampler.
Import JS Float Browser.

(** [inputBuffer[i]] inside an arithmetic expression: a read outside the
    array is [undefined], which [+=] turns into [NaN]. An element of a
    [Float32Array] becomes a binary64 number without rounding. *)
Definition read (inputBuffer : list number) (i : Z) : number :=
  if i <? 0 then NaN else nth (Z.to_nat i) inputBuffer NaN.

(** The body of the inner [for] loop, run [steps] times from index [i]:
    [accum += inputBuffer[i]; count++]. *)
Fixpoint accumulate (steps : nat) (inputBuffer : list number)
    (i : Z) (accum : number) (count : Z) : number * Z :=
  match steps with
  | O => (accum, count)
  | S steps' =>
      accumulate steps' inputBuffer (i + 1) (fadd accum (read inputBuffer i)) (count + 1)
  end.

(** [for (let i = offsetBuffer; i < nextOffsetBuffer && i < inputBuffer.length; i++)]
    runs once for every [i] from [offsetBuffer] up to the smaller bound.
    Both offsets are 0 or results of [Math.round]. The condition fails at
    once when [nextOffsetBuffer] is [NaN] or [-Infinity] and when
    [offsetBuffer] is [NaN] or [Infinity]; an [offsetBuffer] of
    [-Infinity] comes from a product that overflowed, and the product
    that follows it overflows as well, so that the condition fails too. *)
Definition window (inputBuffer : list number) (offsetBuffer nextOffsetBuffer : integral)
  : number * Z :=
  match offsetBuffer with
  | Int offset =>
      let bound :=
        match nextOffsetBuffer with
        | Int next => Z.min next (Z.of_nat (length inputBuffer))
        | IntInfinity false => Z.of_nat (length inputBuffer)
        | IntInfinity true | IntNaN => offset
        end in
      accumulate (Z.to_nat (bound - offset)) inputBuffer offset (Num 0) 0
  | IntInfinity _ | IntNaN => (Num 0, 0)
  end.

(** The [while (offsetResult < result.length)] loop with [steps] entries
    of [result] left to fill; the value returned lists, for each entry
    filled, the [accum] and the [count] of its window. [offsetResult + 1]
    is exact, the length of an array being below [2^53]. *)
Fixpoint windows (steps : nat) (inputBuffer : list number) (sampleRateRatio : number)
    (offsetResult : Z) (offsetBuffer : integral) : list (number * Z) :=
  match steps with
  | O => []
  | S steps' =>
      let nextOffsetBuffer :=
        Math_round_number (fmul (Num (inject_Z (offsetResult + 1))) sampleRateRatio) in
      window inputBuffer offsetBuffer nextOffsetBuffer
        :: windows steps' inputBuffer sampleRateRatio (offsetResult + 1) nextOffsetBuffer
  end.

(** [result[offsetResult] = accum / count]: the quotient is a binary64
    number, the array keeps its float32 value. *)
Definition average (w : number * Z) : number :=
  float32 (fdiv (fst w) (Num (inject_Z (snd w)))).

(** [Math.round(inputBuffer.length / sampleRateRatio)] *)
Definition newLength (inputBuffer : list number) (sampleRateRatio : number) : integral :=
  Math_round_number (fdiv (Num (inject_Z (Z.of_nat (length inputBuffer)))) sampleRateRatio).

(** The windows of a call that takes neither early return; [None] when
    [new Float32Array(newLength)] throws. *)
Definition resample_windows (inputSampleRate : Q) (inputBuffer : list number)
    (targetSampleRate : Q) : option (list (number * Z)) :=
  let sampleRateRatio := fdiv (Num inputSampleRate) (Num targetSampleRate) in
  match Float32Array_length (newLength inputBuffer sampleRateRatio) with
  | Some length =>
      Some (windows (Z.to_nat length) inputBuffer sampleRateRatio 0 (Int 0))
  | None => None
  end.

(** [resampleBuffer(inputBuffer, targetSampleRate)]; [audioContext] is the
    variable of the enclosing scope. The value is [None] when the call
    throws. *)
Definition resampleBuffer (audioContext : option AudioContext)
    (inputBuffer : list number) (targetSampleRate : Q) : option (list number) :=
  match audioContext with
  | None => Some inputBuffer
  | Some ctx =>
      let inputSampleRate := sampleRate ctx in
      if Qeq_bool inputSampleRate targetSampleRate then Some inputBuffer
      else
        match resample_windows inputSampleRate inputBuffer targetSampleRate with
        | Some ws => Some (map average ws)
        | None => None
        end
  end.

End Resampler.

(** ** Stream splitting at meeting start *)

Module Splitter.
Import Browser.

(** What each consumer is handed: the stream given to [peer.call] and
    [call.answer], and the stream given to
    [audioContext.createMediaStreamSource]. *)
Record Feeds : Type := {
  transport : MediaStream;
  recognition : MediaStream
}.

(** The track a [MediaStreamAudioSourceNode] reads: the first audio track
    of the stream it was created from. *)
Definition source_track (store : TrackStore) (stream : MediaStream) : option TrackId :=
  head (getAudioTracks store stream).

(** index.js: [peer.call(peerId, mediaStream)], [call.answer(mediaStream)]
    and [audioContext.createMediaStreamSource(mediaStream)] all receive
    the stream [getUserMedia] returned. *)
Definition index_feeds (mediaStream : MediaStream) : Feeds :=
  {| transport := mediaStream; recognition := mediaStream |}.

(** part_000, [startMeeting]: the audio track is cloned; [None] is the
    branch that reports missing tracks and ends the meeting. *)
Definition part_000_feeds (store : TrackStore) (mediaStream : MediaStream)
  : option (Feeds * TrackStore) :=
  let videoTracks := getVideoTracks store mediaStream in
  let audioTracks := getAudioTracks store mediaStream in
  match audioTracks, videoTracks with
  | [], _ | _, [] => None
  | originalAudioTrack :: _, _ :: _ =>
      let '(clonedAudioTrack, store') := clone originalAudioTrack store in
      let peerMediaStream := videoTracks ++ [originalAudioTrack] in
      let geminiMediaStream := [clonedAudioTrack] in
      Some ({| transport := peerMediaStream; recognition := geminiMediaStream |}, store')
  end.

(** An operation on one track object. *)
Inductive TrackOp : Type :=
| Stop
| SetEnabled (b : bool).

Definition apply_op (op : TrackOp) (t : TrackId) (store : TrackStore) : TrackStore :=
  match op with
  | Stop => stop t store
  | SetEnabled b => set_enabled t b store
  end.

End Splitter.

(** ** Data-channel messages and transcription lines *)

Module Page.

(** The data-channel message schema. *)
Inductive Message : Type :=
| transcription (text : string)
| name (name : string).

(** A PeerJS data connection: whether it is open and what was sent on it. *)
Record DataConnection : Type := {
  open : bool;
  sent : list Message
}.

(** [dataConnection.send(m)] *)
Definition send (m : Message) (dc : DataConnection) : DataConnection :=
  {| open := open dc; sent := sent dc ++ [m] |}.

(** [if (dataConnection?.open) dataConnection.send(m)] on the variable
    [dataConnection], which is [null] or a connection. *)
Definition send_if_open (m : Message) (dataConnection : option DataConnection)
  : option DataConnection :=
  match dataConnection with
  | Some dc => if open dc then Some (send m dc) else Some dc
  | None => None
  end.

(** A line appended to the transcription panel by [appendAndTranslate]:
    the [speaker] argument and the original text. *)
Record Line : Type := {
  speaker : string;
  text : string
}.

(** A PeerJS peer: the id it registered with ([undefined] lets the server
    choose one) and whether it has been destroyed. *)
Record Peer : Type := { id : option string; destroyed : bool }.

(** Calls on objects outside the program, in the order they are made. *)
Inductive Call : Type :=
| track_stop (t : Browser.TrackId)
| processor_disconnect
| processor_connect
| context_close
| session_close
| connection_close
| peer_destroy.

End Page.

(** ** The delay-model application state and its line buffer

    The variables of the [DOMContentLoaded] closure that the modelled
    functions read or write, the browser state behind the handles they
    hold (tracks, pending timeouts, the clock), the status indicator, the
    transcription panel and the log of external calls. index.js, part_000,
    the first file of part_001 and part_002 declare the same variables;
    [geminiMediaStream] and [peerMediaStream] exist in part_000 only. *)

Module Delay.
Import JS Browser Page.

(** A pending [setTimeout] of [handleLocalTranscription]: when it is due,
    and the value of [lineToTranslate] its callback closed over. *)
Record Timer : Type := {
  due : Z;
  lineToTranslate : string
}.

Record App : Type := {
  isMeetingActive : bool;
  sessionPromise : option nat;
  mediaStream : option MediaStream;
  geminiMediaStream : option MediaStream;
  peerMediaStream : option MediaStream;
  audioContext : option AudioContext;
  scriptProcessor : option bool;          (* the node, and whether it is connected *)
  translationDelay : Z;
  peer : option Peer;
  dataConnection : option DataConnection;
  meetingId : option string;
  remoteName : string;
  localTranscriptionBuffer : string;
  localTranscriptionTimer : option positive;
  tracks : TrackStore;
  timers : gmap positive Timer;           (* the timeouts not yet fired or cleared *)
  nextTimer : positive;                   (* the handle the next [setTimeout] returns *)
  now : Z;                                (* milliseconds *)
  status : string;                        (* [statusIndicator.dataset.status] *)
  panel : list (Z * Line);                (* lines of the panel, with the time they were added *)
  calls : list Call
}.

(** The state when the page has loaded. *)
Definition initial : App :=
  {| isMeetingActive := false; sessionPromise := None; mediaStream := None;
     geminiMediaStream := None; peerMediaStream := None; audioContext := None;
     scriptProcessor := None; translationDelay := 2000; peer := None;
     dataConnection := None; meetingId := None; remoteName := "Participant";
     localTranscriptionBuffer := ""; localTranscriptionTimer := None;
     tracks := ∅; timers := ∅; nextTimer := 1%positive; now := 0;
     status := "idle"; panel := []; calls := [] |}.

(** The guard [!text.trim() && localTranscriptionBuffer.length === 0]. *)
Definition dropped (text : string) (s : App) : bool :=
  negb (truthy (trim text)) && (String.length (localTranscriptionBuffer s) =? 0)%nat.

(** [if (localTranscriptionTimer) clearTimeout(localTranscriptionTimer)]:
    clearing a handle whose timeout has fired does nothing. *)
Definition clearTimeout (handle : option positive) (pending : gmap positive Timer)
  : gmap positive Timer :=
  match handle with
  | Some h => delete h pending
  | None => pending
  end.

(** [handleLocalTranscription(text)] *)
Definition handleLocalTranscription (text : string) (s : App) : App :=
  if dropped text s then s
  else
    let buffer := localTranscriptionBuffer s +:+ text in
    let pending := clearTimeout (localTranscriptionTimer s) (timers s) in
    let lineToTranslate := buffer in
    let handle := nextTimer s in
    {| isMeetingActive := isMeetingActive s; sessionPromise := sessionPromise s;
       mediaStream := mediaStream s; geminiMediaStream := geminiMediaStream s;
       peerMediaStream := peerMediaStream s; audioContext := audioContext s;
       scriptProcessor := scriptProcessor s; translationDelay := translationDelay s;
       peer := peer s;
       dataConnection := send_if_open (transcription text) (dataConnection s);
       meetingId := meetingId s; remoteName := remoteName s;
       localTranscriptionBuffer := buffer;
       localTranscriptionTimer := Some handle;
       tracks := tracks s;
       timers := <[handle := {| due := now s + Z.max 0 (translationDelay s);
                                lineToTranslate := lineToTranslate |}]> pending;
       nextTimer := Pos.succ handle;
       now := now s; status := status s; panel := panel s; calls := calls s |}.

(** The [onmessage] callback of the recognition session:
    [if (text) handleLocalTranscription(text)], where [text] is
    [undefined] when the message carries no input transcription. *)
Definition onmessage (text : option string) (s : App) : App :=
  match text with
  | Some text => if truthy text then handleLocalTranscription text s else s
  | None => s
  end.


(** The callback given to [setTimeout]:
    [appendAndTranslate(lineToTranslate, 'You'); localTranscriptionBuffer = '']. *)
Definition timeout_callback (lineToTranslate : string) (s : App) : App :=
  {| isMeetingActive := isMeetingActive s; sessionPromise := sessionPromise s;
     mediaStream := mediaStream s; geminiMediaStream := geminiMediaStream s;
     peerMediaStream := peerMediaStream s; audioContext := audioContext s;
     scriptProcessor := scriptProcessor s; translationDelay := translationDelay s;
     peer := peer s; dataConnection := dataConnection s;
     meetingId := meetingId s; remoteName := remoteName s;
     localTranscriptionBuffer := "";
     localTranscriptionTimer := localTranscriptionTimer s;
     tracks := tracks s; timers := timers s; nextTimer := nextTimer s;
     now := now s; status := status s;
     panel := panel s ++ [(now s, {| speaker := "You"; text := lineToTranslate |})];
     calls := calls s |}.

(** The browser runs the timeout [handle]: it leaves the pending set, the
    clock stands at its due time, and its callback runs. *)
Definition fire (handle : positive) (tm : Timer) (s : App) : App :=
  timeout_callback (lineToTranslate tm)
    {| isMeetingActive := isMeetingActive s; sessionPromise := sessionPromise s;
       mediaStream := mediaStream s; geminiMediaStream := geminiMediaStream s;
       peerMediaStream := peerMediaStream s; audioContext := audioContext s;
       scriptProcessor := scriptProcessor s; translationDelay := translationDelay s;
       peer := peer s; dataConnection := dataConnection s;
       meetingId := meetingId s; remoteName := remoteName s;
       localTranscriptionBuffer := localTranscriptionBuffer s;
       localTranscriptionTimer := localTranscriptionTimer s;
       tracks := tracks s; timers := delete handle (timers s);
       nextTimer := nextTimer s;
       now := Z.max (now s) (due tm); status := status s; panel := panel s;
       calls := calls s |}.

(** Which of two pending timeouts runs first: the one due earlier, and of
    two due together the one created first. *)
Definition before (a b : positive * Timer) : bool :=
  (due a.2 <? due b.2) || ((due a.2 =? due b.2) && (a.1 <? b.1)%positive).

(** The timeout to run next among those due by time [t], if any. *)
Definition next_due (t : Z) (pending : gmap positive Timer) : option (positive * Timer) :=
  foldr (fun a best =>
           if due a.2 <=? t then
             match best with
             | Some b => if before a b then Some a else Some b
             | None => Some a
             end
           else best)
        None (map_to_list pending).

(** Runs, in order, the timeouts due by time [t]; a callback of this
    program sets no timeout, so at most [fuel] = the number of pending
    timeouts run. *)
Fixpoint run_due (fuel : nat) (t : Z) (s : App) : App :=
  match fuel with
  | O => s
  | S fuel' =>
      match next_due t (timers s) with
      | Some (handle, tm) => run_due fuel' t (fire handle tm s)
      | None => s
      end
  end.

Definition set_now (t : Z) (s : App) : App :=
  {| isMeetingActive := isMeetingActive s; sessionPromise := sessionPromise s;
     mediaStream := mediaStream s; geminiMediaStream := geminiMediaStream s;
     peerMediaStream := peerMediaStream s; audioContext := audioContext s;
     scriptProcessor := scriptProcessor s; translationDelay := translationDelay s;
     peer := peer s; dataConnection := dataConnection s;
     meetingId := meetingId s; remoteName := remoteName s;
     localTranscriptionBuffer := localTranscriptionBuffer s;
     localTranscriptionTimer := localTranscriptionTimer s;
     tracks := tracks s; timers := timers s; nextTimer := nextTimer s;
     now := t; status := status s; panel := panel s; calls := calls s |}.

(** Time passes until [t]. *)
Definition advance (t : Z) (s : App) : App :=
  let s' := run_due (size (timers s)) t s in
  set_now (Z.max (now s') t) s'.

(** What happens to the line buffer: a fragment arrives from the
    recognition service at a given time, or time passes. *)
Inductive Event : Type :=
| fragment (t : Z) (text : string)
| wait (t : Z).

Definition step (s : App) (e : Event) : App :=
  match e with
  | fragment t text => onmessage (Some text) (advance t s)
  | wait t => advance t s
  end.

Definition run (events : list Event) (s : App) : App := fold_left step events s.

End Delay.

(** ** Teardown in index.js: [resetApplicationState] and [endMeeting] *)

Module IndexJs.
Import JS Browser Page Delay.

(** [showError(message)] as far as the session state goes:
    [updateStatus('error', 'Error')]. *)
Definition showError (s : App) : App :=
  {| isMeetingActive := isMeetingActive s; sessionPromise := sessionPromise s;
     mediaStream := mediaStream s; geminiMediaStream := geminiMediaStream s;
     peerMediaStream := peerMediaStream s; audioContext := audioContext s;
     scriptProcessor := scriptProcessor s; translationDelay := translationDelay s;
     peer := peer s; dataConnection := dataConnection s;
     meetingId := meetingId s; remoteName := remoteName s;
     localTranscriptionBuffer := localTranscriptionBuffer s;
     localTranscriptionTimer := localTranscriptionTimer s;
     tracks := tracks s; timers := timers s; nextTimer := nextTimer s;
     now := now s; status := "error"; panel := panel s; calls := calls s |}.

(** The external calls of one teardown, in program order. *)
Definition teardown_calls (s : App) : list Call :=
  (match mediaStream s with Some stream => map track_stop stream | None => [] end)
  ++ (match scriptProcessor s with Some _ => [processor_disconnect] | None => [] end)
  ++ (match audioContext s with
      | Some ctx => match state ctx with closed => [] | _ => [context_close] end
      | None => []
      end)
  ++ (match sessionPromise s with Some _ => [session_close] | None => [] end)
  ++ (match dataConnection s with Some _ => [connection_close] | None => [] end)
  ++ (match peer s with
      | Some p => if destroyed p then [] else [peer_destroy]
      | None => []
      end).

(** [resetApplicationState()]: every resource is released if it is
    there, every variable is set back, the panel is emptied and the
    status becomes ['idle']. *)
Definition resetApplicationState (s : App) : App :=
  {| isMeetingActive := false;
     sessionPromise := None;
     mediaStream := None;
     geminiMediaStream := geminiMediaStream s;
     peerMediaStream := peerMediaStream s;
     audioContext := None;
     scriptProcessor := None;
     translationDelay := translationDelay s;
     peer := None;
     dataConnection := None;
     meetingId := None;
     remoteName := "Participant";
     localTranscriptionBuffer := "";
     localTranscriptionTimer := None;
     tracks := match mediaStream s with
               | Some stream => stop_all stream (tracks s)
               | None => tracks s
               end;
     timers := clearTimeout (localTranscriptionTimer s) (timers s);
     nextTimer := nextTimer s;
     now := now s;
     status := "idle";
     panel := [];
     calls := calls s ++ teardown_calls s |}.

Definition endMeeting (s : App) : App := resetApplicationState s.

End IndexJs.

(** ** Meeting start and teardown in part_000 *)

Module Part000.
Import JS Browser Page Delay.

Definition showError : App -> App := IndexJs.showError.

(** [resetUI()] as far as the modelled state goes: the panel is emptied
    and the status becomes ['idle']. *)
Definition resetUI (s : App) : App :=
  {| isMeetingActive := isMeetingActive s; sessionPromise := sessionPromise s;
     mediaStream := mediaStream s; geminiMediaStream := geminiMediaStream s;
     peerMediaStream := peerMediaStream s; audioContext := audioContext s;
     scriptProcessor := scriptProcessor s; translationDelay := translationDelay s;
     peer := peer s; dataConnection := dataConnection s;
     meetingId := meetingId s; remoteName := remoteName s;
     localTranscriptionBuffer := localTranscriptionBuffer s;
     localTranscriptionTimer := localTranscriptionTimer s;
     tracks := tracks s; timers := timers s; nextTimer := nextTimer s;
     now := now s; status := "idle"; panel := []; calls := calls s |}.

Definition teardown_calls (s : App) : list Call :=
  (match mediaStream s with Some stream => map track_stop stream | None => [] end)
  ++ (match geminiMediaStream s with Some stream => map track_stop stream | None => [] end)
  ++ (match sessionPromise s with Some _ => [session_close] | None => [] end)
  ++ (match scriptProcessor s with Some _ => [processor_disconnect] | None => [] end)
  ++ (match audioContext s with
      | Some ctx => match state ctx with closed => [] | _ => [context_close] end
      | None => []
      end)
  ++ (match dataConnection s with Some _ => [connection_close] | None => [] end)
  ++ (match peer s with Some _ => [peer_destroy] | None => [] end).

(** [endMeeting()]: returns at once unless [isMeetingActive]. *)
Definition endMeeting (s : App) : App :=
  if negb (isMeetingActive s) then s
  else
    let tracks1 := match mediaStream s with
                   | Some stream => stop_all stream (tracks s)
                   | None => tracks s
                   end in
    let tracks2 := match geminiMediaStream s with
                   | Some stream => stop_all stream tracks1
                   | None => tracks1
                   end in
    resetUI
      {| isMeetingActive := false;
         sessionPromise := None;
         mediaStream := None;
         geminiMediaStream := None;
         peerMediaStream := None;
         audioContext := match audioContext s with
                         | Some ctx => match state ctx with
                                       | closed => Some ctx
                                       | _ => None
                                       end
                         | None => None
                         end;
         scriptProcessor := None;
         translationDelay := translationDelay s;
         peer := None;
         dataConnection := None;
         meetingId := meetingId s;
         remoteName := remoteName s;
         localTranscriptionBuffer := localTranscriptionBuffer s;
         localTranscriptionTimer := localTranscriptionTimer s;
         tracks := tracks2;
         timers := timers s;
         nextTimer := nextTimer s;
         now := now s;
         status := status s;
         panel := panel s;
         calls := calls s ++ teardown_calls s |}.

(** [transcriptionPanel.innerHTML = ''] *)
Definition clear_panel (s : App) : App :=
  {| isMeetingActive := isMeetingActive s; sessionPromise := sessionPromise s;
     mediaStream := mediaStream s; geminiMediaStream := geminiMediaStream s;
     peerMediaStream := peerMediaStream s; audioContext := audioContext s;
     scriptProcessor := scriptProcessor s; translationDelay := translationDelay s;
     peer := peer s; dataConnection := dataConnection s;
     meetingId := meetingId s; remoteName := remoteName s;
     localTranscriptionBuffer := localTranscriptionBuffer s;
     localTranscriptionTimer := localTranscriptionTimer s;
     tracks := tracks s; timers := timers s; nextTimer := nextTimer s;
     now := now s; status := status s; panel := []; calls := calls s |}.

(** What [startMeeting] has assigned when [await setupGeminiTranscription()]
    is reached: the two streams, the peer made by [initializePeer], and the
    audio context, script processor and session promise made by
    [setupGeminiTranscription]. *)
Definition started (isJoining : bool) (feeds : Splitter.Feeds) (store : TrackStore)
    (contextRate : Q) (s : App) : App :=
  {| isMeetingActive := isMeetingActive s;
     sessionPromise := Some 0%nat;
     mediaStream := mediaStream s;
     geminiMediaStream := Some (Splitter.recognition feeds);
     peerMediaStream := Some (Splitter.transport feeds);
     audioContext := Some {| sampleRate := contextRate; state := running |};
     scriptProcessor := Some false;
     translationDelay := translationDelay s;
     peer := Some {| id := if isJoining then None else meetingId s;
                     destroyed := false |};
     dataConnection := dataConnection s;
     meetingId := meetingId s;
     remoteName := remoteName s;
     localTranscriptionBuffer := localTranscriptionBuffer s;
     localTranscriptionTimer := localTranscriptionTimer s;
     tracks := store; timers := timers s; nextTimer := nextTimer s;
     now := now s; status := status s; panel := panel s; calls := calls s |}.

Definition activate (s : App) : App :=
  {| isMeetingActive := true; sessionPromise := sessionPromise s;
     mediaStream := mediaStream s; geminiMediaStream := geminiMediaStream s;
     peerMediaStream := peerMediaStream s; audioContext := audioContext s;
     scriptProcessor := option_map (fun _ => true) (scriptProcessor s);
     translationDelay := translationDelay s;
     peer := peer s; dataConnection := dataConnection s;
     meetingId := meetingId s; remoteName := remoteName s;
     localTranscriptionBuffer := localTranscriptionBuffer s;
     localTranscriptionTimer := localTranscriptionTimer s;
     tracks := tracks s; timers := timers s; nextTimer := nextTimer s;
     now := now s; status := status s; panel := panel s; calls := calls s |}.

(** [startMeeting(isJoining)]. [contextRate] is the sample rate the
    browser gives the new audio context, and [connected] tells whether the
    promise of [genAI.live.connect] resolves; when it rejects, the [catch]
    block runs [showError] and [endMeeting]. *)
Definition startMeeting (isJoining : bool) (contextRate : Q) (connected : bool)
    (s : App) : App :=
  let s := clear_panel s in
  match mediaStream s with
  | None => resetUI (showError s)
  | Some stream =>
      match Splitter.part_000_feeds (tracks s) stream with
      | None => endMeeting (showError s)
      | Some (feeds, store) =>
          let s1 := started isJoining feeds store contextRate s in
          if connected then activate s1
          else endMeeting (showError s1)
      end
  end.

(** [createMeeting()]: [meetingId = crypto.randomUUID(); startMeeting(false)]. *)
Definition createMeeting (uuid : string) (contextRate : Q) (connected : bool)
    (s : App) : App :=
  startMeeting false contextRate connected
    {| isMeetingActive := isMeetingActive s; sessionPromise := sessionPromise s;
       mediaStream := mediaStream s; geminiMediaStream := geminiMediaStream s;
       peerMediaStream := peerMediaStream s; audioContext := audioContext s;
       scriptProcessor := scriptProcessor s; translationDelay := translationDelay s;
       peer := peer s; dataConnection := dataConnection s;
       meetingId := Some uuid; remoteName := remoteName s;
       localTranscriptionBuffer := localTranscriptionBuffer s;
       localTranscriptionTimer := localTranscriptionTimer s;
       tracks := tracks s; timers := timers s; nextTimer := nextTimer s;
       now := now s; status := status s; panel := panel s; calls := calls s |}.

(** [requestMediaPermissions()] when access is granted: [getUserMedia]
    returns a stream of one new audio and one new video track. *)
Definition requestMediaPermissions (s : App) : App :=
  let a := fresh_id (tracks s) in
  let store1 := <[a := {| kind := audio; enabled := true; readyState := live;
                          device := 0%nat |}]> (tracks s) in
  let v := fresh_id store1 in
  let store2 := <[v := {| kind := video; enabled := true; readyState := live;
                          device := 1%nat |}]> store1 in
  {| isMeetingActive := isMeetingActive s; sessionPromise := sessionPromise s;
     mediaStream := Some [a; v]; geminiMediaStream := geminiMediaStream s;
     peerMediaStream := peerMediaStream s; audioContext := audioContext s;
     scriptProcessor := scriptProcessor s; translationDelay := translationDelay s;
     peer := peer s; dataConnection := dataConnection s;
     meetingId := meetingId s; remoteName := remoteName s;
     localTranscriptionBuffer := localTranscriptionBuffer s;
     localTranscriptionTimer := localTranscriptionTimer s;
     tracks := store2; timers := timers s; nextTimer := nextTimer s;
     now := now s; status := status s; panel := panel s; calls := calls s |}.

End Part000.

(** ** The push-to-talk model: second file of part_001 *)

Module PushToTalk.
Import JS Browser Page.

(** The variables [startTranscribing], [stopTranscribing] and
    [handleLocalTranscription] read or write, the status indicator, the
    transcription panel and the log of external calls. *)
Record App : Type := {
  isMeetingActive : bool;
  isTalking : bool;                       (* the gate *)
  audioContext : option AudioContext;
  scriptProcessor : option bool;          (* the node, and whether it is connected *)
  dataConnection : option DataConnection;
  localTranscriptionBuffer : string;
  status : string;
  panel : list Line;
  calls : list Call
}.

(** [startTranscribing()]: the gate opens. *)
Definition startTranscribing (s : App) : App :=
  match scriptProcessor s, audioContext s with
  | Some _, Some _ =>
      if negb (isMeetingActive s) || isTalking s then s
      else
        {| isMeetingActive := isMeetingActive s;
           isTalking := true;
           audioContext := audioContext s;
           scriptProcessor := Some true;
           dataConnection := dataConnection s;
           localTranscriptionBuffer := localTranscriptionBuffer s;
           status := "listening";
           panel := panel s;
           calls := calls s ++ [processor_connect] |}
  | _, _ => s
  end.

(** [appendAndTranslate(text, speaker)] as far as the panel goes. *)
Definition appendAndTranslate (text speaker : string) (lines : list Line) : list Line :=
  lines ++ [{| speaker := speaker; text := text |}].

(** [stopTranscribing()]: the gate closes, and a buffer that is not
    blank is shown as a line, sent to the peer and emptied. *)
Definition stopTranscribing (s : App) : App :=
  match scriptProcessor s with
  | Some _ =>
      if negb (isMeetingActive s) || negb (isTalking s) then s
      else
        let buffer := localTranscriptionBuffer s in
        let commit := (0 <? String.length (trim buffer))%nat in
        {| isMeetingActive := isMeetingActive s;
           isTalking := false;
           audioContext := audioContext s;
           scriptProcessor := Some false;
           dataConnection :=
             if commit then send_if_open (transcription buffer) (dataConnection s)
             else dataConnection s;
           localTranscriptionBuffer := if commit then "" else buffer;
           status := "ready";
           panel := if commit then appendAndTranslate buffer "You" (panel s) else panel s;
           calls := calls s ++ [processor_disconnect] |}
  | None => s
  end.

(** [handleLocalTranscription(text)]: nothing unless the gate is open. *)
Definition handleLocalTranscription (text : string) (s : App) : App :=
  if negb (isTalking s) then s
  else
    {| isMeetingActive := isMeetingActive s;
       isTalking := isTalking s;
       audioContext := audioContext s;
       scriptProcessor := scriptProcessor s;
       dataConnection := dataConnection s;
       localTranscriptionBuffer := localTranscriptionBuffer s +:+ text;
       status := status s;
       panel := panel s;
       calls := calls s |}.

(** The [onmessage] callback: [if (text) handleLocalTranscription(text)]. *)
Definition onmessage (text : option string) (s : App) : App :=
  match text with
  | Some text => if truthy text then handleLocalTranscription text s else s
  | None => s
  end.

Inductive Event : Type :=
| press                      (* the talk control goes down *)
| release                    (* the talk control goes up *)
| fragment (text : string).  (* a fragment arrives from the recognition service *)

Definition step (s : App) (e : Event) : App :=
  match e with
  | press => startTranscribing s
  | release => stopTranscribing s
  | fragment text => onmessage (Some text) s
  end.

Definition run (events : list Event) (s : App) : App := fold_left step events s.

(** A meeting in progress with the gate closed: [startMeeting] has
    succeeded, [setupGeminiTranscription] has left the processor
    disconnected, and the data channel is open. *)
Definition ready : App :=
  {| isMeetingActive := true; isTalking := false;
     audioContext := Some {| sampleRate := 16000 # 1; state := running |};
     scriptProcessor := Some false;
     dataConnection := Some {| open := true; sent := [] |};
     localTranscriptionBuffer := "";
     status := "ready"; panel := []; calls := [] |}.

End PushToTalk.

(** ** The data channel's handlers: [setupDataConnection] and [appendAndTranslate] *)

Module Channel.
Import JS Browser Page Delay.

(** What the ['data'] event carries: a message of the schema, or a value
    whose [type] is neither ['transcription'] nor ['name']. *)
Inductive Data : Type :=
| message (m : Message)
| unknown.

(** [appendAndTranslate(text, speaker)] as far as the panel goes: one
    line is appended. *)
Definition appendAndTranslate (text speaker : string) (s : App) : App :=
  {| isMeetingActive := isMeetingActive s; sessionPromise := sessionPromise s;
     mediaStream := mediaStream s; geminiMediaStream := geminiMediaStream s;
     peerMediaStream := peerMediaStream s; audioContext := audioContext s;
     scriptProcessor := scriptProcessor s; translationDelay := translationDelay s;
     peer := peer s; dataConnection := dataConnection s;
     meetingId := meetingId s; remoteName := remoteName s;
     localTranscriptionBuffer := localTranscriptionBuffer s;
     localTranscriptionTimer := localTranscriptionTimer s;
     tracks := tracks s; timers := timers s; nextTimer := nextTimer s;
     now := now s; status := status s;
     panel := panel s ++ [(now s, {| speaker := speaker; text := text |})];
     calls := calls s |}.

(** The handler of the ['data'] event. *)
Definition ondata (data : Data) (s : App) : App :=
  match data with
  | message (transcription text) => appendAndTranslate text "Participant" s
  | message (name n) =>
      {| isMeetingActive := isMeetingActive s; sessionPromise := sessionPromise s;
         mediaStream := mediaStream s; geminiMediaStream := geminiMediaStream s;
         peerMediaStream := peerMediaStream s; audioContext := audioContext s;
         scriptProcessor := scriptProcessor s; translationDelay := translationDelay s;
         peer := peer s; dataConnection := dataConnection s;
         meetingId := meetingId s; remoteName := n;
         localTranscriptionBuffer := localTranscriptionBuffer s;
         localTranscriptionTimer := localTranscriptionTimer s;
         tracks := tracks s; timers := timers s; nextTimer := nextTimer s;
         now := now s; status := status s; panel := panel s; calls := calls s |}
  | unknown => s
  end.

(** The messages of a data channel arrive in the order they were sent. *)
Definition deliver (messages : list Message) (s : App) : App :=
  fold_left (fun s m => ondata (message m) s) messages s.

(** The text of the transcription messages among [messages]. *)
Fixpoint transcriptions (messages : list Message) : list string :=
  match messages with
  | [] => []
  | transcription text :: messages' => text :: transcriptions messages'
  | name _ :: messages' => transcriptions messages'
  end.

End Channel.

(** ** The audio callback: [scriptProcessor.onaudioprocess] *)

Module AudioCallback.
Import JS Browser Encoder Resampler.

(** The chunk handed to [session.sendRealtimeInput], when the session
    promise exists; [None] when nothing is sent, which includes a
    callback ended by an exception. *)

(** index.js and both files of part_001: the block is encoded as it comes. *)
Definition index_onaudioprocess (sessionPromise : option nat)
    (inputData : list number) : option Blob :=
  let pcmBlob := createBlob inputData in
  match sessionPromise with
  | Some _ => Some pcmBlob
  | None => None
  end.

(** part_000: the block is resampled to 16000 Hz, then encoded. *)
Definition part_000_onaudioprocess (audioContext : option AudioContext)
    (sessionPromise : option nat) (inputData : list number) : option Blob :=
  match resampleBuffer audioContext inputData (16000 # 1) with
  | Some resampledData =>
      let pcmBlob := createBlob resampledData in
      match sessionPromise with
      | Some _ => Some pcmBlob
      | None => None
      end
  | None => None
  end.

(** part_002: nothing is computed until the session promise exists. *)
Definition part_002_onaudioprocess (audioContext : option AudioContext)
    (sessionPromise : option nat) (inputData : list number) : option Blob :=
  match sessionPromise with
  | None => None
  | Some _ =>
      let targetSampleRate := (16000 # 1)%Q in
      match resampleBuffer audioContext inputData targetSampleRate with
      | Some resampledData => Some (createBlob resampledData)
      | None => None
      end
  end.

End AudioCallback.

(** ** part_002: teardown and the microphone and camera switches *)

Module Part002.
Import JS Browser Page Delay.

(** The variables of part_002: those of the delay model and
    [isTranscriptionSetup]; [peerStream] is kept in [peerMediaStream]. *)
Record App : Type := {
  base : Delay.App;
  isTranscriptionSetup : bool
}.

Definition teardown_calls (s : Delay.App) : list Call :=
  (match mediaStream s with Some stream => map track_stop stream | None => [] end)
  ++ (match sessionPromise s with Some _ => [session_close] | None => [] end)
  ++ (match scriptProcessor s with Some _ => [processor_disconnect] | None => [] end)
  ++ (match audioContext s with
      | Some ctx => match state ctx with closed => [] | _ => [context_close] end
      | None => []
      end)
  ++ (match dataConnection s with Some _ => [connection_close] | None => [] end)
  ++ (match peer s with Some _ => [peer_destroy] | None => [] end).

(** [endMeeting()]: returns at once when the meeting is not active and
    there is no media stream. *)
Definition endMeeting (a : App) : App :=
  let s := base a in
  match isMeetingActive s, mediaStream s with
  | false, None => a
  | _, _ =>
      {| base :=
           Part000.resetUI
             {| isMeetingActive := false;
                sessionPromise := None;
                mediaStream := None;
                geminiMediaStream := geminiMediaStream s;
                peerMediaStream := None;
                audioContext := match audioContext s with
                                | Some ctx => match state ctx with
                                              | closed => Some ctx
                                              | _ => None
                                              end
                                | None => None
                                end;
                scriptProcessor := None;
                translationDelay := translationDelay s;
                peer := None;
                dataConnection := None;
                meetingId := meetingId s;
                remoteName := remoteName s;
                localTranscriptionBuffer := localTranscriptionBuffer s;
                localTranscriptionTimer := localTranscriptionTimer s;
                tracks := match mediaStream s with
                          | Some stream => stop_all stream (tracks s)
                          | None => tracks s
                          end;
                timers := timers s;
                nextTimer := nextTimer s;
                now := now s;
                status := status s;
                panel := panel s;
                calls := calls s ++ teardown_calls s |};
         isTranscriptionSetup := false |}
  end.

(** The body of the [forEach] of both switches on one track, on the
    track store and the face of the switch ([true] when it carries the
    class ['muted']): [track.enabled = !track.enabled], and the switch
    shows its muted face exactly when the track is now disabled. *)
Definition toggle (st : TrackStore * bool) (t : TrackId) : TrackStore * bool :=
  match st.1 !! t with
  | Some tr => (set_enabled t (negb (enabled tr)) st.1, enabled tr)
  | None => st
  end.

(** [toggleMicrophone()] on the track store and the face of the switch. *)
Definition toggleMicrophone (mediaStream : option MediaStream)
    (st : TrackStore * bool) : TrackStore * bool :=
  match mediaStream with
  | None => st
  | Some stream => fold_left toggle (getAudioTracks st.1 stream) st
  end.

(** [toggleCamera()] on the track store and the face of the switch. *)
Definition toggleCamera (mediaStream : option MediaStream)
    (st : TrackStore * bool) : TrackStore * bool :=
  match mediaStream with
  | None => st
  | Some stream => fold_left toggle (getVideoTracks st.1 stream) st
  end.

End Part002.

(** ** Notions used in the statements *)

Section Notions.
Import JS Encoder Wire Browser Page Delay.

(** A string that trims to the empty string. *)
Definition blank (s : string) : bool := negb (truthy (trim s)).

(** What the encoder does to one sample [s], giving the 16-bit value [v]. *)
Definition encodes (s : number) (v : Z) : Prop :=
  match s with
  | Infinity _ | NaN => v = 0
  | Num q =>
      - 2 ^ 15 <= v < 2 ^ 15 /\
      (v - truncate (q * (32768 # 1))) mod 2 ^ 16 = 0 /\
      ((-1 <= q)%Q -> (q < 1)%Q ->
       v = truncate (q * (32768 # 1)) /\
       (Qabs (dequantize v - q) < 1 # 32768)%Q)
  end.

(** The states the line buffer can be in: a pending timeout is the one
    [localTranscriptionTimer] holds, its callback closed over the present
    accumulator, and it is due at most one delay from now; the handle held
    was returned by an earlier [setTimeout]. *)
Definition wf (s : App) : Prop :=
  (forall h tm, timers s !! h = Some tm ->
     localTranscriptionTimer s = Some h /\
     lineToTranslate tm = localTranscriptionBuffer s /\
     due tm <= now s + Z.max 0 (translationDelay s)) /\
  (forall h, localTranscriptionTimer s = Some h -> (h < nextTimer s)%positive).

(** The stream [getUserMedia] returns: one audio and one video track. *)
Definition captured : TrackStore :=
  {[ 0%nat := {| kind := audio; enabled := true; readyState := live; device := 0%nat |};
     1%nat := {| kind := video; enabled := true; readyState := live; device := 1%nat |} ]}.

(** The state of part_000 after the page has loaded, access to the
    camera and microphone has been granted, a meeting has been created,
    and the recognition session has failed to connect. *)
Definition part_000_failed_start : App :=
  Part000.createMeeting "room-42" (48000 # 1) false
    (Part000.requestMediaPermissions initial).

End Notions.

(** ** Further notions *)

Section FurtherNotions.
Import JS Float Encoder Wire Browser Page Delay.

(** A value of the format [f]: rounding leaves it as it is, and it is
    not beyond the largest finite value. *)
Definition represented (f : Format) (q : Q) : Prop :=
  (round f q == q)%Q /\ (Qabs q <= largest f)%Q.

(** A number a [Float32Array] can hold. *)
Definition float32_value (x : number) : Prop :=
  match x with
  | Num q => represented single q
  | Infinity _ | NaN => True
  end.

(** The unit roundoff of binary64, [2^-53]. *)
Definition unit_roundoff : Q := 1 # 9007199254740992.

(** The offset the resampler computes for the output index [j] when the
    ratio of the rates is the binary64 number [ratio]:
    [Math.round(j * ratio)]. *)
Definition offset (ratio : Q) (j : Z) : Z :=
  Math_round (round double (inject_Z j * ratio)).

(** The binary64 ratio of the rates, [inputSampleRate / targetSampleRate]
    as the resampler computes it. *)
Definition ratio (inputSampleRate targetSampleRate : Q) : Q :=
  round double (inputSampleRate / targetSampleRate).

(** The binary64 quotient [length / ratio]. *)
Definition quotient (length : Z) (ratio : Q) : Q :=
  round double (inject_Z length / ratio).

(** A finite number between [lo] and [hi]. *)
Definition within (lo hi : Q) (x : number) : Prop :=
  exists q, x = Num q /\ (lo <= q <= hi)%Q.

(** The text of a line of the panel when it is the local speaker's. *)
Definition own_text (l : Z * Line) : string :=
  if String.eqb (speaker l.2) "You" then text l.2 else "".

(** What the local speaker has said so far, as the page holds it: the
    lines of the panel attributed to ['You'], in order, followed by the
    accumulator. *)
Definition said (s : App) : string :=
  fold_right String.append (localTranscriptionBuffer s) (map own_text (panel s)).

(** The characters of a string that are not white space. *)
Definition letters (s : string) : list ascii :=
  List.filter (fun c => negb (isWhiteSpace c)) (list_ascii_of_string s).

(** The text of the fragments among [events], in order. *)
Definition fragments (events : list Event) : list string :=
  flat_map (fun e => match e with fragment _ text => [text] | wait _ => [] end) events.

(** The line buffer is at rest or is waiting to commit text that is
    not blank: the accumulator is empty with no timeout pending, or it is
    not blank and a timeout is pending. *)
Definition steady (s : App) : Prop :=
  (localTranscriptionBuffer s = "" /\ timers s = ∅) \/
  (blank (localTranscriptionBuffer s) = false /\ timers s <> ∅).

(** A line of the panel whose text is not blank. *)
Definition worded (l : Z * Line) : Prop := blank (text l.2) = false.




(** A track object after [track.stop()]. *)
Definition stopped (tr : Track) : Track :=
  {| kind := kind tr; enabled := enabled tr; readyState := ended; device := device tr |}.

(** A track object after [track.enabled = !track.enabled]. *)
Definition flipped (tr : Track) : Track :=
  {| kind := kind tr; enabled := negb (enabled tr); readyState := readyState tr;
     device := device tr |}.





End FurtherNotions.

(** * Properties *)

(** ** Rounding and truncation *)

Section Rounding.
Import JS.
Local Open Scope Q_scope.

Lemma Qfloor_spec (q : Q) (z : Z) :
  inject_Z z <= q -> q < inject_Z (z + 1) -> Qfloor q = z.
Proof.
  intros Hlo Hhi.
  pose proof (Qfloor_le q) as Hf1.
  pose proof (Qlt_floor q) as Hf2.
  assert (H1 : (Qfloor q < z + 1)%Z).
  { rewrite Zlt_Qlt. eapply Qle_lt_trans; eauto. }
  assert (H2 : (z < Qfloor q + 1)%Z).
  { rewrite Zlt_Qlt. eapply Qle_lt_trans; eauto. }
  lia.
Qed.

Lemma Qfloor_add_Z (q : Q) (z : Z) : Qfloor (q + inject_Z z) = (Qfloor q + z)%Z.
Proof.
  apply Qfloor_spec.
  - rewrite inject_Z_plus. pose proof (Qfloor_le q). lra.
  - replace (Qfloor q + z + 1)%Z with ((Qfloor q + 1) + z)%Z by lia.
    rewrite inject_Z_plus. pose proof (Qlt_floor q). lra.
Qed.

Lemma Math_round_le (p q : Q) : p <= q -> (Math_round p <= Math_round q)%Z.
Proof. intros H. apply Qfloor_resp_le. lra. Qed.

Lemma Math_round_add_1 (q : Q) : Math_round (q + 1) = (Math_round q + 1)%Z.
Proof.
  unfold Math_round.
  rewrite <- (Qfloor_add_Z (q + (1 # 2)) 1).
  apply Qfloor_comp. change (inject_Z 1) with 1. ring.
Qed.

Lemma Math_round_Z (z : Z) : Math_round (inject_Z z) = z.
Proof.
  unfold Math_round. apply Qfloor_spec.
  - lra.
  - rewrite inject_Z_plus. change (inject_Z 1) with 1. lra.
Qed.

Lemma Math_round_upper (q : Q) : inject_Z (Math_round q) <= q + (1 # 2).
Proof. apply Qfloor_le. Qed.

Lemma Math_round_lower (q : Q) : q - (1 # 2) < inject_Z (Math_round q).
Proof.
  unfold Math_round. pose proof (Qlt_floor (q + (1 # 2))) as H.
  rewrite inject_Z_plus in H. change (inject_Z 1) with 1 in H. lra.
Qed.

Lemma Math_round_comp (p q : Q) : p == q -> Math_round p = Math_round q.
Proof. intros H. unfold Math_round. apply Qfloor_comp. rewrite H. reflexivity. Qed.

(** [truncate] leaves out less than one unit, on the side of zero. *)
Lemma truncate_nonneg (q : Q) :
  0 <= q -> inject_Z (truncate q) <= q /\ q < inject_Z (truncate q) + 1.
Proof.
  intros H. unfold truncate.
  destruct (Qle_bool 0 q) eqn:E.
  - split; [apply Qfloor_le|].
    pose proof (Qlt_floor q) as H1. rewrite inject_Z_plus in H1.
    change (inject_Z 1) with 1 in H1. exact H1.
  - apply Qle_bool_iff in H. congruence.
Qed.

Lemma truncate_neg (q : Q) :
  q < 0 -> q <= inject_Z (truncate q) /\ inject_Z (truncate q) - 1 < q.
Proof.
  intros H. unfold truncate.
  destruct (Qle_bool 0 q) eqn:E.
  - apply Qle_bool_iff in E. lra.
  - split; [apply Qle_ceiling|].
    pose proof (Qceiling_lt q) as H1.
    unfold Z.sub in H1. rewrite inject_Z_plus, inject_Z_opp in H1.
    change (inject_Z 1) with 1 in H1. lra.
Qed.

Lemma truncate_error (q : Q) : Qabs (inject_Z (truncate q) - q) < 1.
Proof.
  apply Qabs_Qlt_condition.
  destruct (Qlt_le_dec q 0) as [H|H].
  - destruct (truncate_neg q H). lra.
  - destruct (truncate_nonneg q H). lra.
Qed.

Lemma truncate_range (q : Q) (lo hi : Z) :
  (lo <= 0 < hi)%Z -> inject_Z lo <= q -> q < inject_Z hi ->
  (lo <= truncate q < hi)%Z.
Proof.
  intros [Hlo Hhi] H1 H2.
  destruct (Qlt_le_dec q 0) as [H|H].
  - destruct (truncate_neg q H) as [Ha Hb].
    assert (Hz : (truncate q < 1)%Z)
      by (rewrite Zlt_Qlt; change (inject_Z 1) with 1; lra).
    split; [|lia].
    rewrite Zle_Qle. lra.
  - destruct (truncate_nonneg q H) as [Ha Hb].
    assert (Hc : (-1 < truncate q)%Z).
    { rewrite Zlt_Qlt. change (inject_Z (-1)) with (-1). lra. }
    split; [lia|].
    rewrite Zlt_Qlt. lra.
Qed.

End Rounding.

(** ** Frame Encoder *)

Section EncoderFacts.
Import JS Encoder Wire.

Lemma ToInt16_range (x : number) : - 2 ^ 15 <= ToInt16 x < 2 ^ 15.
Proof.
  destruct x as [q| |]; simpl; [|lia|lia].
  pose proof (Z.mod_pos_bound (truncate q) (2 ^ 16) ltac:(lia)) as Hm.
  destruct (2 ^ 15 <=? truncate q mod 2 ^ 16) eqn:E; lia.
Qed.

Lemma ToInt16_wraps (q : Q) : (ToInt16 (Num q) - truncate q) mod 2 ^ 16 = 0.
Proof.
  simpl.
  pose proof (Z.div_mod (truncate q) (2 ^ 16) ltac:(lia)) as Hd.
  destruct (2 ^ 15 <=? truncate q mod 2 ^ 16).
  - replace (truncate q mod 2 ^ 16 - 2 ^ 16 - truncate q)
      with ((- (truncate q / 2 ^ 16) - 1) * 2 ^ 16) by lia.
    apply Z.mod_mul. lia.
  - replace (truncate q mod 2 ^ 16 - truncate q)
      with ((- (truncate q / 2 ^ 16)) * 2 ^ 16) by lia.
    apply Z.mod_mul. lia.
Qed.

Lemma ToInt16_in_range (q : Q) :
  - 2 ^ 15 <= truncate q < 2 ^ 15 -> ToInt16 (Num q) = truncate q.
Proof.
  intros H. simpl.
  destruct (Z.ltb_spec (truncate q) 0) as [Hn|Hp].
  - assert (Hm : truncate q mod 2 ^ 16 = truncate q + 2 ^ 16).
    { symmetry. apply Z.mod_unique_pos with (q := -1); lia. }
    rewrite Hm. destruct (Z.leb_spec (2 ^ 15) (truncate q + 2 ^ 16)); lia.
  - rewrite Z.mod_small by lia.
    destruct (Z.leb_spec (2 ^ 15) (truncate q)); lia.
Qed.

(** *** The byte view of the sample buffer *)

Lemma int16_bytes_byte (v : Z) : Forall (fun b => 0 <= b < 256) (int16_bytes v).
Proof.
  unfold int16_bytes. repeat constructor; apply Z.mod_pos_bound; lia.
Qed.

Lemma Uint8Array_of_buffer_bytes (int16 : list Z) :
  Forall (fun b => 0 <= b < 256) (Uint8Array_of_buffer int16).
Proof.
  induction int16 as [|v int16 IH]; simpl.
  - constructor.
  - constructor; [apply Z.mod_pos_bound; lia|].
    constructor; [apply Z.mod_pos_bound; lia | exact IH].
Qed.

Lemma int16_of_bytes_buffer (int16 : list Z) :
  Forall (fun v => - 2 ^ 15 <= v < 2 ^ 15) int16 ->
  int16_of_bytes (Uint8Array_of_buffer int16) = Some int16.
Proof.
  induction 1 as [|v int16 Hv _ IH]; [reflexivity|].
  cbn [Uint8Array_of_buffer flat_map int16_bytes app int16_of_bytes].
  change (flat_map int16_bytes int16) with (Uint8Array_of_buffer int16).
  rewrite IH. cbn [option_map]. do 2 f_equal.
  assert (Hu : v mod 256 + 256 * ((v / 256) mod 256) = v mod 2 ^ 16).
  { change (2 ^ 16) with (256 * 256). rewrite Z.rem_mul_r by lia. reflexivity. }
  rewrite Hu.
  destruct (Z.ltb_spec v 0) as [Hn|Hp].
  - assert (Hm : v mod 2 ^ 16 = v + 2 ^ 16).
    { symmetry. apply Z.mod_unique_pos with (q := -1); lia. }
    rewrite Hm. destruct (Z.leb_spec (2 ^ 15) (v + 2 ^ 16)); lia.
  - rewrite Z.mod_small by lia.
    destruct (Z.leb_spec (2 ^ 15) v); lia.
Qed.

Lemma int16_of_samples_range (samples : list number) :
  Forall (fun v => - 2 ^ 15 <= v < 2 ^ 15) (int16_of_samples samples).
Proof.
  unfold int16_of_samples. apply Forall_map, Forall_forall.
  intros s _. apply ToInt16_range.
Qed.

End EncoderFacts.

(** *** base64: [atob] undoes [btoa] *)

Section Base64.
Import JS Encoder Wire.

Lemma sextet_cases (P : Z -> Prop) :
  (forall k : nat, (k < 64)%nat -> P (Z.of_nat k)) ->
  forall n, 0 <= n < 64 -> P n.
Proof.
  intros H n Hn. rewrite <- (Z2Nat.id n) by lia. apply H. lia.
Qed.

Lemma digit_value_base64_digit (n : Z) :
  0 <= n < 64 -> digit_value (base64_digit n) = Some n.
Proof.
  revert n. apply sextet_cases. intros k Hk.
  do 64 (destruct k as [|k]; [reflexivity|]). lia.
Qed.

Lemma base64_digit_not_pad (n : Z) :
  0 <= n < 64 -> Ascii.eqb (base64_digit n) pad = false.
Proof.
  revert n. apply sextet_cases. intros k Hk.
  do 64 (destruct k as [|k]; [reflexivity|]). lia.
Qed.

Lemma charCode_byte (c : ascii) : 0 <= charCode c < 256.
Proof.
  unfold charCode. pose proof (N_ascii_bounded c). lia.
Qed.

Lemma charCode_fromCharCode (b : Z) : 0 <= b < 256 -> charCode (fromCharCode b) = b.
Proof.
  intros H. unfold charCode, fromCharCode.
  rewrite N_ascii_embedding by lia. lia.
Qed.

Lemma lor_shiftl_low (x y k : Z) :
  0 <= k -> 0 <= y < 2 ^ k -> Z.lor (Z.shiftl x k) y = x * 2 ^ k + y.
Proof.
  intros Hk Hy.
  pose proof (Z.add_lor_land (Z.shiftl x k) y) as Hs.
  assert (Hl : Z.land (Z.shiftl x k) y = 0).
  { rewrite <- (Z.mod_small y (2 ^ k)) by lia.
    rewrite <- Z.land_ones by lia.
    rewrite (Z.land_comm y), Z.land_assoc, Z.land_ones by lia.
    rewrite Z.shiftl_mul_pow2 by lia.
    rewrite Z.mod_mul by lia. reflexivity. }
  rewrite Hl in Hs. rewrite Z.shiftl_mul_pow2 in * by lia. lia.
Qed.

(** The four digits of a group in arithmetic form. *)
Lemma digit1_eq (a : Z) : Z.shiftr a 2 = a / 4.
Proof. rewrite Z.shiftr_div_pow2 by lia. reflexivity. Qed.

Lemma digit2_eq (a b : Z) :
  0 <= b < 256 ->
  Z.lor (Z.shiftl (Z.land a 3) 4) (Z.shiftr b 4) = (a mod 4) * 16 + b / 16.
Proof.
  intros Hb. rewrite Z.shiftr_div_pow2 by lia.
  change 3 with (Z.ones 2). rewrite Z.land_ones by lia.
  rewrite lor_shiftl_low; [reflexivity | lia |].
  change (2 ^ 4) with 16. split; [apply Z.div_pos; lia|].
  apply Z.div_lt_upper_bound; lia.
Qed.

Lemma digit2_last_eq (a : Z) : Z.shiftl (Z.land a 3) 4 = (a mod 4) * 16.
Proof.
  change 3 with (Z.ones 2). rewrite Z.land_ones, Z.shiftl_mul_pow2 by lia.
  reflexivity.
Qed.

Lemma digit3_eq (b c : Z) :
  0 <= c < 256 ->
  Z.lor (Z.shiftl (Z.land b 15) 2) (Z.shiftr c 6) = (b mod 16) * 4 + c / 64.
Proof.
  intros Hc. rewrite Z.shiftr_div_pow2 by lia.
  change 15 with (Z.ones 4). rewrite Z.land_ones by lia.
  rewrite lor_shiftl_low; [reflexivity | lia |].
  change (2 ^ 2) with 4. split; [apply Z.div_pos; lia|].
  apply Z.div_lt_upper_bound; lia.
Qed.

Lemma digit3_last_eq (b : Z) : Z.shiftl (Z.land b 15) 2 = (b mod 16) * 4.
Proof.
  change 15 with (Z.ones 4). rewrite Z.land_ones, Z.shiftl_mul_pow2 by lia.
  reflexivity.
Qed.

Lemma digit4_eq (c : Z) : Z.land c 63 = c mod 64.
Proof. change 63 with (Z.ones 6). rewrite Z.land_ones by lia. reflexivity. Qed.

(** Strings are taken three characters at a time. *)
Lemma string_triples_ind (P : string -> Prop) :
  P EmptyString ->
  (forall a, P (String a EmptyString)) ->
  (forall a b, P (String a (String b EmptyString))) ->
  (forall a b c rest, P rest -> P (String a (String b (String c rest)))) ->
  forall s, P s.
Proof.
  intros H0 H1 H2 H3.
  fix IH 1.
  intros [|a [|b [|c rest]]].
  - exact H0.
  - apply H1.
  - apply H2.
  - apply H3, IH.
Qed.

Ltac sextet_bounds :=
  repeat match goal with
         | c : ascii |- _ =>
             lazymatch goal with
             | _ : 0 <= charCode c < 256 |- _ => fail
             | _ => pose proof (charCode_byte c)
             end
         end.

Lemma atob_btoa (binary : string) :
  atob (btoa binary) = Some (map charCode (list_ascii_of_string binary)).
Proof.
  induction binary as [|a|a b|a b c rest IH] using string_triples_ind.
  - reflexivity.
  - sextet_bounds.
    cbn [btoa atob list_ascii_of_string map].
    rewrite digit1_eq, digit2_last_eq.
    rewrite !digit_value_base64_digit
      by (Z.div_mod_to_equations; lia).
    change (Ascii.eqb "=" pad) with true. cbn iota.
    do 2 f_equal. Z.div_mod_to_equations. lia.
  - sextet_bounds.
    cbn [btoa atob list_ascii_of_string map].
    rewrite digit1_eq, digit2_eq, digit3_last_eq by assumption.
    rewrite !digit_value_base64_digit
      by (Z.div_mod_to_equations; lia).
    rewrite base64_digit_not_pad by (Z.div_mod_to_equations; lia).
    change (Ascii.eqb "=" pad) with true. cbn iota.
    f_equal. f_equal; [|f_equal]; Z.div_mod_to_equations; lia.
  - sextet_bounds.
    cbn [btoa atob list_ascii_of_string map].
    rewrite digit1_eq, digit2_eq, digit3_eq, digit4_eq by assumption.
    rewrite !digit_value_base64_digit
      by (Z.div_mod_to_equations; lia).
    rewrite !base64_digit_not_pad by (Z.div_mod_to_equations; lia).
    rewrite IH.
    f_equal. f_equal; [|f_equal; [|f_equal]]; Z.div_mod_to_equations; lia.
Qed.

Lemma append_empty_r (s : string) : s +:+ "" = s.
Proof.
  induction s as [|c s IH]; [reflexivity|].
  change (String c (s +:+ "") = String c s). now rewrite IH.
Qed.

Lemma append_assoc (s t u : string) : (s +:+ t) +:+ u = s +:+ (t +:+ u).
Proof.
  induction s as [|c s IH]; [reflexivity|].
  change (String c ((s +:+ t) +:+ u) = String c (s +:+ (t +:+ u))). now rewrite IH.
Qed.

Lemma binary_string_eq (bytes : list Z) (binary : string) :
  fold_left (fun binary byte => binary +:+ String (fromCharCode byte) "") bytes binary
  = binary +:+ string_of_list_ascii (map fromCharCode bytes).
Proof.
  revert binary. induction bytes as [|b bytes IH]; intros binary; simpl.
  - now rewrite append_empty_r.
  - rewrite IH, append_assoc. reflexivity.
Qed.

Lemma atob_encode (bytes : list Z) :
  Forall (fun b => 0 <= b < 256) bytes -> atob (encode bytes) = Some bytes.
Proof.
  intros H. unfold encode.
  rewrite binary_string_eq.
  change ("" +:+ string_of_list_ascii (map fromCharCode bytes))
    with (string_of_list_ascii (map fromCharCode bytes)).
  rewrite atob_btoa, list_ascii_of_string_of_list_ascii. f_equal.
  induction H as [|b bytes Hb _ IH]; simpl; [reflexivity|].
  rewrite charCode_fromCharCode by assumption. now rewrite IH.
Qed.

(** Decoding an encoded chunk gives back the contents of [int16]. *)
Lemma decode_createBlob (samples : list number) :
  decode (createBlob samples) = Some (int16_of_samples samples).
Proof.
  unfold decode, createBlob. cbn [data].
  rewrite atob_encode by apply Uint8Array_of_buffer_bytes.
  apply int16_of_bytes_buffer, int16_of_samples_range.
Qed.

End Base64.

(** *** What the encoder does to a sample *)

Section EncoderClaims.
Import JS Encoder Wire.

Lemma dequantize_truncate (q : Q) :
  (Qabs (dequantize (truncate (q * (32768 # 1))) - q) < 1 # 32768)%Q.
Proof.
  unfold dequantize.
  apply Qabs_Qlt_condition.
  set (x := (q * (32768 # 1))%Q).
  assert (Hq : (q == x / (32768 # 1))%Q) by (unfold x; field).
  destruct (Qlt_le_dec x 0) as [H|H].
  - destruct (truncate_neg x H) as [Ha Hb].
    rewrite Hq. unfold Qdiv.
    change (/ (32768 # 1))%Q with (1 # 32768)%Q. lra.
  - destruct (truncate_nonneg x H) as [Ha Hb].
    rewrite Hq. unfold Qdiv.
    change (/ (32768 # 1))%Q with (1 # 32768)%Q. lra.
Qed.

Lemma sample_in_range (q : Q) :
  (-1 <= q)%Q -> (q < 1)%Q ->
  - 2 ^ 15 <= truncate (q * (32768 # 1)) < 2 ^ 15.
Proof.
  intros Hlo Hhi. apply truncate_range.
  - lia.
  - change (inject_Z (- 2 ^ 15)) with (- (32768 # 1))%Q. lra.
  - change (inject_Z (2 ^ 15)) with (32768 # 1)%Q. lra.
Qed.

Lemma encodes_ToInt16 (s : number) : encodes s (ToInt16 (mul s (Num (32768 # 1)))).
Proof.
  destruct s as [q| |]; [|reflexivity|reflexivity].
  cbn [encodes mul].
  split; [apply ToInt16_range|].
  split; [apply ToInt16_wraps|].
  intros Hlo Hhi.
  rewrite ToInt16_in_range by (apply sample_in_range; assumption).
  split; [reflexivity | apply dequantize_truncate].
Qed.

(** C1 (as amended). The chunk [createBlob] makes decodes to one signed
    16-bit integer per sample. For a sample [s] with [-1 <= s < 1] the
    integer is [truncate (s * 32768)]: the fraction is discarded towards
    zero, not rounded to nearest, and the decoded value lies within one
    quantization step [1/32768] of [s]. Nothing is clamped: for any other
    finite sample, [s = 1] included, the integer is [truncate (s * 32768)]
    reduced modulo 2^16 into the signed range; [NaN] and the infinities
    give 0. *)
Theorem createBlob_truncates_and_wraps (samples : list number) :
  exists int16 : list Z,
    decode (createBlob samples) = Some int16 /\
    Forall2 encodes samples int16.
Proof.
  exists (int16_of_samples samples). split.
  - apply decode_createBlob.
  - unfold int16_of_samples.
    induction samples as [|s samples IH]; constructor.
    + apply encodes_ToInt16.
    + exact IH.
Qed.

(** C1, at the sample 7/131072: [s * 32768] is 1.75 and the chunk carries
    1, one quantization step within [s]. *)
Lemma createBlob_truncates_and_wraps_witness :
  exists v : Z,
    decode (createBlob [Num (7 # 131072)]) = Some [v] /\
    v = truncate ((7 # 131072) * (32768 # 1)) /\
    (Qabs (dequantize v - (7 # 131072)) < 1 # 32768)%Q.
Proof.
  destruct (createBlob_truncates_and_wraps [Num (7 # 131072)])
    as (int16 & Hd & HF).
  inversion HF as [|s v l l' He Hnil]; subst.
  inversion Hnil; subst.
  destruct He as (_ & _ & Hin).
  exists v. split; [exact Hd|].
  apply Hin; [unfold Qle | unfold Qlt]; simpl; lia.
Defined.

(** C1 as stated fails. At the sample 7/131072, inside [-1, 1], the
    product [s * 32768] is 1.75, whose nearest integer is 2, and the
    encoder stores 1. At the sample 1, also inside [-1, 1], the product is
    32768 and the encoder stores -32768. *)
Lemma createBlob_does_not_round :
  ((-1 <= 7 # 131072)%Q /\ (7 # 131072 <= 1)%Q /\
   Math_round ((7 # 131072) * (32768 # 1)) = 2 /\
   int16_of_samples [Num (7 # 131072)] = [1] /\
   decode (createBlob [Num (7 # 131072)]) = Some [1]) /\
  (Math_round (1 * (32768 # 1)) = 32768 /\
   int16_of_samples [Num 1] = [-32768] /\
   decode (createBlob [Num 1]) = Some [-32768]).
Proof.
  repeat split; try reflexivity; unfold Qle; simpl; lia.
Qed.

End EncoderClaims.

(** ** Rounding to a binary format *)

Section FloatFacts.
Import JS Float.
Local Open Scope Q_scope.

Lemma pow2_pos (k : Z) : 0 < 2 ^ k.
Proof. apply Qpower_0_lt. reflexivity. Qed.

Lemma pow2_plus (a b : Z) : 2 ^ (a + b) == 2 ^ a * 2 ^ b.
Proof. apply Qpower_plus. discriminate. Qed.

Lemma pow2_le (a b : Z) : (a <= b)%Z -> 2 ^ a <= 2 ^ b.
Proof. intros H. apply Qpower_le_compat_l; [exact H | discriminate]. Qed.

Lemma pow2_lt (a b : Z) : (a < b)%Z -> 2 ^ a < 2 ^ b.
Proof. intros H. apply Qpower_lt_compat_l; [exact H | reflexivity]. Qed.

Lemma pow2_lt_inv (a b : Z) : 2 ^ a < 2 ^ b -> (a < b)%Z.
Proof. intros H. apply (Qpower_lt_compat_l_inv 2); [exact H | reflexivity]. Qed.

Lemma pow2_Z (a : Z) : (0 <= a)%Z -> inject_Z (2 ^ a) == 2 ^ a.
Proof. intros H. rewrite Zpower_Qpower by exact H. reflexivity. Qed.

Lemma pow2_div (a b : Z) : 2 ^ a / 2 ^ b == 2 ^ (a - b).
Proof. symmetry. apply Qpower_minus. discriminate. Qed.

(** *** Rounding to the nearest integer, ties to even *)

Lemma rne_cases (q : Q) : rne q = Qfloor q \/ rne q = (Qfloor q + 1)%Z.
Proof.
  unfold rne. destruct (q - inject_Z (Qfloor q) ?= 1 # 2); [|auto|auto].
  destruct (Z.even (Qfloor q)); auto.
Qed.

Lemma rne_error (q : Q) : Qabs (inject_Z (rne q) - q) <= 1 # 2.
Proof.
  pose proof (Qfloor_le q) as H1. pose proof (Qlt_floor q) as H2.
  rewrite inject_Z_plus in H2. change (inject_Z 1) with 1 in H2.
  apply Qabs_Qle_condition. unfold rne.
  destruct (q - inject_Z (Qfloor q) ?= 1 # 2) eqn:E.
  - apply (proj2 (Qeq_alt _ _)) in E.
    destruct (Z.even (Qfloor q));
      [|rewrite inject_Z_plus; change (inject_Z 1) with 1]; lra.
  - apply (proj2 (Qlt_alt _ _)) in E. lra.
  - apply (proj2 (Qgt_alt _ _)) in E. rewrite inject_Z_plus. change (inject_Z 1) with 1. lra.
Qed.

Lemma rne_comp (p q : Q) : p == q -> rne p = rne q.
Proof.
  intros H. unfold rne. rewrite (Qfloor_comp _ _ H).
  assert (Hc : (p - inject_Z (Qfloor q) ?= 1 # 2) = (q - inject_Z (Qfloor q) ?= 1 # 2))
    by (rewrite H; reflexivity).
  now rewrite Hc.
Qed.

Lemma rne_Z (z : Z) : rne (inject_Z z) = z.
Proof.
  unfold rne. rewrite Qfloor_Z.
  assert (E : (inject_Z z - inject_Z z ?= 1 # 2) = Lt).
  { apply (proj1 (Qlt_alt _ _)). lra. }
  now rewrite E.
Qed.

Lemma rne_le (p q : Q) : p <= q -> (rne p <= rne q)%Z.
Proof.
  intros H. pose proof (Qfloor_resp_le _ _ H) as Hf.
  destruct (Z.eq_dec (Qfloor p) (Qfloor q)) as [Heq|Hne].
  - unfold rne. rewrite Heq.
    destruct (p - inject_Z (Qfloor q) ?= 1 # 2) eqn:Ep,
             (q - inject_Z (Qfloor q) ?= 1 # 2) eqn:Eq;
      try (apply (proj2 (Qeq_alt _ _)) in Ep); try (apply (proj2 (Qlt_alt _ _)) in Ep);
      try (apply (proj2 (Qgt_alt _ _)) in Ep);
      try (apply (proj2 (Qeq_alt _ _)) in Eq); try (apply (proj2 (Qlt_alt _ _)) in Eq);
      try (apply (proj2 (Qgt_alt _ _)) in Eq);
      try destruct (Z.even (Qfloor q)); try lia; exfalso; lra.
  - destruct (rne_cases p) as [-> | ->], (rne_cases q) as [-> | ->]; lia.
Qed.

(** *** The binary exponent of a positive rational *)

Lemma ilog2_spec (q : Q) : 0 < q -> 2 ^ ilog2 q <= q /\ q < 2 ^ (ilog2 q + 1).
Proof.
  intros Hq. destruct q as [n d]. unfold ilog2. cbn [Qnum Qden].
  assert (Hn : (0 < n)%Z) by (unfold Qlt in Hq; cbn in Hq; lia).
  set (a := Z.log2 n). set (b := Z.log2 (Z.pos d)).
  pose proof (Z.log2_spec n Hn) as [Ha1 Ha2]. fold a in Ha1, Ha2.
  pose proof (Z.log2_spec (Z.pos d) ltac:(lia)) as [Hb1 Hb2]. fold b in Hb1, Hb2.
  assert (Ha0 : (0 <= a)%Z) by apply Z.log2_nonneg.
  assert (Hb0 : (0 <= b)%Z) by apply Z.log2_nonneg.
  assert (Hq' : n # d == inject_Z n / inject_Z (Z.pos d)) by apply Qmake_Qdiv.
  assert (Hd : 0 < inject_Z (Z.pos d)) by (rewrite <- (Zlt_Qlt 0); lia).
  assert (A1 : 2 ^ a <= inject_Z n) by (rewrite <- pow2_Z by lia; rewrite <- Zle_Qle; lia).
  assert (A2 : inject_Z n < 2 ^ (a + 1))
    by (rewrite <- pow2_Z by lia; rewrite <- Zlt_Qlt; lia).
  assert (B1 : 2 ^ b <= inject_Z (Z.pos d))
    by (rewrite <- pow2_Z by lia; rewrite <- Zle_Qle; lia).
  assert (B2 : inject_Z (Z.pos d) < 2 ^ (b + 1))
    by (rewrite <- pow2_Z by lia; rewrite <- Zlt_Qlt; lia).
  pose proof (pow2_pos b) as Pb. pose proof (pow2_pos (b + 1)) as Pb1.
  (* 2^(a-b-1) < q < 2^(a-b+1) *)
  assert (U : n # d < 2 ^ (a - b + 1)).
  { rewrite Hq'. apply Qlt_shift_div_r; [exact Hd|].
    replace (a - b + 1)%Z with ((a + 1) + - b)%Z by lia.
    rewrite pow2_plus, Qpower_opp.
    assert (X : 2 ^ (a + 1) * / 2 ^ b * inject_Z (Z.pos d)
                == 2 ^ (a + 1) * (inject_Z (Z.pos d) / 2 ^ b)) by (field; lra).
    rewrite X.
    assert (Y : 1 <= inject_Z (Z.pos d) / 2 ^ b) by (apply Qle_shift_div_l; lra).
    pose proof (pow2_pos (a + 1)). nra. }
  assert (L : 2 ^ (a - b - 1) < n # d).
  { rewrite Hq'. apply Qlt_shift_div_l; [exact Hd|].
    replace (a - b - 1)%Z with (a + - (b + 1))%Z by lia.
    rewrite pow2_plus, Qpower_opp.
    assert (X : 2 ^ a * / 2 ^ (b + 1) * inject_Z (Z.pos d)
                == 2 ^ a * (inject_Z (Z.pos d) / 2 ^ (b + 1))) by (field; lra).
    rewrite X.
    assert (Y : inject_Z (Z.pos d) / 2 ^ (b + 1) < 1) by (apply Qlt_shift_div_r; lra).
    pose proof (pow2_pos a). nra. }
  destruct (Qle_bool (2 ^ (a - b)) (n # d)) eqn:E.
  - apply Qle_bool_iff in E. split; assumption.
  - assert (E' : n # d < 2 ^ (a - b)).
    { apply Qnot_le_lt. intros H. apply Qle_bool_iff in H. congruence. }
    replace (a - b - 1 + 1)%Z with (a - b)%Z by lia.
    split; [apply Qlt_le_weak; exact L | exact E'].
Qed.

Lemma ilog2_unique (q : Q) (k : Z) : 2 ^ k <= q -> q < 2 ^ (k + 1) -> ilog2 q = k.
Proof.
  intros H1 H2.
  assert (Hq : 0 < q) by (pose proof (pow2_pos k); lra).
  destruct (ilog2_spec q Hq) as [H3 H4].
  assert (A : (k < ilog2 q + 1)%Z) by (apply pow2_lt_inv; lra).
  assert (B : (ilog2 q < k + 1)%Z) by (apply pow2_lt_inv; lra).
  lia.
Qed.

Lemma ilog2_le (p q : Q) : 0 < p -> p <= q -> (ilog2 p <= ilog2 q)%Z.
Proof.
  intros Hp H.
  destruct (ilog2_spec p Hp) as [H1 _].
  destruct (ilog2_spec q ltac:(lra)) as [_ H2].
  assert (A : (ilog2 p < ilog2 q + 1)%Z) by (apply pow2_lt_inv; lra).
  lia.
Qed.

Lemma ilog2_comp (p q : Q) : 0 < p -> p == q -> ilog2 p = ilog2 q.
Proof.
  intros Hp H. destruct (ilog2_spec p Hp) as [H1 H2].
  symmetry. apply ilog2_unique; rewrite <- H; assumption.
Qed.


(** *** Rounding a positive rational to a format *)

Lemma exponent_emin (f : Format) (a : Q) : (emin f <= exponent f a)%Z.
Proof. unfold exponent. lia. Qed.

Lemma exponent_le (f : Format) (p q : Q) :
  0 < p -> p <= q -> (exponent f p <= exponent f q)%Z.
Proof. intros Hp H. unfold exponent. pose proof (ilog2_le p q Hp H). lia. Qed.

Lemma scaled_lt (f : Format) (a : Q) :
  0 < a -> a / 2 ^ exponent f a < 2 ^ prec f.
Proof.
  intros Ha. destruct (ilog2_spec a Ha) as [_ H].
  pose proof (pow2_pos (exponent f a)) as He.
  apply Qlt_shift_div_r; [exact He|].
  rewrite <- pow2_plus.
  assert (Hk : (ilog2 a + 1 <= prec f + exponent f a)%Z) by (unfold exponent; lia).
  pose proof (pow2_le _ _ Hk). lra.
Qed.

Lemma mantissa_bounds (f : Format) (a : Q) :
  (0 <= prec f)%Z -> 0 < a ->
  (0 <= rne (a / 2 ^ exponent f a) <= 2 ^ prec f)%Z.
Proof.
  intros Hp Ha. pose proof (pow2_pos (exponent f a)) as He. split.
  - assert (H0 : (rne 0 <= rne (a / 2 ^ exponent f a))%Z).
    { apply rne_le. apply Qle_shift_div_l; [exact He | rewrite Qmult_0_l; lra]. }
    exact H0.
  - rewrite <- (rne_Z (2 ^ prec f)). apply rne_le.
    rewrite pow2_Z by exact Hp. apply Qlt_le_weak, scaled_lt, Ha.
Qed.

Lemma magnitude_nonneg (f : Format) (a : Q) :
  (0 <= prec f)%Z -> 0 < a -> 0 <= magnitude f a.
Proof.
  intros Hp Ha. unfold magnitude.
  pose proof (mantissa_bounds f a Hp Ha) as [H _].
  apply Qmult_le_0_compat; [rewrite <- (Zle_Qle 0); exact H|].
  apply Qlt_le_weak, pow2_pos.
Qed.

Lemma magnitude_comp (f : Format) (p q : Q) :
  0 < p -> p == q -> magnitude f p = magnitude f q.
Proof.
  intros Hp H. unfold magnitude, exponent.
  rewrite (ilog2_comp p q Hp H).
  rewrite (rne_comp (p / 2 ^ Z.max (ilog2 q - (prec f - 1)) (emin f))
                    (q / 2 ^ Z.max (ilog2 q - (prec f - 1)) (emin f)))
    by (rewrite H; reflexivity).
  reflexivity.
Qed.

Lemma magnitude_le (f : Format) (p q : Q) :
  (1 <= prec f)%Z -> 0 < p -> p <= q -> magnitude f p <= magnitude f q.
Proof.
  intros Hprec Hp H.
  assert (Hq : 0 < q) by lra.
  pose proof (exponent_le f p q Hp H) as He.
  pose proof (pow2_pos (exponent f p)) as Pp.
  pose proof (pow2_pos (exponent f q)) as Pq.
  unfold magnitude.
  destruct (Z.eq_dec (exponent f p) (exponent f q)) as [Heq|Hne].
  - rewrite Heq.
    apply Qmult_le_compat_r; [|lra].
    rewrite <- Zle_Qle. apply rne_le.
    apply Qle_shift_div_l; [exact Pq|].
    assert (X : p / 2 ^ exponent f q * 2 ^ exponent f q == p) by (field; lra).
    rewrite X. exact H.
  - assert (Hlt : (exponent f p + 1 <= exponent f q)%Z) by lia.
    assert (Hkq : exponent f q = (ilog2 q - (prec f - 1))%Z).
    { unfold exponent in *. lia. }
    destruct (ilog2_spec q Hq) as [Hq1 _].
    (* the larger one is at least 2^(ilog2 q) *)
    assert (B : 2 ^ ilog2 q <= inject_Z (rne (q / 2 ^ exponent f q)) * 2 ^ exponent f q).
    { assert (M : (2 ^ (prec f - 1) <= rne (q / 2 ^ exponent f q))%Z).
      { rewrite <- (rne_Z (2 ^ (prec f - 1))). apply rne_le.
        rewrite pow2_Z by lia. apply Qle_shift_div_l; [exact Pq|].
        rewrite <- pow2_plus. rewrite Hkq.
        replace (prec f - 1 + (ilog2 q - (prec f - 1)))%Z with (ilog2 q) by lia.
        exact Hq1. }
      rewrite Zle_Qle in M. rewrite pow2_Z in M by lia.
      assert (E : 2 ^ ilog2 q == 2 ^ (prec f - 1) * 2 ^ exponent f q).
      { rewrite <- pow2_plus. rewrite Hkq.
        replace (prec f - 1 + (ilog2 q - (prec f - 1)))%Z with (ilog2 q) by lia.
        reflexivity. }
      rewrite E. apply Qmult_le_compat_r; [exact M | lra]. }
    (* the smaller one is at most 2^(exponent p + prec) *)
    assert (A : inject_Z (rne (p / 2 ^ exponent f p)) * 2 ^ exponent f p <= 2 ^ ilog2 q).
    { pose proof (mantissa_bounds f p ltac:(lia) Hp) as [_ M].
      rewrite Zle_Qle in M. rewrite pow2_Z in M by lia.
      assert (E : 2 ^ prec f * 2 ^ exponent f p <= 2 ^ ilog2 q).
      { rewrite <- pow2_plus. apply pow2_le. lia. }
      assert (X : inject_Z (rne (p / 2 ^ exponent f p)) * 2 ^ exponent f p
                  <= 2 ^ prec f * 2 ^ exponent f p)
        by (apply Qmult_le_compat_r; [exact M | lra]).
      lra. }
    lra.
Qed.

(** A number with a mantissa of at most [prec] bits and an exponent in
    range is not changed by rounding. *)
Lemma magnitude_repr_lt (f : Format) (a : Q) (M E : Z) :
  (1 <= prec f)%Z -> (0 < M < 2 ^ prec f)%Z -> (emin f <= E)%Z ->
  a == inject_Z M * 2 ^ E -> magnitude f a == a.
Proof.
  intros Hprec HM HE Ha.
  pose proof (pow2_pos E) as PE.
  assert (HM0 : 0 < inject_Z M) by (rewrite <- (Zlt_Qlt 0); lia).
  assert (Hpos : 0 < a) by (rewrite Ha; apply Qmult_lt_0_compat; assumption).
  destruct (ilog2_spec a Hpos) as [H1 _].
  assert (Hk : (ilog2 a < prec f + E)%Z).
  { apply pow2_lt_inv.
    assert (X : a < 2 ^ prec f * 2 ^ E).
    { rewrite Ha. apply Qmult_lt_compat_r; [exact PE|].
      rewrite <- pow2_Z by lia. rewrite <- Zlt_Qlt. lia. }
    rewrite pow2_plus. lra. }
  assert (He : (exponent f a <= E)%Z) by (unfold exponent; lia).
  unfold magnitude.
  set (e := exponent f a) in *.
  pose proof (pow2_pos e) as Pe.
  assert (Hs : a / 2 ^ e == inject_Z (M * 2 ^ (E - e))).
  { rewrite inject_Z_mult, pow2_Z by lia. rewrite Ha.
    rewrite <- pow2_div. field. lra. }
  rewrite (rne_comp _ _ Hs), rne_Z.
  rewrite inject_Z_mult, pow2_Z by lia. rewrite Ha.
  rewrite <- pow2_div. field. lra.
Qed.

Lemma magnitude_repr (f : Format) (a : Q) (M E : Z) :
  (1 <= prec f)%Z -> (0 < M <= 2 ^ prec f)%Z -> (emin f <= E)%Z ->
  a == inject_Z M * 2 ^ E -> magnitude f a == a.
Proof.
  intros Hprec HM HE Ha.
  destruct (Z.eq_dec M (2 ^ prec f)%Z) as [->|Hne].
  - apply (magnitude_repr_lt f a (2 ^ (prec f - 1))%Z (E + 1)%Z); [exact Hprec | | lia |].
    + split; [apply Z.pow_pos_nonneg; lia | apply Z.pow_lt_mono_r; lia].
    + rewrite Ha, !pow2_Z by lia. rewrite <- !pow2_plus.
      replace (prec f - 1 + (E + 1))%Z with (prec f + E)%Z by lia. reflexivity.
  - apply (magnitude_repr_lt f a M E); [exact Hprec | lia | exact HE | exact Ha].
Qed.

(** In the normal range the relative error of rounding is at most
    [2^-prec]. *)
Lemma magnitude_error (f : Format) (a : Q) :
  2 ^ (emin f + prec f - 1) <= a ->
  Qabs (magnitude f a - a) <= a * 2 ^ (- prec f).
Proof.
  intros Hn.
  assert (Hpos : 0 < a) by (pose proof (pow2_pos (emin f + prec f - 1)); lra).
  destruct (ilog2_spec a Hpos) as [H1 H2].
  assert (Hk : (emin f + prec f - 1 <= ilog2 a)%Z).
  { assert (X : (emin f + prec f - 1 < ilog2 a + 1)%Z) by (apply pow2_lt_inv; lra). lia. }
  assert (He : exponent f a = (ilog2 a - (prec f - 1))%Z) by (unfold exponent; lia).
  unfold magnitude. rewrite He. set (e := (ilog2 a - (prec f - 1))%Z).
  pose proof (pow2_pos e) as Pe.
  pose proof (rne_error (a / 2 ^ e)) as Hr.
  apply Qabs_Qle_condition in Hr. destruct Hr as [Hr1 Hr2].
  assert (X : a / 2 ^ e * 2 ^ e == a) by (field; lra).
  assert (Hb : 2 ^ e * (1 # 2) <= a * 2 ^ (- prec f)).
  { assert (Y : 2 ^ e * (1 # 2) == 2 ^ ilog2 a * 2 ^ (- prec f)).
    { rewrite <- pow2_plus. unfold e.
      replace (ilog2 a + - prec f)%Z with ((ilog2 a - (prec f - 1)) + -1)%Z by lia.
      rewrite pow2_plus. reflexivity. }
    rewrite Y. apply Qmult_le_compat_r; [exact H1|].
    apply Qlt_le_weak, pow2_pos. }
  apply Qabs_Qle_condition. split; nra.
Qed.

(** *** Rounding any rational *)

Lemma round_0 (f : Format) : round f 0 = 0.
Proof. reflexivity. Qed.

Lemma round_pos (f : Format) (q : Q) : 0 < q -> round f q = magnitude f q.
Proof. intros H. unfold round. apply (proj1 (Qgt_alt _ _)) in H. now rewrite H. Qed.

Lemma round_neg (f : Format) (q : Q) : q < 0 -> round f q = - magnitude f (- q).
Proof. intros H. unfold round. apply (proj1 (Qlt_alt _ _)) in H. now rewrite H. Qed.

Lemma round_zero (f : Format) (q : Q) : q == 0 -> round f q = 0.
Proof. intros H. unfold round. apply (proj1 (Qeq_alt _ _)) in H. now rewrite H. Qed.

Lemma round_comp (f : Format) (p q : Q) : p == q -> round f p = round f q.
Proof.
  intros H. destruct (Q_dec p 0) as [[Hn|Hp]|Hz].
  - rewrite !round_neg by lra. f_equal. apply magnitude_comp; [lra | now rewrite H].
  - rewrite !round_pos by lra. apply magnitude_comp; assumption.
  - rewrite !round_zero by lra. reflexivity.
Qed.

Lemma round_opp (f : Format) (q : Q) : round f (- q) == - round f q.
Proof.
  destruct (Q_dec q 0) as [[Hn|Hp]|Hz].
  - rewrite (round_pos f (- q)) by lra. rewrite (round_neg f q) by lra. ring.
  - rewrite (round_neg f (- q)) by lra. rewrite (round_pos f q) by lra.
    rewrite (magnitude_comp f (- - q) q) by (try lra; ring). reflexivity.
  - rewrite !round_zero by lra. reflexivity.
Qed.

Lemma round_le (f : Format) (p q : Q) :
  (1 <= prec f)%Z -> p <= q -> round f p <= round f q.
Proof.
  intros Hprec H.
  destruct (Q_dec p 0) as [[Hp|Hp]|Hp], (Q_dec q 0) as [[Hq|Hq]|Hq]; try lra.
  - rewrite !round_neg by assumption.
    pose proof (magnitude_le f (- q) (- p) Hprec ltac:(lra) ltac:(lra)). lra.
  - rewrite round_neg, round_pos by assumption.
    pose proof (magnitude_nonneg f (- p) ltac:(lia) ltac:(lra)).
    pose proof (magnitude_nonneg f q ltac:(lia) Hq). lra.
  - rewrite round_neg by assumption. rewrite (round_zero f q) by assumption.
    pose proof (magnitude_nonneg f (- p) ltac:(lia) ltac:(lra)). lra.
  - rewrite !round_pos by assumption. apply magnitude_le; assumption.
  - rewrite (round_zero f p) by assumption. rewrite round_pos by assumption.
    apply magnitude_nonneg; [lia | assumption].
  - rewrite !round_zero by assumption. lra.
Qed.

Lemma round_repr (f : Format) (q : Q) (M E : Z) :
  (1 <= prec f)%Z -> (Z.abs M <= 2 ^ prec f)%Z -> (emin f <= E)%Z ->
  q == inject_Z M * 2 ^ E -> round f q == q.
Proof.
  intros Hprec HM HE Hq. pose proof (pow2_pos E) as PE.
  destruct (Z.lt_trichotomy M 0) as [Hn|[Hz|Hp]].
  - assert (Hneg : q < 0).
    { rewrite Hq. assert (X : inject_Z M < 0) by (rewrite <- (Zlt_Qlt _ 0); lia). nra. }
    rewrite round_neg by exact Hneg.
    rewrite (magnitude_repr f (- q) (- M) E); [ring | exact Hprec | lia | exact HE |].
    rewrite Hq, inject_Z_opp. ring.
  - subst M. rewrite round_zero; [|rewrite Hq; change (inject_Z 0) with 0; ring].
    rewrite Hq. change (inject_Z 0) with 0. ring.
  - assert (Hpos : 0 < q).
    { rewrite Hq. assert (X : 0 < inject_Z M) by (rewrite <- (Zlt_Qlt 0); lia). nra. }
    rewrite round_pos by exact Hpos.
    apply (magnitude_repr f q M E); [exact Hprec | lia | exact HE | exact Hq].
Qed.

(** Every rounded value has a mantissa of at most [prec] bits. *)
Lemma round_form (f : Format) (q : Q) :
  (0 <= prec f)%Z ->
  exists M E : Z, (Z.abs M <= 2 ^ prec f)%Z /\ (emin f <= E)%Z /\
                  round f q == inject_Z M * 2 ^ E.
Proof.
  intros Hprec. destruct (Q_dec q 0) as [[Hn|Hp]|Hz].
  - exists (- rne (- q / 2 ^ exponent f (- q)))%Z, (exponent f (- q)).
    pose proof (mantissa_bounds f (- q) Hprec ltac:(lra)).
    split; [lia|]. split; [apply exponent_emin|].
    rewrite round_neg by exact Hn. unfold magnitude. rewrite inject_Z_opp. ring.
  - exists (rne (q / 2 ^ exponent f q)), (exponent f q).
    pose proof (mantissa_bounds f q Hprec Hp).
    split; [lia|]. split; [apply exponent_emin|].
    rewrite round_pos by exact Hp. reflexivity.
  - exists 0%Z, (emin f). split; [pose proof (Z.pow_nonneg 2 (prec f)); lia|].
    split; [lia|]. rewrite round_zero by exact Hz. change (inject_Z 0) with 0. ring.
Qed.

Lemma round_error (f : Format) (q : Q) :
  2 ^ (emin f + prec f - 1) <= Qabs q ->
  Qabs (round f q - q) <= Qabs q * 2 ^ (- prec f).
Proof.
  intros Hn. pose proof (pow2_pos (emin f + prec f - 1)) as P.
  destruct (Q_dec q 0) as [[Hq|Hq]|Hq].
  - rewrite (Qabs_neg q) in * by lra. rewrite round_neg by exact Hq.
    pose proof (magnitude_error f (- q) Hn) as H.
    apply Qabs_Qle_condition in H. apply Qabs_Qle_condition. split; lra.
  - rewrite (Qabs_pos q) in * by lra. rewrite round_pos by exact Hq.
    apply magnitude_error, Hn.
  - exfalso. rewrite Hq in Hn. change (Qabs 0) with 0 in Hn. lra.
Qed.


(** *** Values of a format, and the two formats of the program *)

Lemma double_prec : (1 <= prec double)%Z.
Proof. discriminate. Qed.

Lemma single_prec : (1 <= prec single)%Z.
Proof. discriminate. Qed.

(** An exact result between two values of the format is rounded to a
    finite value between them. *)
Lemma fl_between (f : Format) (q lo hi : Q) :
  (1 <= prec f)%Z -> represented f lo -> represented f hi -> lo <= q <= hi ->
  fl f q = Num (round f q) /\ lo <= round f q <= hi.
Proof.
  intros Hprec [Hlo Blo] [Hhi Bhi] [H1 H2].
  pose proof (round_le f lo q Hprec H1) as R1.
  pose proof (round_le f q hi Hprec H2) as R2.
  rewrite Hlo in R1. rewrite Hhi in R2.
  split; [|split; assumption].
  unfold fl. apply Qabs_Qle_condition in Blo, Bhi.
  assert (B : Qabs (round f q) <= largest f) by (apply Qabs_Qle_condition; lra).
  apply Qle_bool_iff in B. now rewrite B.
Qed.

Lemma represented_0 (f : Format) : (0 <= prec f)%Z -> (prec f <= emax f)%Z -> represented f 0.
Proof.
  intros Hp He. split; [reflexivity|]. change (Qabs 0) with 0. unfold largest.
  apply Qmult_le_0_compat; [|apply Qlt_le_weak, pow2_pos].
  rewrite <- (Zle_Qle 0). pose proof (Z.pow_pos_nonneg 2 (prec f)). lia.
Qed.

Lemma represented_opp (f : Format) (q : Q) : represented f q -> represented f (- q).
Proof.
  intros [H B]. split; [rewrite round_opp, H; reflexivity|].
  rewrite Qabs_opp. exact B.
Qed.

(** A float32 value is a binary64 value, and so is its product by a
    count of up to [2^29]. *)
Lemma represented_scale (q : Q) (k : Z) :
  represented single q -> (0 <= k <= 2 ^ 29)%Z ->
  represented double (inject_Z k * q).
Proof.
  intros [Hr Hb] Hk.
  destruct (round_form single q ltac:(discriminate)) as (M & E & HM & HE & Hq).
  rewrite Hr in Hq. split.
  - apply (round_repr double _ (k * M) E); [discriminate | | |].
    + rewrite Z.abs_mul, (Z.abs_eq k) by lia.
      change (2 ^ prec double)%Z with (2 ^ 29 * 2 ^ prec single)%Z.
      apply Z.mul_le_mono_nonneg; lia.
    + unfold emin in *. cbn [prec emax double single] in *. lia.
    + rewrite Hq, inject_Z_mult. ring.
  - rewrite Qabs_Qmult, (Qabs_pos (inject_Z k)) by (rewrite <- (Zle_Qle 0); lia).
    assert (K : inject_Z k <= inject_Z (2 ^ 29)) by (rewrite <- Zle_Qle; lia).
    assert (K0 : 0 <= inject_Z k) by (rewrite <- (Zle_Qle 0); lia).
    assert (L : inject_Z (2 ^ 29) * largest single <= largest double)
      by (vm_compute; discriminate).
    pose proof (Qabs_nonneg q) as A.
    assert (X : inject_Z k * Qabs q <= inject_Z (2 ^ 29) * largest single).
    { apply Qle_trans with (inject_Z (2 ^ 29) * Qabs q).
      - apply Qmult_le_compat_r; assumption.
      - apply Qmult_le_l; [reflexivity | exact Hb]. }
    lra.
Qed.

Lemma represented_single_double (q : Q) : represented single q -> represented double q.
Proof.
  intros H. pose proof (represented_scale q 1 H ltac:(lia)) as [R B].
  assert (E : inject_Z 1 * q == q) by (change (inject_Z 1) with 1; ring).
  split.
  - rewrite <- (round_comp double _ _ E). rewrite R. exact E.
  - rewrite <- E. exact B.
Qed.

(** The relative error of a binary64 operation, for a result that is
    zero or not below the normal range. *)
Lemma round_relative (q : Q) :
  0 <= q -> q == 0 \/ 2 ^ (-1022) <= q ->
  q * (1 - unit_roundoff) <= round double q <= q * (1 + unit_roundoff).
Proof.
  intros H0 [Hz|Hn].
  - rewrite (round_zero double q Hz). rewrite Hz. split; vm_compute; discriminate.
  - pose proof (round_error double q) as H.
    rewrite (Qabs_pos q) in H by exact H0.
    specialize (H Hn). apply Qabs_Qle_condition in H.
    change (2 ^ (- prec double)) with unit_roundoff in H.
    split; lra.
Qed.

End FloatFacts.

(** ** Resampler *)

Section ResamplerFacts.
Import JS Float Browser Resampler.
Local Open Scope Q_scope.

Lemma div_Num (p q : Q) : ~ q == 0 -> div (Num p) (Num q) = Num (p / q).
Proof.
  intros H. unfold div. destruct (Qeq_bool q 0) eqn:E; [|reflexivity].
  apply Qeq_bool_iff in E. contradiction.
Qed.

Lemma represented_Z (z : Z) : (Z.abs z <= 2 ^ 53)%Z -> represented double (inject_Z z).
Proof.
  intros H. split.
  - apply (round_repr double _ z 0); [discriminate | exact H | discriminate |].
    change (2 ^ 0) with 1. ring.
  - assert (E : Qabs (inject_Z z) == inject_Z (Z.abs z)).
    { unfold Qabs, inject_Z. cbn. reflexivity. }
    rewrite E. apply Qle_trans with (inject_Z (2 ^ 53)).
    + rewrite <- Zle_Qle. exact H.
    + vm_compute. discriminate.
Qed.

Lemma represented_low : represented double (1 # 1048576).
Proof. split; vm_compute; [reflexivity | discriminate]. Qed.

Lemma represented_margin : represented double (1048577 # 1048576).
Proof. split; vm_compute; [reflexivity | discriminate]. Qed.

Lemma represented_largest : represented single (largest single).
Proof. split; vm_compute; [reflexivity | discriminate]. Qed.

(** The ratio of the rates, when it lies between two binary64 values
    [lo >= 2^-20] and [hi]. *)
Lemma ratio_finite (inputSampleRate targetSampleRate lo hi : Q) :
  0 < targetSampleRate -> represented double lo -> represented double hi ->
  (1 # 1048576) <= lo ->
  targetSampleRate * lo <= inputSampleRate <= targetSampleRate * hi ->
  let r := inputSampleRate / targetSampleRate in
  fdiv (Num inputSampleRate) (Num targetSampleRate) = Num (ratio inputSampleRate targetSampleRate) /\
  lo <= ratio inputSampleRate targetSampleRate <= hi /\
  r * (1 - unit_roundoff) <= ratio inputSampleRate targetSampleRate <= r * (1 + unit_roundoff).
Proof.
  intros Hout Hlo Hhi Hl [H1 H2] r. unfold ratio. fold r.
  assert (Hr : lo <= r <= hi).
  { unfold r. split.
    - apply Qle_shift_div_l; [exact Hout | lra].
    - apply Qle_shift_div_r; [exact Hout | lra]. }
  unfold fdiv. rewrite div_Num by lra. cbn [binary64]. fold r.
  destruct (fl_between double r lo hi double_prec Hlo Hhi Hr) as [E B].
  split; [exact E|]. split; [exact B|].
  apply round_relative; [lra|]. right.
  apply Qle_trans with (1 # 1048576); [vm_compute; discriminate | lra].
Qed.


Lemma Math_round_nonneg (q : Q) : 0 <= q -> (0 <= Math_round q)%Z.
Proof.
  intros H. change 0%Z with (Math_round (inject_Z 0)) at 1.
  rewrite Math_round_Z. rewrite <- (Math_round_Z 0). apply Math_round_le. exact H.
Qed.

(** The quotient [length / ratio] is finite, with the relative error of
    one rounding. *)
Lemma quotient_relative (len : Z) (r : Q) :
  (1 # 1048576) <= r <= 1048576 -> (0 <= len <= 2 ^ 30)%Z ->
  fl double (inject_Z len / r) = Num (quotient len r) /\
  0 <= quotient len r <= inject_Z (2 ^ 50) /\
  inject_Z len / r * (1 - unit_roundoff) <= quotient len r
    <= inject_Z len / r * (1 + unit_roundoff).
Proof.
  intros [Hr1 Hr2] Hlen.
  assert (L0 : 0 <= inject_Z len) by (rewrite <- (Zle_Qle 0); lia).
  assert (L1 : inject_Z len <= inject_Z (2 ^ 30)) by (rewrite <- Zle_Qle; lia).
  change (inject_Z (2 ^ 30)) with 1073741824 in L1.
  assert (Hx : 0 <= inject_Z len / r <= inject_Z (2 ^ 50)).
  { change (inject_Z (2 ^ 50)) with 1125899906842624. split.
    - apply Qle_shift_div_l; lra.
    - apply Qle_shift_div_r; lra. }
  destruct (fl_between double (inject_Z len / r) 0 (inject_Z (2 ^ 50)) double_prec
              (represented_0 double ltac:(discriminate) ltac:(discriminate))
              (represented_Z (2 ^ 50) ltac:(discriminate)) Hx) as [E B].
  unfold quotient. split; [exact E|]. split; [exact B|].
  apply round_relative; [apply Hx|].
  destruct (Z.eq_dec len 0%Z) as [->|Hn].
  - left. change (inject_Z 0) with 0. field. lra.
  - right. assert (1 <= inject_Z len) by (rewrite <- (Zle_Qle 1); lia).
    apply Qle_shift_div_l; [lra|].
    assert (C : 2 ^ (-1022) * 1048576 <= 1) by (vm_compute; discriminate).
    apply Qle_trans with (2 ^ (-1022) * 1048576); [|lra].
    apply Qmult_le_l; [apply pow2_pos | exact Hr2].
Qed.

(** [Math.round(inputBuffer.length / sampleRateRatio)] for a ratio
    between [2^-20] and [2^20] and a block of up to [2^30] samples. *)
Lemma newLength_finite (inputBuffer : list number) (r : Q) :
  (1 # 1048576) <= r <= 1048576 ->
  (Z.of_nat (length inputBuffer) <= 2 ^ 30)%Z ->
  let len := Z.of_nat (length inputBuffer) in
  newLength inputBuffer (Num r) = Int (Math_round (quotient len r)) /\
  Float32Array_length (Int (Math_round (quotient len r))) = Some (Math_round (quotient len r)) /\
  (0 <= Math_round (quotient len r) <= 2 ^ 50)%Z.
Proof.
  intros Hr Hlen len. fold len in Hlen.
  destruct (quotient_relative len r Hr ltac:(lia)) as (E & B & _).
  assert (HL : (0 <= Math_round (quotient len r) <= 2 ^ 50)%Z).
  { split.
    - apply Math_round_nonneg, B.
    - rewrite <- (Math_round_Z (2 ^ 50)). apply Math_round_le, B. }
  unfold newLength, fdiv. rewrite div_Num by lra. cbn [binary64].
  fold len. rewrite E. cbn [Math_round_number].
  split; [reflexivity|]. split; [|exact HL].
  unfold Float32Array_length.
  destruct (Z.leb_spec 0 (Math_round (quotient len r))); [|lia].
  destruct (Z.leb_spec (Math_round (quotient len r)) (2 ^ 53 - 1)); [reflexivity|lia].
Qed.

Lemma offset_0 (r : Q) : offset r 0 = 0%Z.
Proof.
  unfold offset. rewrite (round_comp double _ 0) by (change (inject_Z 0) with 0; ring).
  rewrite round_0. reflexivity.
Qed.

(** [Math.round((offsetResult + 1) * sampleRateRatio)] *)
Lemma next_offset (r : Q) (j : Z) :
  0 <= r <= 1048576 -> (0 <= j <= 2 ^ 31)%Z ->
  Math_round_number (fmul (Num (inject_Z j)) (Num r)) = Int (offset r j).
Proof.
  intros [Hr1 Hr2] Hj.
  assert (J0 : 0 <= inject_Z j) by (rewrite <- (Zle_Qle 0); lia).
  assert (J1 : inject_Z j <= inject_Z (2 ^ 31)) by (rewrite <- Zle_Qle; lia).
  change (inject_Z (2 ^ 31)) with 2147483648 in J1.
  assert (Hx : 0 <= inject_Z j * r <= inject_Z (2 ^ 51)).
  { change (inject_Z (2 ^ 51)) with (2147483648 * 1048576). split.
    - apply Qmult_le_0_compat; assumption.
    - apply Qle_trans with (2147483648 * r).
      + apply Qmult_le_compat_r; assumption.
      + apply Qmult_le_l; [reflexivity | exact Hr2]. }
  destruct (fl_between double (inject_Z j * r) 0 (inject_Z (2 ^ 51)) double_prec
              (represented_0 double ltac:(discriminate) ltac:(discriminate))
              (represented_Z (2 ^ 51) ltac:(discriminate)) Hx) as [E _].
  unfold fmul. cbn [mul binary64]. rewrite E. reflexivity.
Qed.

Lemma offset_nonneg (r : Q) (j : Z) : 0 <= r -> (0 <= j)%Z -> (0 <= offset r j)%Z.
Proof.
  intros Hr Hj. unfold offset. apply Math_round_nonneg.
  rewrite <- (round_0 double). apply round_le; [discriminate|].
  apply Qmult_le_0_compat; [rewrite <- (Zle_Qle 0); lia | exact Hr].
Qed.

Lemma windows_length (steps : nat) (inputBuffer : list number) (sampleRateRatio : number)
    (offsetResult : Z) (offsetBuffer : integral) :
  length (windows steps inputBuffer sampleRateRatio offsetResult offsetBuffer) = steps.
Proof.
  revert offsetResult offsetBuffer.
  induction steps as [|steps IH]; intros; cbn [windows length]; [reflexivity|].
  now rewrite IH.
Qed.

(** The windows of the loop run between consecutive offsets. *)
Lemma windows_Forall (P : number * Z -> Prop) (inputBuffer : list number) (r : Q)
    (steps : nat) (j0 : Z) :
  0 <= r <= 1048576 -> (0 <= j0)%Z -> (j0 + Z.of_nat steps <= 2 ^ 31)%Z ->
  (forall j, (j0 <= j < j0 + Z.of_nat steps)%Z ->
             P (window inputBuffer (Int (offset r j)) (Int (offset r (j + 1))))) ->
  Forall P (windows steps inputBuffer (Num r) j0 (Int (offset r j0))).
Proof.
  intros Hr. revert j0.
  induction steps as [|steps IH]; intros j0 H0 H1 HP; cbn [windows]; [constructor|].
  rewrite next_offset by (try exact Hr; lia).
  constructor.
  - apply HP. lia.
  - apply IH; [lia | lia |]. intros j Hj. apply HP. lia.
Qed.

Lemma windows_In (inputBuffer : list number) (r : Q) (steps : nat) (j0 j : Z) :
  0 <= r <= 1048576 -> (0 <= j0)%Z -> (j0 + Z.of_nat steps <= 2 ^ 31)%Z ->
  (j0 <= j < j0 + Z.of_nat steps)%Z ->
  In (window inputBuffer (Int (offset r j)) (Int (offset r (j + 1))))
     (windows steps inputBuffer (Num r) j0 (Int (offset r j0))).
Proof.
  intros Hr. revert j0.
  induction steps as [|steps IH]; intros j0 H0 H1 Hj; [lia|].
  cbn [windows]. rewrite next_offset by (try exact Hr; lia).
  destruct (Z.eq_dec j j0) as [->|Hne].
  - left. reflexivity.
  - right. apply IH; lia.
Qed.

Lemma accumulate_count (steps : nat) (inputBuffer : list number)
    (i : Z) (accum : number) (count : Z) :
  snd (accumulate steps inputBuffer i accum count) = (count + Z.of_nat steps)%Z.
Proof.
  revert i accum count.
  induction steps as [|steps IH]; intros; cbn [accumulate].
  - cbn [snd]. lia.
  - rewrite IH. lia.
Qed.

(** The count of a window is the number of indices between its offsets
    that are inside the block. *)
Lemma window_count (inputBuffer : list number) (a b : Z) :
  snd (window inputBuffer (Int a) (Int b))
  = Z.max 0 (Z.min b (Z.of_nat (length inputBuffer)) - a).
Proof. unfold window. rewrite accumulate_count. lia. Qed.


Lemma read_In (inputBuffer : list number) (i : Z) :
  (0 <= i < Z.of_nat (length inputBuffer))%Z -> In (read inputBuffer i) inputBuffer.
Proof.
  intros H. unfold read.
  destruct (Z.ltb_spec i 0); [lia|].
  apply nth_In. lia.
Qed.

(** The accumulator of the inner loop stays between [count * lo] and
    [count * hi] when the samples are between the float32 values [lo]
    and [hi]: these products are binary64 values and rounding is
    monotone. *)
Lemma accumulate_between (lo hi : Q) (inputBuffer : list number) :
  represented single lo -> represented single hi ->
  (forall x, In x inputBuffer -> within lo hi x) ->
  forall (steps : nat) (i : Z) (a : Q) (count : Z),
    (0 <= i)%Z -> (i + Z.of_nat steps <= Z.of_nat (length inputBuffer))%Z ->
    (0 <= count)%Z -> (count + Z.of_nat steps <= 2 ^ 29)%Z ->
    inject_Z count * lo <= a <= inject_Z count * hi ->
    exists a',
      fst (accumulate steps inputBuffer i (Num a) count) = Num a' /\
      inject_Z (count + Z.of_nat steps) * lo <= a'
        <= inject_Z (count + Z.of_nat steps) * hi.
Proof.
  intros Hlo Hhi Hin.
  induction steps as [|steps IH]; intros i a count Hi Hn Hc Hs Ha.
  - exists a. split; [reflexivity|].
    rewrite Z.add_0_r. exact Ha.
  - cbn [accumulate].
    destruct (Hin _ (read_In inputBuffer i ltac:(lia))) as (q & -> & Hq).
    unfold fadd. cbn [add binary64].
    assert (Hsum : inject_Z (count + 1) * lo <= a + q <= inject_Z (count + 1) * hi).
    { rewrite inject_Z_plus. change (inject_Z 1) with 1. lra. }
    destruct (fl_between double (a + q) _ _ double_prec
                (represented_scale lo (count + 1) Hlo ltac:(lia))
                (represented_scale hi (count + 1) Hhi ltac:(lia)) Hsum) as [E B].
    rewrite E.
    destruct (IH (i + 1)%Z (round double (a + q)) (count + 1)%Z
                ltac:(lia) ltac:(lia) ltac:(lia) ltac:(lia) B) as (a' & Ea & Ba).
    exists a'. split; [exact Ea|].
    replace (count + Z.of_nat (S steps))%Z with (count + 1 + Z.of_nat steps)%Z by lia.
    exact Ba.
Qed.

(** The entry stored for a window that is not empty. *)
Lemma average_between (lo hi a : Q) (count : Z) :
  represented single lo -> represented single hi ->
  (1 <= count)%Z -> inject_Z count * lo <= a <= inject_Z count * hi ->
  within lo hi (average (Num a, count)).
Proof.
  intros Hlo Hhi Hc Ha.
  assert (C : 1 <= inject_Z count) by (rewrite <- (Zle_Qle 1); lia).
  unfold average. cbn [fst snd]. unfold fdiv.
  rewrite div_Num by lra. cbn [binary64].
  assert (Hq : lo <= a / inject_Z count <= hi).
  { split.
    - apply Qle_shift_div_l; lra.
    - apply Qle_shift_div_r; lra. }
  destruct (fl_between double _ lo hi double_prec
              (represented_single_double lo Hlo) (represented_single_double hi Hhi) Hq)
    as [E B].
  rewrite E. cbn [float32].
  destruct (fl_between single _ lo hi single_prec Hlo Hhi B) as [E' B'].
  rewrite E'. eexists. split; [reflexivity | exact B'].
Qed.

(** A window that holds at least one sample, all samples being between
    [lo] and [hi]. *)
Lemma window_between (lo hi : Q) (inputBuffer : list number) (a b : Z) :
  represented single lo -> represented single hi ->
  (forall x, In x inputBuffer -> within lo hi x) ->
  (Z.of_nat (length inputBuffer) <= 2 ^ 29)%Z ->
  (0 <= a)%Z -> (a < b)%Z -> (a < Z.of_nat (length inputBuffer))%Z ->
  within lo hi (average (window inputBuffer (Int a) (Int b))).
Proof.
  intros Hlo Hhi Hin Hlen Ha Hab Han.
  pose proof (window_count inputBuffer a b) as Hcount.
  unfold window in *.
  set (steps := Z.to_nat (Z.min b (Z.of_nat (length inputBuffer)) - a)) in *.
  destruct (accumulate_between lo hi inputBuffer Hlo Hhi Hin steps a 0 0%Z)
    as (a' & Ea & Ba); try lia.
  { change (inject_Z 0) with 0. lra. }
  destruct (accumulate steps inputBuffer a (Num 0) 0%Z) as [accum count].
  cbn [fst snd] in *. subst accum.
  apply average_between; [exact Hlo | exact Hhi | lia |].
  replace count with (0 + Z.of_nat steps)%Z by lia. exact Ba.
Qed.

(** *** The offsets of a downsampling run

    With a ratio of at least [1 + 2^-20] and a block of up to [2^29]
    samples the rounding of the products cannot close a window: the
    offsets increase strictly, and each window starts inside the
    block. *)

Lemma offset_step (r : Q) (j : Z) :
  (1048577 # 1048576) <= r <= 1048576 -> (0 <= j <= 2 ^ 29)%Z ->
  (offset r j + 1 <= offset r (j + 1))%Z.
Proof.
  intros [Hr1 Hr2] Hj. unfold offset.
  assert (J0 : 0 <= inject_Z j) by (rewrite <- (Zle_Qle 0); lia).
  assert (J1 : inject_Z j <= inject_Z (2 ^ 29)) by (rewrite <- Zle_Qle; lia).
  change (inject_Z (2 ^ 29)) with 536870912 in J1.
  assert (HB : 0 <= inject_Z j * r <= 536870912 * r).
  { split.
    - apply Qmult_le_0_compat; lra.
    - apply Qmult_le_compat_r; lra. }
  assert (HB' : inject_Z (j + 1) * r == inject_Z j * r + r).
  { rewrite inject_Z_plus. change (inject_Z 1) with 1. ring. }
  assert (C : 2 ^ (-1022) <= 1) by (vm_compute; discriminate).
  assert (R1 : round double (inject_Z j * r) <= inject_Z j * r * (1 + unit_roundoff)).
  { apply round_relative; [apply HB|].
    destruct (Z.eq_dec j 0%Z) as [->|Hn].
    - left. change (inject_Z 0) with 0. ring.
    - right. assert (1 <= inject_Z j) by (rewrite <- (Zle_Qle 1); lia).
      apply Qle_trans with (1 * r); [lra|].
      apply Qmult_le_compat_r; lra. }
  assert (R2 : inject_Z (j + 1) * r * (1 - unit_roundoff)
               <= round double (inject_Z (j + 1) * r)).
  { apply round_relative; [lra|]. right. lra. }
  rewrite <- Math_round_add_1. apply Math_round_le.
  unfold unit_roundoff in *. lra.
Qed.

Lemma offset_inside (r : Q) (len j : Z) :
  (1048577 # 1048576) <= r <= 1048576 -> (0 <= len <= 2 ^ 29)%Z ->
  (0 <= j < Math_round (quotient len r))%Z ->
  (offset r j < len)%Z /\ (j < 2 ^ 29)%Z.
Proof.
  intros [Hr1 Hr2] Hlen Hj.
  assert (J0 : 0 <= inject_Z j) by (rewrite <- (Zle_Qle 0); lia).
  assert (L0 : 0 <= inject_Z len) by (rewrite <- (Zle_Qle 0); lia).
  assert (L1 : inject_Z len <= inject_Z (2 ^ 29)) by (rewrite <- Zle_Qle; lia).
  change (inject_Z (2 ^ 29)) with 536870912 in L1.
  destruct (quotient_relative len r ltac:(lra) ltac:(lia)) as (_ & _ & _ & Q2).
  pose proof (Math_round_upper (quotient len r)) as U.
  assert (J1 : inject_Z (j + 1) <= inject_Z (Math_round (quotient len r)))
    by (rewrite <- Zle_Qle; lia).
  rewrite inject_Z_plus in J1. change (inject_Z 1) with 1 in J1.
  set (x := inject_Z len / r) in *.
  assert (Hxr : x * r == inject_Z len) by (unfold x; field; lra).
  assert (J2 : inject_Z j <= x * (1 + unit_roundoff) - (1 # 2)) by lra.
  assert (HB : inject_Z j * r <= inject_Z len * (1 + unit_roundoff) - r * (1 # 2)).
  { apply Qle_trans with ((x * (1 + unit_roundoff) - (1 # 2)) * r).
    - apply Qmult_le_compat_r; lra.
    - rewrite <- Hxr. ring_simplify. apply Qle_refl. }
  assert (HB0 : 0 <= inject_Z j * r) by (apply Qmult_le_0_compat; lra).
  assert (C : 2 ^ (-1022) <= 1) by (vm_compute; discriminate).
  assert (R1 : round double (inject_Z j * r) <= inject_Z j * r * (1 + unit_roundoff)).
  { apply round_relative; [exact HB0|].
    destruct (Z.eq_dec j 0%Z) as [->|Hn].
    - left. change (inject_Z 0) with 0. ring.
    - right. assert (1 <= inject_Z j) by (rewrite <- (Zle_Qle 1); lia).
      apply Qle_trans with (1 * r); [lra|].
      apply Qmult_le_compat_r; lra. }
  pose proof (Math_round_upper (round double (inject_Z j * r))) as U'.
  fold (offset r j) in U'.
  assert (Hx : x <= inject_Z len).
  { unfold x. apply Qle_shift_div_r; [lra|].
    apply Qle_trans with (inject_Z len * 1); [lra|].
    rewrite !(Qmult_comm (inject_Z len)). apply Qmult_le_compat_r; lra. }
  split.
  - rewrite Zlt_Qlt. unfold unit_roundoff in *. lra.
  - rewrite Zlt_Qlt. change (inject_Z (2 ^ 29)) with 536870912.
    unfold unit_roundoff in *. lra.
Qed.

End ResamplerFacts.

Section ResamplerRuns.
Import JS Float Browser Resampler.
Local Open Scope Q_scope.

Lemma rates_differ (inputSampleRate targetSampleRate : Q) :
  0 < targetSampleRate -> targetSampleRate * (1048577 # 1048576) <= inputSampleRate ->
  Qeq_bool inputSampleRate targetSampleRate = false.
Proof.
  intros H0 H1. destruct (Qeq_bool inputSampleRate targetSampleRate) eqn:E; [|reflexivity].
  apply Qeq_bool_iff in E. lra.
Qed.

(** A call past the two early returns, for rates whose ratio is between
    the binary64 values [lo >= 2^-20] and [hi <= 2^20] and a block of up
    to [2^30] samples: the array is created and the loop fills one entry
    for each window between consecutive offsets. *)
Lemma resample_windows_run (inputSampleRate targetSampleRate lo hi : Q)
    (inputBuffer : list number) :
  0 < targetSampleRate -> represented double lo -> represented double hi ->
  (1 # 1048576) <= lo -> hi <= 1048576 ->
  targetSampleRate * lo <= inputSampleRate <= targetSampleRate * hi ->
  (Z.of_nat (length inputBuffer) <= 2 ^ 30)%Z ->
  let r := ratio inputSampleRate targetSampleRate in
  let newLength := Math_round (quotient (Z.of_nat (length inputBuffer)) r) in
  resample_windows inputSampleRate inputBuffer targetSampleRate
  = Some (windows (Z.to_nat newLength) inputBuffer (Num r) 0 (Int (offset r 0))) /\
  lo <= r <= hi /\ (0 <= newLength <= 2 ^ 50)%Z.
Proof.
  intros Hout Hlo Hhi Hl Hh Hrates Hlen r L.
  destruct (ratio_finite inputSampleRate targetSampleRate lo hi Hout Hlo Hhi Hl Hrates)
    as (E & B & _). fold r in E, B.
  destruct (newLength_finite inputBuffer r ltac:(lra) Hlen) as (E1 & E2 & B1).
  fold L in E1, E2, B1.
  unfold resample_windows. rewrite E, E1, E2, offset_0.
  split; [reflexivity|]. split; assumption.
Qed.

(** Downsampling with a margin: every window of the run starts inside
    the block and ends after its start. *)
Lemma downsampling_Forall (P : number * Z -> Prop)
    (inputSampleRate targetSampleRate : Q) (inputBuffer : list number) :
  0 < targetSampleRate ->
  targetSampleRate * (1048577 # 1048576) <= inputSampleRate <= targetSampleRate * 1048576 ->
  (Z.of_nat (length inputBuffer) <= 2 ^ 29)%Z ->
  (forall a b, (0 <= a)%Z -> (a < b)%Z -> (a < Z.of_nat (length inputBuffer))%Z ->
               P (window inputBuffer (Int a) (Int b))) ->
  exists ws,
    resample_windows inputSampleRate inputBuffer targetSampleRate = Some ws /\
    Forall P ws.
Proof.
  intros Hout Hrates Hlen HP.
  destruct (resample_windows_run inputSampleRate targetSampleRate
              (1048577 # 1048576) 1048576 inputBuffer Hout represented_margin
              (represented_Z (2 ^ 20) ltac:(discriminate))
              ltac:(discriminate) ltac:(discriminate) Hrates ltac:(lia))
    as (E & Hr & HL).
  set (r := ratio inputSampleRate targetSampleRate) in *.
  set (L := Math_round (quotient (Z.of_nat (length inputBuffer)) r)) in *.
  assert (Hj : forall j, (0 <= j < L)%Z ->
                         (offset r j < Z.of_nat (length inputBuffer))%Z /\ (j < 2 ^ 29)%Z).
  { intros j Hj. apply offset_inside; [exact Hr | lia | exact Hj]. }
  assert (HL' : (L <= 2 ^ 29)%Z).
  { destruct (Z.le_gt_cases L (2 ^ 29)) as [|Hgt]; [assumption|].
    destruct (Hj (2 ^ 29)%Z ltac:(lia)). lia. }
  eexists. split; [exact E|].
  apply windows_Forall; [lra | lia | lia |].
  intros j Hjr. rewrite Z2Nat.id in Hjr by lia.
  destruct (Hj j ltac:(lia)) as [H1 H2].
  apply HP.
  - apply offset_nonneg; [lra | lia].
  - pose proof (offset_step r j Hr ltac:(lia)). lia.
  - exact H1.
Qed.

(** Samples between two float32 values are resampled to entries between
    the same values. *)
Lemma resample_windows_between (lo hi : Q)
    (inputSampleRate targetSampleRate : Q) (inputBuffer : list number) :
  represented single lo -> represented single hi ->
  (forall x, In x inputBuffer -> within lo hi x) ->
  0 < targetSampleRate ->
  targetSampleRate * (1048577 # 1048576) <= inputSampleRate <= targetSampleRate * 1048576 ->
  (Z.of_nat (length inputBuffer) <= 2 ^ 29)%Z ->
  exists ws,
    resample_windows inputSampleRate inputBuffer targetSampleRate = Some ws /\
    Forall (within lo hi) (map average ws).
Proof.
  intros Hlo Hhi Hin Hout Hrates Hlen.
  destruct (downsampling_Forall (fun w => within lo hi (average w))
              inputSampleRate targetSampleRate inputBuffer Hout Hrates Hlen)
    as (ws & E & H).
  - intros a b Ha Hab Han. apply window_between; assumption.
  - exists ws. split; [exact E|]. apply Forall_map. exact H.
Qed.

(** The result of [resampleBuffer] when the rates are equal or the input
    rate is higher by the margin. *)
Lemma resampleBuffer_between (lo hi : Q) (ctx : AudioContext)
    (inputBuffer : list number) (targetSampleRate : Q) :
  represented single lo -> represented single hi ->
  (forall x, In x inputBuffer -> within lo hi x) ->
  0 < targetSampleRate ->
  sampleRate ctx == targetSampleRate \/
  targetSampleRate * (1048577 # 1048576) <= sampleRate ctx <= targetSampleRate * 1048576 ->
  (Z.of_nat (length inputBuffer) <= 2 ^ 29)%Z ->
  exists output,
    resampleBuffer (Some ctx) inputBuffer targetSampleRate = Some output /\
    Forall (within lo hi) output.
Proof.
  intros Hlo Hhi Hin Hout [Heq|Hrates] Hlen; unfold resampleBuffer.
  - apply Qeq_bool_iff in Heq. rewrite Heq.
    exists inputBuffer. split; [reflexivity|].
    apply Forall_forall. intros x Hx. apply Hin, list_elem_of_In, Hx.
  - rewrite rates_differ by (try exact Hout; apply Hrates).
    destruct (resample_windows_between lo hi (sampleRate ctx) targetSampleRate inputBuffer
                Hlo Hhi Hin Hout Hrates Hlen) as (ws & -> & H).
    eexists. split; [reflexivity | exact H].
Qed.

(** The length of the result in terms of the exact quotient of the
    rates: the two roundings move the quotient by less than [2^-51] of
    its value. *)
Lemma quotient_exact (inputSampleRate targetSampleRate : Q) (len : Z) :
  0 < targetSampleRate ->
  targetSampleRate * (1 # 1048576) <= inputSampleRate <= targetSampleRate * 1048576 ->
  (0 <= len <= 2 ^ 30)%Z ->
  let exact := inject_Z len * targetSampleRate / inputSampleRate in
  let q := quotient len (ratio inputSampleRate targetSampleRate) in
  exact * (1 - (1 # 2251799813685248)) <= q <= exact * (1 + (1 # 2251799813685248)).
Proof.
  intros Hout Hrates Hlen X q.
  destruct (ratio_finite inputSampleRate targetSampleRate (1 # 1048576) 1048576 Hout
              represented_low (represented_Z (2 ^ 20) ltac:(discriminate))
              ltac:(discriminate) Hrates) as (_ & Hr & R1 & R2).
  set (r := ratio inputSampleRate targetSampleRate) in *.
  destruct (quotient_relative len r Hr Hlen) as (_ & _ & Q1 & Q2). fold q in Q1, Q2.
  set (x := inject_Z len / r) in *.
  set (rho := inputSampleRate / targetSampleRate) in *.
  assert (Hin : 0 < inputSampleRate) by (destruct Hrates; nra).
  assert (Hrho : 0 < rho) by (unfold rho; apply Qlt_shift_div_l; lra).
  assert (L0 : 0 <= inject_Z len) by (rewrite <- (Zle_Qle 0); lia).
  assert (Hx0 : 0 <= x) by (unfold x; apply Qle_shift_div_l; lra).
  assert (HX0 : 0 <= X).
  { unfold X. apply Qle_shift_div_l; [lra|]. rewrite Qmult_0_l.
    apply Qmult_le_0_compat; lra. }
  assert (Hxr : x * r == inject_Z len) by (unfold x; field; lra).
  assert (HXr : X * rho == inject_Z len) by (unfold X, rho; field; split; lra).
  assert (A1 : x * (rho * (1 - unit_roundoff)) <= x * r).
  { rewrite !(Qmult_comm x). apply Qmult_le_compat_r; lra. }
  assert (A2 : x * r <= x * (rho * (1 + unit_roundoff))).
  { rewrite !(Qmult_comm x). apply Qmult_le_compat_r; lra. }
  assert (B1 : x * (1 - unit_roundoff) <= X).
  { apply (proj1 (Qmult_le_r _ _ rho Hrho)).
    rewrite HXr, <- Hxr.
    assert (E : x * (1 - unit_roundoff) * rho == x * (rho * (1 - unit_roundoff))) by ring.
    rewrite E. exact A1. }
  assert (B2 : X <= x * (1 + unit_roundoff)).
  { apply (proj1 (Qmult_le_r _ _ rho Hrho)).
    rewrite HXr, <- Hxr.
    assert (E : x * (1 + unit_roundoff) * rho == x * (rho * (1 + unit_roundoff))) by ring.
    rewrite E. exact A2. }
  unfold unit_roundoff in *. split; lra.
Qed.

End ResamplerRuns.

Section ResamplerClaims.
Import JS Float Browser Resampler.
Local Open Scope Q_scope.

Lemma ratio_equal (inputSampleRate targetSampleRate : Q) :
  0 < targetSampleRate -> inputSampleRate == targetSampleRate ->
  ratio inputSampleRate targetSampleRate == 1.
Proof.
  intros H0 H. unfold ratio.
  rewrite (round_comp double _ (inject_Z 1)) by (rewrite H; change (inject_Z 1) with 1; field; lra).
  apply (represented_Z 1). discriminate.
Qed.

Lemma quotient_1 (len : Z) (r : Q) :
  (0 <= len <= 2 ^ 30)%Z -> r == 1 -> Math_round (quotient len r) = len.
Proof.
  intros Hlen Hr. unfold quotient.
  rewrite (round_comp double _ (inject_Z len)) by (rewrite Hr; field).
  rewrite (Math_round_comp _ (inject_Z len)) by (apply (represented_Z len); lia).
  apply Math_round_Z.
Qed.

Lemma quotient_0 (r : Q) : Math_round (quotient 0 r) = 0%Z.
Proof.
  unfold quotient. rewrite (round_zero double).
  - reflexivity.
  - change (inject_Z 0) with 0. unfold Qdiv. ring.
Qed.

(** The block [resampleBuffer] returns for rates whose ratio is between
    [2^-20] and [2^20]: its length, as computed and against the exact
    quotient. *)
Lemma resampleBuffer_entries
    (ctx : AudioContext) (inputBuffer : list number) (targetSampleRate : Q) :
  0 < targetSampleRate ->
  targetSampleRate * (1 # 1048576) <= sampleRate ctx <= targetSampleRate * 1048576 ->
  (Z.of_nat (length inputBuffer) <= 2 ^ 30)%Z ->
  exists output : list number,
    resampleBuffer (Some ctx) inputBuffer targetSampleRate = Some output /\
    Z.of_nat (length output)
    = Math_round (quotient (Z.of_nat (length inputBuffer))
                    (ratio (sampleRate ctx) targetSampleRate)) /\
    (Math_round (inject_Z (Z.of_nat (length inputBuffer)) * targetSampleRate / sampleRate ctx
                 * (1 - (1 # 2251799813685248)))
     <= Z.of_nat (length output)
     <= Math_round (inject_Z (Z.of_nat (length inputBuffer)) * targetSampleRate / sampleRate ctx
                    * (1 + (1 # 2251799813685248))))%Z.
Proof.
  intros Hout Hrates Hlen.
  set (len := Z.of_nat (length inputBuffer)) in *.
  set (r := ratio (sampleRate ctx) targetSampleRate).
  assert (Hrun : exists output : list number,
             resampleBuffer (Some ctx) inputBuffer targetSampleRate = Some output /\
             Z.of_nat (length output) = Math_round (quotient len r)).
  { unfold resampleBuffer.
    destruct (Qeq_bool (sampleRate ctx) targetSampleRate) eqn:E.
    - apply Qeq_bool_iff in E. exists inputBuffer. split; [reflexivity|].
      fold len. symmetry. apply quotient_1; [lia|].
      apply ratio_equal; assumption.
    - destruct (resample_windows_run (sampleRate ctx) targetSampleRate
                  (1 # 1048576) 1048576 inputBuffer Hout represented_low
                  (represented_Z (2 ^ 20) ltac:(discriminate))
                  ltac:(discriminate) ltac:(discriminate) Hrates Hlen)
        as (Ews & _ & HL).
      rewrite Ews. eexists. split; [reflexivity|].
      rewrite length_map, windows_length. apply Z2Nat.id. apply HL. }
  destruct Hrun as (output & E & HL).
  exists output. split; [exact E|]. split; [exact HL|].
  rewrite HL.
  destruct (quotient_exact (sampleRate ctx) targetSampleRate len Hout Hrates ltac:(lia))
    as [Q1 Q2].
  split; apply Math_round_le; assumption.
Qed.

(** C7 (as amended). For positive rates whose ratio is between [2^-20]
    and [2^20] and a block of up to [2^30] samples, [resampleBuffer]
    returns a block, and its length is [Math.round] of the binary64
    quotient [len / (Rin / Rout)], both divisions rounded. That quotient
    is within [2^-51] of its value from [len * Rout / Rin], so the
    length lies between [round(len * Rout / Rin * (1 - 2^-51))] and
    [round(len * Rout / Rin * (1 + 2^-51))]: it is
    [round(len * Rout / Rin)] wherever these two agree. An empty block
    gives an empty block. *)
Theorem resampleBuffer_length
    (ctx : AudioContext) (inputBuffer : list number) (targetSampleRate : Q) :
  0 < targetSampleRate ->
  targetSampleRate * (1 # 1048576) <= sampleRate ctx <= targetSampleRate * 1048576 ->
  (Z.of_nat (length inputBuffer) <= 2 ^ 30)%Z ->
  exists output : list number,
    resampleBuffer (Some ctx) inputBuffer targetSampleRate = Some output /\
    Z.of_nat (length output)
    = Math_round (quotient (Z.of_nat (length inputBuffer))
                    (ratio (sampleRate ctx) targetSampleRate)) /\
    (Math_round (inject_Z (Z.of_nat (length inputBuffer)) * targetSampleRate / sampleRate ctx
                 * (1 - (1 # 2251799813685248)))
     <= Z.of_nat (length output)
     <= Math_round (inject_Z (Z.of_nat (length inputBuffer)) * targetSampleRate / sampleRate ctx
                    * (1 + (1 # 2251799813685248))))%Z /\
    (inputBuffer = [] -> output = []).
Proof.
  intros Hout Hrates Hlen.
  destruct (resampleBuffer_entries ctx inputBuffer targetSampleRate Hout Hrates Hlen)
    as (output & E & HL & Hbounds).
  exists output. split; [exact E|]. split; [exact HL|]. split; [exact Hbounds|].
  intros Hnil. subst inputBuffer. cbn [length Z.of_nat] in HL.
  rewrite quotient_0 in HL.
  destruct output; [reflexivity | discriminate HL].
Qed.

(** C7 on a capture callback of 4096 samples at 48000 Hz, resampled to
    16000 Hz: 1365 samples. *)
Lemma resampleBuffer_length_witness :
  exists output : list number,
    resampleBuffer (Some {| sampleRate := 48000 # 1; state := running |})
      (repeat (Num 0) 4096) (16000 # 1) = Some output /\
    Z.of_nat (length output) = 1365%Z.
Proof.
  destruct (resampleBuffer_length {| sampleRate := 48000 # 1; state := running |}
              (repeat (Num 0) 4096) (16000 # 1)) as (output & E & _ & [H1 H2] & _).
  - reflexivity.
  - cbn [sampleRate]. split; discriminate.
  - rewrite repeat_length. discriminate.
  - exists output. split; [exact E|].
    rewrite repeat_length in H1, H2. cbn [sampleRate] in H1, H2.
    vm_compute in H1. vm_compute in H2.
    apply Z.le_antisymm; assumption.
Defined.

(** C7 as stated fails where [len * Rout / Rin] is one half above an
    integer and the binary64 ratio is above the exact one: 240 samples at
    12000 Hz resampled to 11025 Hz give 220 entries, and
    [round(240 * 11025 / 12000) = round(220.5) = 221]. *)
Lemma resampleBuffer_length_rounded :
  option_map (@length number)
    (resampleBuffer (Some {| sampleRate := 12000 # 1; state := running |})
       (repeat (Num 0) 240) (11025 # 1)) = Some 220%nat /\
  Math_round (inject_Z (Z.of_nat 240) * (11025 # 1) / (12000 # 1)) = 221%Z.
Proof. split; vm_compute; reflexivity. Qed.

(** C8 (as amended). A block of up to [2^29] samples that all equal the
    float32 value [c] is resampled to a block whose entries all equal
    [c], when the rates are equal (the block is returned as it is) and
    when the rate of the audio context is above the positive target rate
    by a factor between [1 + 2^-20] and [2^20]: every window then holds
    at least one sample, its sum [count * c] is exact in binary64, and
    the quotient is [c]. *)
Theorem resampleBuffer_constant
    (ctx : AudioContext) (inputBuffer : list number) (c : Q) (targetSampleRate : Q) :
  (forall x, In x inputBuffer -> x = Num c) ->
  represented single c ->
  (Z.of_nat (length inputBuffer) <= 2 ^ 29)%Z ->
  0 < targetSampleRate ->
  sampleRate ctx == targetSampleRate \/
  targetSampleRate * (1048577 # 1048576) <= sampleRate ctx <= targetSampleRate * 1048576 ->
  exists output : list number,
    resampleBuffer (Some ctx) inputBuffer targetSampleRate = Some output /\
    Forall (fun y => number_eq y (Num c)) output.
Proof.
  intros Hc Hrep Hlen Hout Hrates.
  destruct (resampleBuffer_between c c ctx inputBuffer targetSampleRate Hrep Hrep)
    as (output & E & H); try assumption.
  - intros x Hx. exists c. split; [apply Hc, Hx | lra].
  - exists output. split; [exact E|].
    apply (Forall_impl _ _ _ H). intros y (q & -> & Hq).
    cbn [number_eq]. lra.
Qed.

(** C8 on four samples 1/2 at 48000 Hz, resampled to 24000 Hz. *)
Lemma resampleBuffer_constant_witness :
  exists output : list number,
    resampleBuffer (Some {| sampleRate := 48000 # 1; state := running |})
      (repeat (Num (1 # 2)) 4) (24000 # 1) = Some output /\
    Forall (fun y => number_eq y (Num (1 # 2))) output.
Proof.
  apply resampleBuffer_constant.
  - intros x Hx. apply repeat_spec in Hx. exact Hx.
  - split; vm_compute; [reflexivity | discriminate].
  - discriminate.
  - reflexivity.
  - right. cbn [sampleRate]. split; discriminate.
Defined.

(** C8 as stated fails for a target rate above the input rate. One
    sample 1/2 at 8000 Hz resampled to 16000 Hz: the ratio is 1/2, the
    block gets [round(1 / (1/2)) = 2] entries, the second window runs
    from [round(1/2) = 1] to [round(1) = 1] and is empty, and its entry is
    [0 / 0], not 1/2. Every operation of this run is exact. *)
Lemma resampleBuffer_constant_upsampling :
  (0 < (8000 # 1) /\ 0 < (16000 # 1)) /\
  represented single (1 # 2) /\
  (exists y : number,
      resampleBuffer (Some {| sampleRate := 8000 # 1; state := running |})
        [Num (1 # 2)] (16000 # 1) = Some [y; NaN] /\ number_eq y (Num (1 # 2))) /\
  ~ number_eq NaN (Num (1 # 2)).
Proof.
  split; [split; reflexivity|].
  split; [split; vm_compute; [reflexivity | discriminate]|].
  split.
  - eexists. split; [vm_compute; reflexivity|]. vm_compute. reflexivity.
  - intros H. exact H.
Qed.

(** C10 (as amended). When the rate of the audio context is above a
    positive target rate by a factor between [1 + 2^-20] and [2^20] and
    the block has up to [2^29] samples, the array is created and every
    window of the averaging loop holds at least one sample of the block,
    so no entry is [0 / 0]: a block of finite float32 samples is
    resampled to a block of finite entries. With a target rate above the
    input rate a window can be empty: one sample at 8000 Hz resampled to
    16000 Hz has an empty second window. *)
Theorem downsampling_windows_nonempty
    (ctx : AudioContext) (inputBuffer : list number) (targetSampleRate : Q) :
  0 < targetSampleRate ->
  targetSampleRate * (1048577 # 1048576) <= sampleRate ctx <= targetSampleRate * 1048576 ->
  (Z.of_nat (length inputBuffer) <= 2 ^ 29)%Z ->
  (exists ws : list (number * Z),
      resample_windows (sampleRate ctx) inputBuffer targetSampleRate = Some ws /\
      Forall (fun w => (1 <= snd w)%Z) ws) /\
  ((forall x, In x inputBuffer -> isFinite x = true /\ float32_value x) ->
   exists output : list number,
     resampleBuffer (Some ctx) inputBuffer targetSampleRate = Some output /\
     Forall (fun y => isFinite y = true) output) /\
  (exists (ws : list (number * Z)) (w : number * Z),
      resample_windows (8000 # 1) [Num (1 # 2)] (16000 # 1) = Some ws /\
      In w ws /\ snd w = 0%Z).
Proof.
  intros Hout Hrates Hlen. split; [|split].
  - apply downsampling_Forall; try assumption.
    intros a b Ha Hab Han. rewrite window_count. lia.
  - intros Hfin.
    destruct (resampleBuffer_between (- largest single) (largest single) ctx inputBuffer
                targetSampleRate (represented_opp _ _ represented_largest)
                represented_largest) as (output & E & H); try assumption.
    + intros x Hx. destruct (Hfin x Hx) as [Hf Hv].
      destruct x as [q| |]; try discriminate Hf.
      exists q. split; [reflexivity|].
      destruct Hv as [_ Hv]. apply Qabs_Qle_condition in Hv. exact Hv.
    + right. exact Hrates.
    + exists output. split; [exact E|].
      apply (Forall_impl _ _ _ H). intros y (q & -> & _). reflexivity.
  - eexists. exists (Num 0, 0%Z).
    split; [vm_compute; reflexivity|].
    split; [right; left; reflexivity | reflexivity].
Qed.

(** C10 on seven samples at 48000 Hz resampled to 16000 Hz. *)
Lemma downsampling_windows_nonempty_witness :
  exists ws : list (number * Z),
    resample_windows (48000 # 1) (repeat (Num (1 # 2)) 7) (16000 # 1) = Some ws /\
    Forall (fun w => (1 <= snd w)%Z) ws.
Proof.
  apply (downsampling_windows_nonempty
           {| sampleRate := 48000 # 1; state := running |}
           (repeat (Num (1 # 2)) 7) (16000 # 1)).
  - reflexivity.
  - cbn [sampleRate]. split; discriminate.
  - discriminate.
Defined.

(** A block of 548864033 samples at 16000 + 1/1024 Hz, a float32 rate,
    resampled to 16000 Hz: the array gets 548864000 entries, and the
    binary64 product [548863999 * ratio] is 548864032.5, above the exact
    product, which [Math.round] takes to 548864033, the length of the
    block. The last window starts at the end of the block and is
    empty. *)
Lemma long_block_windows (inputBuffer : list number) :
  Z.of_nat (length inputBuffer) = 548864033%Z ->
  exists ws : list (number * Z),
    resample_windows (16384001 # 1024) inputBuffer (16000 # 1) = Some ws /\
    In (Num 0, 0%Z) ws.
Proof.
  intros Hlen.
  destruct (resample_windows_run (16384001 # 1024) (16000 # 1) (inject_Z 1) (inject_Z 2)
              inputBuffer) as (E & Hr & _).
  - reflexivity.
  - apply represented_Z. discriminate.
  - apply represented_Z. discriminate.
  - discriminate.
  - discriminate.
  - split; discriminate.
  - rewrite Hlen. discriminate.
  - rewrite Hlen in E.
    set (r := ratio (16384001 # 1024) (16000 # 1)) in *.
    assert (EL : Math_round (quotient 548864033 r) = 548864000%Z)
      by (vm_compute; reflexivity).
    rewrite EL in E.
    eexists. split; [exact E|].
    pose proof (windows_In inputBuffer r (Z.to_nat 548864000) 0 548863999) as H.
    assert (Ea : offset r 548863999 = 548864033%Z) by (vm_compute; reflexivity).
    assert (Eb : offset r (548863999 + 1) = 548864034%Z) by (vm_compute; reflexivity).
    rewrite Ea, Eb in H.
    assert (Ew : window inputBuffer (Int 548864033) (Int 548864034) = (Num 0, 0%Z)).
    { unfold window. rewrite Hlen.
      replace (Z.min 548864034 548864033 - 548864033)%Z with 0%Z by lia.
      reflexivity. }
    rewrite Ew in H. apply H.
    + change (inject_Z 1) with 1 in Hr. change (inject_Z 2) with 2 in Hr. lra.
    + lia.
    + rewrite Z2Nat.id by lia. lia.
    + rewrite Z2Nat.id by lia. lia.
Qed.

(** C10 as stated fails for a long block and rates that are close: a
    block of 548864033 samples at the rate of 16000 + 1/1024 Hz
    resampled to 16000 Hz has an empty window, whose entry is [0 / 0]. *)
Lemma downsampling_window_empty :
  (16000 # 1) < (16384001 # 1024) /\
  repeat (Num 0) (Z.to_nat 548864033) <> [] /\
  (exists ws : list (number * Z),
      resample_windows (16384001 # 1024) (repeat (Num 0) (Z.to_nat 548864033)) (16000 # 1)
      = Some ws /\
      In (Num 0, 0%Z) ws) /\
  average (Num 0, 0%Z) = NaN.
Proof.
  split; [reflexivity|]. split; [|split].
  - intros H. apply (f_equal (@length number)) in H.
    rewrite repeat_length in H. cbn [length] in H. lia.
  - apply long_block_windows. rewrite repeat_length. apply Z2Nat.id. lia.
  - reflexivity.
Qed.

End ResamplerClaims.

(** ** White space *)

Section Trim.
Import JS.

Lemma trimEnd_empty (s : string) :
  trimEnd s = EmptyString <-> forallb isWhiteSpace (list_ascii_of_string s) = true.
Proof.
  induction s as [|c s IH]; simpl.
  - tauto.
  - destruct (trimEnd s) eqn:E.
    + destruct (isWhiteSpace c); simpl.
      * split; intros _; [apply IH|]; reflexivity.
      * split; discriminate.
    + split; [discriminate|].
      intros H. apply andb_true_iff in H as [_ H].
      apply IH in H. discriminate.
Qed.

Lemma trimStart_blank (s : string) :
  forallb isWhiteSpace (list_ascii_of_string (trimStart s))
  = forallb isWhiteSpace (list_ascii_of_string s).
Proof.
  induction s as [|c s IH]; simpl; [reflexivity|].
  destruct (isWhiteSpace c) eqn:E; simpl; [exact IH|].
  now rewrite E.
Qed.

(** A string trims to the empty string exactly when it holds white space
    only. *)
Lemma blank_spec (s : string) :
  blank s = true <-> forallb isWhiteSpace (list_ascii_of_string s) = true.
Proof.
  unfold blank, trim. rewrite <- trimStart_blank, <- trimEnd_empty.
  destruct (trimEnd (trimStart s)); simpl; split; congruence.
Qed.

End Trim.

(** ** Transcription line buffer, delay model *)

Section DelayFacts.
Import JS Browser Page Delay.

Lemma wf_initial : wf initial.
Proof.
  split.
  - intros h tm H. cbn in H. rewrite lookup_empty in H. discriminate.
  - intros h H. discriminate.
Qed.

(** At most one timeout is pending. *)
Lemma wf_timers (s : App) :
  wf s ->
  timers s = ∅ \/
  exists h tm, timers s = {[h := tm]} /\
               localTranscriptionTimer s = Some h /\
               lineToTranslate tm = localTranscriptionBuffer s /\
               due tm <= now s + Z.max 0 (translationDelay s).
Proof.
  intros [Hp _].
  destruct (localTranscriptionTimer s) as [h|] eqn:Ev.
  - destruct (timers s !! h) as [tm|] eqn:Eh.
    + right. exists h, tm.
      destruct (Hp h tm Eh) as (_ & Hl & Hd).
      split; [|auto].
      apply map_eq. intros k.
      destruct (decide (k = h)) as [->|Hne].
      * rewrite lookup_singleton_eq. exact Eh.
      * rewrite lookup_singleton_ne by congruence.
        destruct (timers s !! k) as [tm'|] eqn:Ek; [|reflexivity].
        destruct (Hp k tm' Ek) as (Hk & _). congruence.
    + left. apply map_eq. intros k. rewrite lookup_empty.
      destruct (timers s !! k) as [tm'|] eqn:Ek; [|reflexivity].
      destruct (Hp k tm' Ek) as (Hk & _). congruence.
  - left. apply map_eq. intros k. rewrite lookup_empty.
    destruct (timers s !! k) as [tm'|] eqn:Ek; [|reflexivity].
    destruct (Hp k tm' Ek) as (Hk & _). congruence.
Qed.

Lemma clearTimeout_held (s : App) :
  wf s -> clearTimeout (localTranscriptionTimer s) (timers s) = ∅.
Proof.
  intros Hwf. destruct (wf_timers s Hwf) as [He | (h & tm & He & Hv & _)].
  - rewrite He. destruct (localTranscriptionTimer s); [apply delete_empty | reflexivity].
  - rewrite He, Hv. cbn [clearTimeout]. apply delete_singleton_eq.
Qed.

Lemma next_due_empty (t : Z) : next_due t ∅ = None.
Proof. unfold next_due. rewrite map_to_list_empty. reflexivity. Qed.

Lemma next_due_singleton (t : Z) (h : positive) (tm : Timer) :
  next_due t {[h := tm]} = if due tm <=? t then Some (h, tm) else None.
Proof. unfold next_due. rewrite map_to_list_singleton. reflexivity. Qed.

End DelayFacts.

Section DelaySteps.
Import JS Browser Page Delay.

(** What [handleLocalTranscription] does with a fragment it does not drop. *)
Lemma handle_accepted (s : App) (text : string) :
  wf s -> dropped text s = false ->
  let s' := handleLocalTranscription text s in
  localTranscriptionBuffer s' = localTranscriptionBuffer s +:+ text /\
  timers s' = {[nextTimer s :=
                  {| due := now s + Z.max 0 (translationDelay s);
                     lineToTranslate := localTranscriptionBuffer s +:+ text |}]} /\
  localTranscriptionTimer s' = Some (nextTimer s) /\
  dataConnection s' = send_if_open (transcription text) (dataConnection s) /\
  panel s' = panel s /\
  now s' = now s /\
  translationDelay s' = translationDelay s /\
  wf s'.
Proof.
  intros Hwf Hd s'. subst s'. unfold handleLocalTranscription. rewrite Hd.
  cbn [localTranscriptionBuffer timers localTranscriptionTimer dataConnection
       panel now translationDelay].
  rewrite clearTimeout_held by exact Hwf. rewrite insert_empty.
  repeat (split; [reflexivity|]).
  split.
  - intros h tm H.
    cbn [timers localTranscriptionTimer localTranscriptionBuffer now translationDelay] in *.
    apply lookup_singleton_Some in H as [<- <-].
    cbn [lineToTranslate due]. repeat split; lia.
  - intros h H. cbn [localTranscriptionTimer nextTimer] in *.
    injection H as <-. lia.
Qed.

(** A dropped fragment changes nothing. *)
Lemma handle_dropped (s : App) (text : string) :
  dropped text s = true -> handleLocalTranscription text s = s.
Proof. intros Hd. unfold handleLocalTranscription. now rewrite Hd. Qed.

Lemma wf_set_now (s : App) (t : Z) : wf s -> now s <= t -> wf (set_now t s).
Proof.
  intros [Hp Hv] Ht. split.
  - intros h tm H. cbn in *. destruct (Hp h tm H) as (? & ? & ?).
    repeat split; [assumption | assumption | lia].
  - exact Hv.
Qed.

(** Time passes and the pending timeout, if any, is not yet due. *)
Lemma advance_idle (s : App) (t : Z) :
  wf s ->
  (forall h tm, timers s !! h = Some tm -> t < due tm) ->
  advance t s = set_now (Z.max (now s) t) s.
Proof.
  intros Hwf Hlate. unfold advance.
  destruct (wf_timers s Hwf) as [He | (h & tm & He & _)].
  - rewrite He, map_size_empty. reflexivity.
  - rewrite He, map_size_singleton. cbn [run_due].
    rewrite He, next_due_singleton.
    assert (Hd : t < due tm) by (apply (Hlate h); rewrite He; apply lookup_singleton_eq).
    destruct (Z.leb_spec (due tm) t); [lia | reflexivity].
Qed.

(** Time passes beyond the moment the pending timeout is due. *)
Lemma advance_fires (s : App) (h : positive) (tm : Timer) (t : Z) :
  wf s -> timers s = {[h := tm]} -> due tm <= t ->
  let s' := advance t s in
  panel s' = panel s ++ [(Z.max (now s) (due tm),
                          {| speaker := "You"; text := localTranscriptionBuffer s |})] /\
  localTranscriptionBuffer s' = "" /\
  timers s' = ∅ /\
  now s' = Z.max (Z.max (now s) (due tm)) t /\
  translationDelay s' = translationDelay s /\
  dataConnection s' = dataConnection s /\
  wf s'.
Proof.
  intros Hwf He Hdue s'. subst s'. unfold advance.
  rewrite He, map_size_singleton. cbn [run_due].
  rewrite He, next_due_singleton.
  destruct (Z.leb_spec (due tm) t) as [_|]; [|lia].
  destruct Hwf as [Hp Hv].
  destruct (Hp h tm) as (_ & Hl & _); [rewrite He; apply lookup_singleton_eq|].
  unfold fire, timeout_callback, set_now.
  cbn [panel localTranscriptionBuffer timers now translationDelay dataConnection].
  rewrite He, delete_singleton_eq, Hl.
  repeat (split; [reflexivity|]).
  split.
  - intros k tm' H. cbn in H. rewrite lookup_empty in H. discriminate.
  - exact Hv.
Qed.

Lemma wf_advance (s : App) (t : Z) : wf s -> wf (advance t s).
Proof.
  intros Hwf.
  destruct (wf_timers s Hwf) as [He | (h & tm & He & _)].
  - rewrite advance_idle; [apply wf_set_now; [exact Hwf | lia] | exact Hwf |].
    intros k tm' H. rewrite He, lookup_empty in H. discriminate.
  - destruct (Z.le_gt_cases (due tm) t) as [Hd|Hd].
    + apply (advance_fires s h tm t Hwf He Hd).
    + rewrite advance_idle; [apply wf_set_now; [exact Hwf | lia] | exact Hwf |].
      intros k tm' H. rewrite He in H.
      apply lookup_singleton_Some in H as [_ <-]. lia.
Qed.

Lemma wf_handle (s : App) (text : string) : wf s -> wf (handleLocalTranscription text s).
Proof.
  intros Hwf. destruct (dropped text s) eqn:Hd.
  - now rewrite handle_dropped.
  - apply (handle_accepted s text Hwf Hd).
Qed.

Lemma wf_step (s : App) (e : Event) : wf s -> wf (step s e).
Proof.
  intros Hwf. destruct e as [t text | t]; cbn [step onmessage].
  - destruct (truthy text); [apply wf_handle|]; apply wf_advance, Hwf.
  - apply wf_advance, Hwf.
Qed.


End DelaySteps.

Section DelayClaims.
Import JS Browser Page Delay.

Lemma length_zero_empty (s : string) : (String.length s =? 0)%nat = true <-> s = "".
Proof. destruct s; simpl; split; congruence. Qed.

Lemma dropped_spec (text : string) (s : App) :
  dropped text s = true <-> blank text = true /\ localTranscriptionBuffer s = "".
Proof.
  unfold dropped. fold (blank text).
  rewrite andb_true_iff, length_zero_empty. reflexivity.
Qed.















End DelayClaims.

(** ** Transcription line buffer, push-to-talk model *)

Section PushToTalkClaims.
Import JS Browser Page.

(** A fragment that arrives while the gate is closed changes nothing. *)
Lemma closed_gate_discards (s : PushToTalk.App) (text : string) :
  PushToTalk.isTalking s = false ->
  PushToTalk.step s (PushToTalk.fragment text) = s.
Proof.
  intros H. cbn [PushToTalk.step PushToTalk.onmessage].
  unfold PushToTalk.handleLocalTranscription. rewrite H. cbn.
  destruct (truthy text); reflexivity.
Qed.

Lemma run_app (events1 events2 : list PushToTalk.Event) (s : PushToTalk.App) :
  PushToTalk.run (events1 ++ events2) s
  = PushToTalk.run events2 (PushToTalk.run events1 s).
Proof. unfold PushToTalk.run. apply fold_left_app. Qed.

(** C6 (as amended). A fragment that arrives while the gate is closed is
    discarded: it changes nothing, so the lines committed by any history
    are those of the history without it. When the gate closes in a running
    meeting, accumulated text that is not blank is committed at once as
    one line of the local speaker and the accumulator is emptied; blank
    accumulated text commits no line. Closing the gate on the accumulator
    "hello" commits "hello". *)
Theorem push_to_talk_gating :
  (forall (s : PushToTalk.App) (text : string),
      PushToTalk.isTalking s = false ->
      PushToTalk.handleLocalTranscription text s = s) /\
  (forall (before after : list PushToTalk.Event) (text : string) (s : PushToTalk.App),
      PushToTalk.isTalking (PushToTalk.run before s) = false ->
      PushToTalk.run (before ++ PushToTalk.fragment text :: after) s
      = PushToTalk.run (before ++ after) s) /\
  (forall (s : PushToTalk.App) (node : bool),
      PushToTalk.isMeetingActive s = true ->
      PushToTalk.isTalking s = true ->
      PushToTalk.scriptProcessor s = Some node ->
      let s' := PushToTalk.stopTranscribing s in
      PushToTalk.isTalking s' = false /\
      (blank (PushToTalk.localTranscriptionBuffer s) = false ->
         PushToTalk.panel s'
           = PushToTalk.panel s
             ++ [{| speaker := "You"; text := PushToTalk.localTranscriptionBuffer s |}] /\
         PushToTalk.localTranscriptionBuffer s' = "") /\
      (blank (PushToTalk.localTranscriptionBuffer s) = true ->
         PushToTalk.panel s' = PushToTalk.panel s)) /\
  (PushToTalk.panel
     (PushToTalk.run [PushToTalk.press; PushToTalk.fragment "hello"; PushToTalk.release]
        PushToTalk.ready)
   = [{| speaker := "You"; text := "hello" |}] /\
   PushToTalk.panel
     (PushToTalk.run [PushToTalk.fragment "lost"; PushToTalk.press;
                      PushToTalk.fragment "hello"; PushToTalk.release;
                      PushToTalk.fragment "late"; PushToTalk.press; PushToTalk.release]
        PushToTalk.ready)
   = [{| speaker := "You"; text := "hello" |}]).
Proof.
  split; [|split; [|split]].
  - intros s text H. unfold PushToTalk.handleLocalTranscription. now rewrite H.
  - intros before after text s H.
    rewrite !run_app. cbn [PushToTalk.run fold_left].
    now rewrite closed_gate_discards.
  - intros s node Ha Ht Hn s'. subst s'.
    unfold PushToTalk.stopTranscribing. rewrite Hn, Ha, Ht.
    cbn [negb orb PushToTalk.isTalking PushToTalk.panel
         PushToTalk.localTranscriptionBuffer].
    unfold blank.
    destruct (trim (PushToTalk.localTranscriptionBuffer s)) eqn:E;
      cbn [truthy negb String.length Nat.ltb Nat.leb].
    + split; [reflexivity|]. split; [discriminate | reflexivity].
    + split; [reflexivity|]. split; [|discriminate].
      intros _. split; reflexivity.
  - split; reflexivity.
Qed.

(** C6 at the accumulator "hello" with the gate open. *)
Lemma push_to_talk_gating_witness :
  let s := PushToTalk.run [PushToTalk.press; PushToTalk.fragment "hello"] PushToTalk.ready in
  PushToTalk.localTranscriptionBuffer s = "hello" /\
  PushToTalk.panel (PushToTalk.stopTranscribing s)
  = [{| speaker := "You"; text := "hello" |}] /\
  PushToTalk.localTranscriptionBuffer (PushToTalk.stopTranscribing s) = "".
Proof.
  intros s. split; [reflexivity|].
  destruct push_to_talk_gating as (_ & _ & H & _).
  destruct (H s true) as (_ & Hc & _); [reflexivity | reflexivity | reflexivity |].
  apply Hc. reflexivity.
Defined.

(** C6 as stated fails when what has accumulated is blank: closing the
    gate on the accumulator " " commits no line and leaves the
    accumulator as it is, so that the next utterance is committed with
    the white space in front. *)
Lemma blank_accumulator_is_not_committed :
  let s := PushToTalk.run [PushToTalk.press; PushToTalk.fragment " "] PushToTalk.ready in
  PushToTalk.isTalking s = true /\
  PushToTalk.localTranscriptionBuffer s = " " /\
  PushToTalk.panel (PushToTalk.stopTranscribing s) = [] /\
  PushToTalk.localTranscriptionBuffer (PushToTalk.stopTranscribing s) = " " /\
  PushToTalk.panel
    (PushToTalk.run [PushToTalk.press; PushToTalk.fragment " "; PushToTalk.release;
                     PushToTalk.press; PushToTalk.fragment "hi"; PushToTalk.release]
       PushToTalk.ready)
  = [{| speaker := "You"; text := " hi" |}].
Proof. repeat split; reflexivity. Qed.

(** C4 (as amended). In the delay model every fragment that is not
    dropped is sent to the peer, when the data channel is open, in the
    call that receives it, before any line is committed. In the
    push-to-talk model a fragment is never sent when it arrives: the
    accumulated text is sent once, as one message, when the gate closes
    on text that is not blank. *)
Theorem fragment_relay :
  (forall (s : Delay.App) (text : string) (dc : DataConnection),
      Delay.dropped text s = false ->
      Delay.dataConnection s = Some dc -> open dc = true ->
      let s' := Delay.handleLocalTranscription text s in
      Delay.dataConnection s'
        = Some {| open := true; sent := sent dc ++ [transcription text] |} /\
      Delay.panel s' = Delay.panel s) /\
  (forall (s : PushToTalk.App) (text : string),
      PushToTalk.dataConnection (PushToTalk.handleLocalTranscription text s)
      = PushToTalk.dataConnection s) /\
  (forall (s : PushToTalk.App) (node : bool) (dc : DataConnection),
      PushToTalk.isMeetingActive s = true ->
      PushToTalk.isTalking s = true ->
      PushToTalk.scriptProcessor s = Some node ->
      PushToTalk.dataConnection s = Some dc -> open dc = true ->
      blank (PushToTalk.localTranscriptionBuffer s) = false ->
      PushToTalk.dataConnection (PushToTalk.stopTranscribing s)
      = Some {| open := true;
                sent := sent dc ++ [transcription (PushToTalk.localTranscriptionBuffer s)] |}).
Proof.
  split; [|split].
  - intros s text dc Hd Hdc Hopen s'. subst s'.
    unfold Delay.handleLocalTranscription. rewrite Hd.
    cbn [Delay.dataConnection Delay.panel]. rewrite Hdc. cbn [send_if_open].
    rewrite Hopen. unfold send. rewrite Hopen. split; reflexivity.
  - intros s text. unfold PushToTalk.handleLocalTranscription.
    destruct (negb (PushToTalk.isTalking s)); reflexivity.
  - intros s node dc Ha Ht Hn Hdc Hopen Hb.
    unfold PushToTalk.stopTranscribing. rewrite Hn, Ha, Ht.
    cbn [negb orb PushToTalk.dataConnection].
    unfold blank in Hb.
    destruct (trim (PushToTalk.localTranscriptionBuffer s)) eqn:E;
      [discriminate|].
    cbn [String.length Nat.ltb Nat.leb]. rewrite Hdc. cbn [send_if_open].
    rewrite Hopen. unfold send. now rewrite Hopen.
Qed.

(** C4 at the fragments "Hel" and "lo" with the data channel open. *)
Lemma fragment_relay_witness :
  let s := PushToTalk.run [PushToTalk.press; PushToTalk.fragment "Hel";
                           PushToTalk.fragment "lo"] PushToTalk.ready in
  PushToTalk.dataConnection s = Some {| open := true; sent := [] |} /\
  PushToTalk.dataConnection (PushToTalk.stopTranscribing s)
  = Some {| open := true; sent := [transcription "Hello"] |}.
Proof.
  intros s. split; [reflexivity|].
  destruct fragment_relay as (_ & _ & H).
  apply (H s true {| open := true; sent := [] |}); reflexivity.
Defined.

(** C4 as stated fails in the push-to-talk model: with the gate open and
    the data channel open, the fragment "Hel" is accepted into the
    accumulator and nothing is sent. *)
Lemma push_to_talk_fragment_is_not_relayed :
  let s := PushToTalk.run [PushToTalk.press] PushToTalk.ready in
  let s' := PushToTalk.step s (PushToTalk.fragment "Hel") in
  PushToTalk.isTalking s = true /\
  PushToTalk.dataConnection s = Some {| open := true; sent := [] |} /\
  PushToTalk.localTranscriptionBuffer s' = "Hel" /\
  PushToTalk.dataConnection s' = Some {| open := true; sent := [] |}.
Proof. repeat split; reflexivity. Qed.

End PushToTalkClaims.

(** ** Stream splitting *)

Section SplitterClaims.
Import Browser Splitter.

Lemma is_kind_lookup (k : TrackKind) (store : TrackStore) (t : TrackId) :
  is_kind k store t = true -> exists tr, store !! t = Some tr.
Proof.
  unfold is_kind. destruct (store !! t) as [tr|]; [eauto | discriminate].
Qed.

Lemma fresh_id_unused (store : TrackStore) : store !! fresh_id store = None.
Proof. apply not_elem_of_dom. unfold fresh_id. apply is_fresh. Qed.

Lemma store_lookup_insert (store : TrackStore) (t : TrackId) (tr : Track) :
  <[t := tr]> store !! t = Some tr.
Proof. apply lookup_insert_eq. Qed.

(** An operation on a track leaves every other track object as it was. *)
Lemma apply_op_other (op : TrackOp) (t t' : TrackId) (store : TrackStore) :
  t <> t' -> apply_op op t store !! t' = store !! t'.
Proof.
  intros Hne. destruct op; cbn [apply_op]; unfold stop, set_enabled;
    destruct (store !! t); try reflexivity; apply lookup_insert_ne; exact Hne.
Qed.

(** C2 (as amended). In part_000 the recognition feed holds one track, a
    clone of the captured audio track made when the meeting starts: a new
    track object with the state of the original, which the transport feed
    does not hold. Stopping, disabling or enabling that track leaves every
    track object of the transport feed as it was. In index.js both
    consumers are handed the captured stream itself, so the track the
    recognition feed reads is the audio track of the transport feed. *)
Theorem stream_isolation :
  (forall (store store' : TrackStore) (mediaStream : MediaStream) (feeds : Feeds),
      part_000_feeds store mediaStream = Some (feeds, store') ->
      exists original cloned : TrackId,
        source_track store mediaStream = Some original /\
        recognition feeds = [cloned] /\
        In original (transport feeds) /\
        ~ In cloned (transport feeds) /\
        store !! cloned = None /\
        store' !! cloned = store !! original /\
        (forall t, In t (transport feeds) -> store' !! t = store !! t) /\
        (forall op t, In t (transport feeds) ->
           apply_op op cloned store' !! t = store' !! t)) /\
  (forall (store : TrackStore) (mediaStream : MediaStream),
      recognition (index_feeds mediaStream) = transport (index_feeds mediaStream) /\
      source_track store (recognition (index_feeds mediaStream))
      = source_track store (transport (index_feeds mediaStream))).
Proof.
  split; [|intros; split; reflexivity].
  intros store store' mediaStream feeds H.
  unfold part_000_feeds in H.
  destruct (getAudioTracks store mediaStream) as [|original audioTracks] eqn:Ea;
    [discriminate|].
  destruct (getVideoTracks store mediaStream) as [|v videoTracks] eqn:Ev;
    [discriminate|].
  assert (Ho : exists tr, store !! original = Some tr).
  { apply (is_kind_lookup audio).
    assert (Hin : In original (getAudioTracks store mediaStream))
      by (rewrite Ea; left; reflexivity).
    unfold getAudioTracks in Hin. apply filter_In in Hin. tauto. }
  destruct Ho as [tr Ho].
  unfold clone in H. rewrite Ho in H. injection H as <- <-.
  cbn [transport recognition].
  pose proof (fresh_id_unused store) as Hfresh.
  assert (Hdom : forall t, In t ((v :: videoTracks) ++ [original]) ->
                           t <> fresh_id store).
  { intros t Hin Heq. subst t. apply in_app_iff in Hin as [Hin|[Hin|[]]].
    - rewrite <- Ev in Hin. unfold getVideoTracks in Hin.
      apply filter_In in Hin as [_ Hk].
      apply is_kind_lookup in Hk as [tr' Hk]. congruence.
    - rewrite Hin in Ho. congruence. }
  exists original, (fresh_id store).
  split; [unfold source_track; now rewrite Ea|].
  split; [reflexivity|].
  split; [right; apply in_or_app; right; left; reflexivity|].
  split; [intros Hin; exact (Hdom _ Hin eq_refl)|].
  split; [exact Hfresh|].
  split; [rewrite Ho; apply lookup_insert_eq|].
  split.
  - intros t Hin. apply lookup_insert_ne. intros Heq. exact (Hdom _ Hin (eq_sym Heq)).
  - intros op t Hin. apply apply_op_other. intros Heq. exact (Hdom _ Hin (eq_sym Heq)).
Qed.

(** C2 on the captured stream in part_000: stopping the recognition
    feed's track leaves the transport feed's audio track live. *)
Lemma stream_isolation_witness :
  exists feeds store' cloned,
    part_000_feeds captured [0%nat; 1%nat] = Some (feeds, store') /\
    recognition feeds = [cloned] /\
    readyState <$> (stop cloned store' !! cloned) = Some ended /\
    stop cloned store' !! 0%nat = captured !! 0%nat.
Proof.
  destruct (part_000_feeds captured [0%nat; 1%nat]) as [[feeds store']|] eqn:E;
    [|vm_compute in E; discriminate].
  destruct stream_isolation as [H _].
  destruct (H _ _ _ _ E) as (original & cloned & Hs & Hr & Hin & _ & Hnew & Hc & Hsame & Hop).
  assert (Ho : original = 0%nat) by (vm_compute in Hs; congruence).
  subst original.
  exists feeds, store', cloned.
  split; [reflexivity|]. split; [exact Hr|]. split.
  - unfold stop. rewrite Hc.
    replace (captured !! 0%nat)
      with (Some {| kind := audio; enabled := true; readyState := live;
                    device := 0%nat |}) by (vm_compute; reflexivity).
    rewrite store_lookup_insert. reflexivity.
  - etrans; [exact (Hop Stop 0%nat Hin) | apply Hsame, Hin].
Defined.

(** C2 as stated fails in index.js: the track the recognition feed reads
    is a track of the transport feed, and stopping or disabling it changes
    that track object. *)
Lemma index_feeds_share_the_audio_track :
  let feeds := index_feeds [0%nat; 1%nat] in
  source_track captured (recognition feeds) = Some 0%nat /\
  In 0%nat (transport feeds) /\
  readyState <$> (captured !! 0%nat) = Some live /\
  readyState <$> (apply_op Stop 0%nat captured !! 0%nat) = Some ended /\
  enabled <$> (captured !! 0%nat) = Some true /\
  enabled <$> (apply_op (SetEnabled false) 0%nat captured !! 0%nat) = Some false.
Proof.
  cbn zeta. split; [reflexivity|]. split; [left; reflexivity|].
  repeat split; vm_compute; reflexivity.
Qed.

End SplitterClaims.

(** ** Teardown *)

Section TeardownClaims.
Import JS Browser Page Delay.

(** After [resetApplicationState] of index.js there is nothing left to
    release. *)
Lemma reset_leaves_nothing (s : App) :
  IndexJs.teardown_calls (IndexJs.resetApplicationState s) = [].
Proof. reflexivity. Qed.

(** Teardown in index.js, from any state whatever: the status is
    ['idle'] after the first and after the second call, the second call
    makes no external call and changes nothing, and a state in which no
    resource exists yet makes no external call either. *)
Lemma resetApplicationState_idempotent (s : App) :
  status (IndexJs.endMeeting s) = "idle" /\
  status (IndexJs.endMeeting (IndexJs.endMeeting s)) = "idle" /\
  IndexJs.endMeeting (IndexJs.endMeeting s) = IndexJs.endMeeting s /\
  calls (IndexJs.endMeeting initial) = [].
Proof.
  split; [reflexivity|]. split; [reflexivity|]. split; [|reflexivity].
  unfold IndexJs.endMeeting.
  unfold IndexJs.resetApplicationState at 1.
  rewrite reset_leaves_nothing, app_nil_r.
  reflexivity.
Qed.

(** Teardown in part_000 from a meeting in progress. *)
Lemma part_000_endMeeting_active (s : App) :
  isMeetingActive s = true ->
  status (Part000.endMeeting s) = "idle" /\
  Part000.endMeeting (Part000.endMeeting s) = Part000.endMeeting s.
Proof.
  intros Ha.
  assert (Hs : status (Part000.endMeeting s) = "idle").
  { unfold Part000.endMeeting. rewrite Ha. reflexivity. }
  assert (Hi : isMeetingActive (Part000.endMeeting s) = false).
  { unfold Part000.endMeeting. rewrite Ha. reflexivity. }
  split; [exact Hs|].
  unfold Part000.endMeeting at 1. now rewrite Hi.
Qed.

(** C3 fails on part_000. When the recognition session fails to connect,
    the [catch] block of [startMeeting] reports the error and calls
    [endMeeting], which returns at once because [isMeetingActive] is still
    false: the status stays ['error'], the peer is not destroyed, no track
    is stopped. Calling [endMeeting] again, once or twice, changes
    nothing. *)
Theorem part_000_teardown_after_failed_start :
  let s := part_000_failed_start in
  isMeetingActive s = false /\
  status s = "error" /\
  peer s = Some {| id := Some "room-42"; destroyed := false |} /\
  mediaStream s = Some [0%nat; 1%nat] /\
  readyState <$> (tracks s !! 0%nat) = Some live /\
  readyState <$> (tracks s !! 1%nat) = Some live /\
  calls s = [] /\
  Part000.endMeeting s = s /\
  status (Part000.endMeeting s) = "error" /\
  status (Part000.endMeeting (Part000.endMeeting s)) = "error" /\
  status (IndexJs.endMeeting s) = "idle".
Proof.
  cbn zeta.
  assert (Ha : isMeetingActive part_000_failed_start = false) by (vm_compute; reflexivity).
  assert (He : Part000.endMeeting part_000_failed_start = part_000_failed_start).
  { unfold Part000.endMeeting. now rewrite Ha. }
  rewrite !He.
  repeat split; vm_compute; reflexivity.
Qed.

End TeardownClaims.

(** * Further properties of the code *)

(** ** Frame Encoder: size, order and symmetry *)

Section EncoderFurther.
Import JS Encoder Wire.

Lemma btoa_length (binary : string) :
  String.length (btoa binary) = (4 * ((String.length binary + 2) / 3))%nat.
Proof.
  induction binary as [| a | a b | a b c rest IH] using string_triples_ind;
    try reflexivity.
  cbn [btoa String.length]. rewrite IH.
  replace (S (S (S (String.length rest))) + 2)%nat
    with (String.length rest + 2 + 1 * 3)%nat by lia.
  rewrite Nat.div_add by lia. lia.
Qed.

Lemma string_of_list_ascii_length (l : list ascii) :
  String.length (string_of_list_ascii l) = length l.
Proof. induction l as [|c l IH]; simpl; [reflexivity | now rewrite IH]. Qed.

Lemma encode_length (bytes : list Z) :
  String.length (encode bytes) = (4 * ((length bytes + 2) / 3))%nat.
Proof.
  unfold encode. rewrite btoa_length, binary_string_eq.
  change ("" +:+ string_of_list_ascii (map fromCharCode bytes))
    with (string_of_list_ascii (map fromCharCode bytes)).
  now rewrite string_of_list_ascii_length, length_map.
Qed.

Lemma Uint8Array_of_buffer_length (int16 : list Z) :
  length (Uint8Array_of_buffer int16) = (2 * length int16)%nat.
Proof. induction int16 as [|v l IH]; simpl in *; lia. Qed.

(** X1. [encode] is undone by base64 decoding on every sequence of
    bytes, and its result has four characters for every three bytes
    begun. *)
Theorem encode_round_trip (bytes : list Z) :
  Forall (fun b => 0 <= b < 256) bytes ->
  atob (encode bytes) = Some bytes /\
  String.length (encode bytes) = (4 * ((length bytes + 2) / 3))%nat.
Proof.
  intros Hb. split; [apply atob_encode, Hb | apply encode_length].
Qed.

Lemma encode_round_trip_witness :
  atob (encode [77; 97; 110; 255]) = Some [77; 97; 110; 255] /\
  String.length (encode [77; 97; 110; 255]) = 8%nat.
Proof.
  apply (encode_round_trip [77; 97; 110; 255]).
  repeat constructor; lia.
Defined.

(** X2. The chunk [createBlob] makes of [n] samples carries [n] 16-bit
    values in [4 * ceil(2n / 3)] characters, whatever the samples are. *)
Theorem createBlob_size (samples : list number) :
  String.length (data (createBlob samples))
  = (4 * ((2 * length samples + 2) / 3))%nat /\
  exists int16 : list Z,
    decode (createBlob samples) = Some int16 /\
    length int16 = length samples.
Proof.
  split.
  - cbn [createBlob data]. rewrite encode_length, Uint8Array_of_buffer_length.
    unfold int16_of_samples. now rewrite length_map.
  - exists (int16_of_samples samples). split; [apply decode_createBlob|].
    unfold int16_of_samples. apply length_map.
Qed.

End EncoderFurther.

Section Quantization.
Import JS Encoder Wire.
Local Open Scope Q_scope.

Lemma truncate_comp (p q : Q) : p == q -> truncate p = truncate q.
Proof.
  intros H. unfold truncate.
  rewrite (Qfloor_comp _ _ H), (Qceiling_comp _ _ H).
  destruct (Qle_bool 0 p) eqn:Ep, (Qle_bool 0 q) eqn:Eq; try reflexivity.
  - apply Qle_bool_iff in Ep. rewrite H in Ep. apply Qle_bool_iff in Ep. congruence.
  - apply Qle_bool_iff in Eq. rewrite <- H in Eq. apply Qle_bool_iff in Eq. congruence.
Qed.

Lemma truncate_le (p q : Q) : p <= q -> (truncate p <= truncate q)%Z.
Proof.
  intros H.
  destruct (Qlt_le_dec q 0) as [Hq|Hq].
  - assert (Hp : p < 0) by lra.
    unfold truncate.
    destruct (Qle_bool 0 p) eqn:Ep; [apply Qle_bool_iff in Ep; lra|].
    destruct (Qle_bool 0 q) eqn:Eq; [apply Qle_bool_iff in Eq; lra|].
    apply Qceiling_resp_le, H.
  - destruct (Qlt_le_dec p 0) as [Hp|Hp].
    + destruct (truncate_neg p Hp) as [_ Hb].
      destruct (truncate_nonneg q Hq) as [_ Hd].
      assert (H1 : (truncate p < 1)%Z)
        by (rewrite Zlt_Qlt; change (inject_Z 1) with 1; lra).
      assert (H2 : (-1 < truncate q)%Z).
      { rewrite Zlt_Qlt. change (inject_Z (-1)) with (-1). lra. }
      lia.
    + unfold truncate.
      destruct (Qle_bool 0 p) eqn:Ep;
        [|apply Qle_bool_iff in Hp; congruence].
      destruct (Qle_bool 0 q) eqn:Eq;
        [|apply Qle_bool_iff in Hq; congruence].
      apply Qfloor_resp_le, H.
Qed.

Lemma truncate_opp (q : Q) : truncate (- q) = (- truncate q)%Z.
Proof.
  unfold truncate, Qceiling.
  destruct (Qle_bool 0 q) eqn:Eq, (Qle_bool 0 (- q)) eqn:En.
  - apply Qle_bool_iff in Eq, En.
    assert (H0 : q == 0) by lra.
    rewrite (Qfloor_comp _ _ H0).
    assert (H1 : - q == 0) by lra.
    rewrite (Qfloor_comp _ _ H1). reflexivity.
  - rewrite (Qfloor_comp (- - q) q) by ring. reflexivity.
  - lia.
  - assert (H1 : ~ 0 <= q) by (rewrite <- Qle_bool_iff; congruence).
    assert (H2 : ~ 0 <= - q) by (rewrite <- Qle_bool_iff; congruence).
    exfalso. apply H1. apply Qnot_lt_le. intros H3. apply H2. lra.
Qed.

(** The 16-bit value of a sample inside the range. *)
Lemma sample_value (q : Q) :
  -1 <= q -> q < 1 ->
  ToInt16 (mul (Num q) (Num (32768 # 1))) = truncate (q * (32768 # 1)).
Proof.
  intros Hlo Hhi. cbn [mul]. apply ToInt16_in_range, sample_in_range; assumption.
Qed.

(** X3. Between -1 and 1 the encoder keeps the order of the samples: a
    larger sample never gets a smaller 16-bit value. *)
Theorem createBlob_monotone (p q : Q) :
  -1 <= p -> p <= q -> q < 1 ->
  exists vp vq : Z,
    decode (createBlob [Num p; Num q]) = Some [vp; vq] /\ (vp <= vq)%Z.
Proof.
  intros Hlo Hpq Hhi.
  exists (truncate (p * (32768 # 1))), (truncate (q * (32768 # 1))).
  split.
  - rewrite decode_createBlob. cbn [int16_of_samples map].
    rewrite !sample_value by lra. reflexivity.
  - apply truncate_le. nra.
Qed.

Lemma createBlob_monotone_witness :
  exists vp vq : Z,
    decode (createBlob [Num (-1 # 3); Num (1 # 4)]) = Some [vp; vq] /\ (vp <= vq)%Z.
Proof.
  apply (createBlob_monotone (-1 # 3) (1 # 4));
    unfold Qle, Qlt; simpl; lia.
Defined.

(** X4. Strictly between -1 and 1 the encoder is symmetric about zero,
    the 16-bit value of [-q] being the opposite of that of [q]; and a
    sample smaller than one quantization step in magnitude is encoded
    as 0. *)
Theorem createBlob_symmetric (q : Q) :
  -1 < q -> q < 1 ->
  (exists v : Z, decode (createBlob [Num q; Num (- q)]) = Some [v; (- v)%Z]) /\
  (Qabs q < 1 # 32768 -> decode (createBlob [Num q]) = Some [0%Z]).
Proof.
  intros Hlo Hhi. split.
  - exists (truncate (q * (32768 # 1))).
    rewrite decode_createBlob. cbn [int16_of_samples map].
    rewrite !sample_value by lra.
    rewrite (truncate_comp (- q * (32768 # 1)) (- (q * (32768 # 1)))) by ring.
    now rewrite truncate_opp.
  - intros Hs. rewrite decode_createBlob. cbn [int16_of_samples map].
    rewrite sample_value by lra.
    apply Qabs_Qlt_condition in Hs. destruct Hs as [H1 H2].
    assert (Hr : (-1 < truncate (q * (32768 # 1)) < 1)%Z).
    { destruct (Qlt_le_dec (q * (32768 # 1)) 0) as [Hn|Hp].
      - destruct (truncate_neg _ Hn) as [Ha Hb]. split.
        + rewrite Zlt_Qlt. change (inject_Z (-1)) with (-1). lra.
        + rewrite Zlt_Qlt. change (inject_Z 1) with 1. lra.
      - destruct (truncate_nonneg _ Hp) as [Ha Hb]. split.
        + rewrite Zlt_Qlt. change (inject_Z (-1)) with (-1). lra.
        + rewrite Zlt_Qlt. change (inject_Z 1) with 1. lra. }
    do 2 f_equal. lia.
Qed.

Lemma createBlob_symmetric_witness :
  exists v : Z,
    decode (createBlob [Num (1 # 3); Num (- (1 # 3))]) = Some [v; (- v)%Z].
Proof.
  apply (createBlob_symmetric (1 # 3)); unfold Qlt; simpl; lia.
Defined.

End Quantization.

(** ** Resampler: bounds of the entries *)

Section ResamplerFurther.
Import JS Float Browser Resampler.
Local Open Scope Q_scope.

(** X6. Resampling keeps the samples inside the bounds of the input:
    when the rates are equal, or the rate of the audio context is above
    the positive target rate by a factor between [1 + 2^-20] and [2^20],
    a block of up to [2^29] finite samples between the float32 values
    [lo] and [hi] is resampled to a block of finite entries between [lo]
    and [hi]; neither the rounding of the sums and quotients nor the
    float32 store takes an entry outside. *)
Theorem resampleBuffer_bounds
    (ctx : AudioContext) (inputBuffer : list number) (lo hi : Q) (targetSampleRate : Q) :
  represented single lo -> represented single hi ->
  (forall x, In x inputBuffer -> exists q, x = Num q /\ lo <= q <= hi) ->
  0 < targetSampleRate ->
  sampleRate ctx == targetSampleRate \/
  targetSampleRate * (1048577 # 1048576) <= sampleRate ctx <= targetSampleRate * 1048576 ->
  (Z.of_nat (length inputBuffer) <= 2 ^ 29)%Z ->
  exists output : list number,
    resampleBuffer (Some ctx) inputBuffer targetSampleRate = Some output /\
    Forall (fun y => exists q, y = Num q /\ lo <= q <= hi) output.
Proof.
  intros Hlo Hhi Hb Ht Hrates Hlen.
  exact (resampleBuffer_between lo hi ctx inputBuffer targetSampleRate
           Hlo Hhi Hb Ht Hrates Hlen).
Qed.

Lemma resampleBuffer_bounds_witness :
  exists output : list number,
    resampleBuffer (Some {| sampleRate := 48000 # 1; state := running |})
      [Num (1 # 2); Num (-1); Num 0; Num (1 # 4)] (16000 # 1) = Some output /\
    Forall (fun y => exists q, y = Num q /\ -1 <= q <= 1 # 2) output.
Proof.
  apply resampleBuffer_bounds.
  - split; vm_compute; [reflexivity | discriminate].
  - split; vm_compute; [reflexivity | discriminate].
  - intros x Hx. cbn [In] in Hx.
    destruct Hx as [<-|[<-|[<-|[<-|[]]]]]; eexists; (split; [reflexivity|]);
      unfold Qle; simpl; lia.
  - reflexivity.
  - right. cbn [sampleRate]. unfold Qle; simpl; lia.
  - simpl; lia.
Defined.

End ResamplerFurther.

(** ** The audio callback: from a capture block to the chunk sent *)

Section AudioCallbackFacts.
Import JS Float Browser Encoder Wire Resampler AudioCallback.
Local Open Scope Q_scope.

Lemma Forall2_map_r {A B : Type} (P : A -> Prop) (R : A -> B -> Prop)
    (f : A -> B) (l : list A) :
  Forall P l -> (forall x, P x -> R x (f x)) -> Forall2 R l (map f l).
Proof.
  intros Hl HR. induction Hl as [|x l Hx _ IH]; cbn [map]; constructor; auto.
Qed.

(** X8. In part_000, once the recognition session exists, a capture
    block of [len] samples (up to [2^30]) taken at a rate [Rin] of the
    audio context between [16000 * 2^-20] and [16000 * 2^20] is sent as
    a chunk of [Math.round] of the binary64 quotient [len / (Rin / 16000)]
    16-bit samples, a number between
    [round(len * 16000 / Rin * (1 - 2^-51))] and
    [round(len * 16000 / Rin * (1 + 2^-51))]. *)
Theorem part_000_chunk_length
    (ctx : AudioContext) (session : nat) (inputData : list number) :
  (16000 # 1) * (1 # 1048576) <= sampleRate ctx <= (16000 # 1) * 1048576 ->
  (Z.of_nat (length inputData) <= 2 ^ 30)%Z ->
  exists (pcmBlob : Blob) (int16 : list Z),
    part_000_onaudioprocess (Some ctx) (Some session) inputData = Some pcmBlob /\
    decode pcmBlob = Some int16 /\
    Z.of_nat (length int16)
    = Math_round (quotient (Z.of_nat (length inputData))
                    (ratio (sampleRate ctx) (16000 # 1))) /\
    (Math_round (inject_Z (Z.of_nat (length inputData)) * (16000 # 1) / sampleRate ctx
                 * (1 - (1 # 2251799813685248)))
     <= Z.of_nat (length int16)
     <= Math_round (inject_Z (Z.of_nat (length inputData)) * (16000 # 1) / sampleRate ctx
                    * (1 + (1 # 2251799813685248))))%Z.
Proof.
  intros Hrates Hlen.
  destruct (resampleBuffer_entries ctx inputData (16000 # 1) ltac:(reflexivity) Hrates Hlen)
    as (output & E & HL & Hbounds).
  unfold part_000_onaudioprocess. rewrite E.
  eexists. eexists. split; [reflexivity|].
  split; [apply decode_createBlob|].
  unfold int16_of_samples. rewrite length_map.
  split; assumption.
Qed.

Lemma part_000_chunk_length_witness :
  exists (pcmBlob : Blob) (int16 : list Z),
    part_000_onaudioprocess (Some {| sampleRate := 44100 # 1; state := running |})
      (Some 0%nat) (repeat (Num 0) 4096) = Some pcmBlob /\
    decode pcmBlob = Some int16 /\
    Z.of_nat (length int16) = 1486%Z.
Proof.
  destruct (part_000_chunk_length {| sampleRate := 44100 # 1; state := running |}
              0%nat (repeat (Num 0) 4096)) as (pcmBlob & int16 & H1 & H2 & _ & H3 & H4).
  - cbn [sampleRate]. unfold Qle; simpl; lia.
  - rewrite repeat_length. simpl; lia.
  - exists pcmBlob, int16. split; [exact H1|]. split; [exact H2|].
    rewrite repeat_length in H3, H4. cbn [sampleRate] in H3, H4.
    vm_compute in H3. vm_compute in H4.
    apply Z.le_antisymm; assumption.
Defined.

(** X9. The audio callbacks of part_000 and part_002 send the same chunk
    for the same block, the early return of part_002 changing nothing;
    and when the audio context runs at 16000 Hz, as part_002 creates it,
    that chunk is the one index.js sends: the block goes through the
    resampler untouched. *)
Theorem callbacks_agree
    (audioContext : option AudioContext) (sessionPromise : option nat)
    (inputData : list number) :
  part_002_onaudioprocess audioContext sessionPromise inputData
  = part_000_onaudioprocess audioContext sessionPromise inputData /\
  (forall ctx : AudioContext,
      audioContext = Some ctx -> sampleRate ctx == 16000 # 1 ->
      part_002_onaudioprocess audioContext sessionPromise inputData
      = index_onaudioprocess sessionPromise inputData).
Proof.
  split.
  - unfold part_002_onaudioprocess, part_000_onaudioprocess.
    destruct sessionPromise;
      destruct (resampleBuffer audioContext inputData (16000 # 1)); reflexivity.
  - intros ctx -> Hrate.
    unfold part_002_onaudioprocess, index_onaudioprocess, resampleBuffer.
    apply Qeq_bool_iff in Hrate. rewrite Hrate.
    destruct sessionPromise; reflexivity.
Qed.

Lemma callbacks_agree_witness :
  part_002_onaudioprocess (Some {| sampleRate := 16000 # 1; state := running |})
    (Some 0%nat) [Num (1 # 2); Num (-1 # 4)]
  = index_onaudioprocess (Some 0%nat) [Num (1 # 2); Num (-1 # 4)].
Proof.
  apply (proj2 (callbacks_agree (Some {| sampleRate := 16000 # 1; state := running |})
                  (Some 0%nat) [Num (1 # 2); Num (-1 # 4)])
           {| sampleRate := 16000 # 1; state := running |}); reflexivity.
Defined.

(** X10. In part_000 with an audio context at 16000 Hz, or at a rate
    above 16000 Hz by a factor between [1 + 2^-20] and [2^20], a block
    of up to [2^29] samples between -1 and a float32 value below 1 is
    sent without any wrap-around: every 16-bit value of the chunk is the
    truncation of an entry of the resampled block, which lies between
    the same bounds, and decodes to within one quantization step of
    it. *)
Theorem part_000_chunk_in_range
    (ctx : AudioContext) (session : nat) (inputData : list number) (hi : Q) :
  (forall x, In x inputData -> exists q, x = Num q /\ -1 <= q <= hi) ->
  represented single hi -> hi < 1 ->
  sampleRate ctx == 16000 # 1 \/
  (16000 # 1) * (1048577 # 1048576) <= sampleRate ctx <= (16000 # 1) * 1048576 ->
  (Z.of_nat (length inputData) <= 2 ^ 29)%Z ->
  exists (resampledData : list number) (pcmBlob : Blob) (int16 : list Z),
    resampleBuffer (Some ctx) inputData (16000 # 1) = Some resampledData /\
    part_000_onaudioprocess (Some ctx) (Some session) inputData = Some pcmBlob /\
    decode pcmBlob = Some int16 /\
    Forall2 (fun y v => exists q, y = Num q /\ -1 <= q <= hi /\
                                  v = truncate (q * (32768 # 1)) /\
                                  Qabs (dequantize v - q) < 1 # 32768)
      resampledData int16.
Proof.
  intros Hb Hrep Hhi Hrate Hlen.
  assert (Hone : represented single (-1)) by (split; vm_compute; [reflexivity | discriminate]).
  destruct (resampleBuffer_between (-1) hi ctx inputData (16000 # 1) Hone Hrep Hb
              ltac:(reflexivity) Hrate Hlen) as (output & E & H).
  unfold part_000_onaudioprocess. rewrite E.
  exists output. eexists. eexists. split; [reflexivity|]. split; [reflexivity|].
  split; [apply decode_createBlob|].
  unfold int16_of_samples.
  apply Forall2_map_r with (P := within (-1) hi); [exact H|].
  intros y (q & -> & Hq). exists q.
  split; [reflexivity|]. split; [exact Hq|].
  rewrite sample_value by lra.
  split; [reflexivity | apply dequantize_truncate].
Qed.

Lemma part_000_chunk_in_range_witness :
  exists (resampledData : list number) (pcmBlob : Blob) (int16 : list Z),
    resampleBuffer (Some {| sampleRate := 48000 # 1; state := running |})
      [Num (1 # 2); Num (-1); Num 0] (16000 # 1) = Some resampledData /\
    part_000_onaudioprocess (Some {| sampleRate := 48000 # 1; state := running |})
      (Some 0%nat) [Num (1 # 2); Num (-1); Num 0] = Some pcmBlob /\
    decode pcmBlob = Some int16 /\
    length int16 = length resampledData.
Proof.
  destruct (part_000_chunk_in_range {| sampleRate := 48000 # 1; state := running |}
              0%nat [Num (1 # 2); Num (-1); Num 0] (1 # 2))
    as (resampledData & pcmBlob & int16 & H0 & H1 & H2 & H3).
  - intros x Hx. cbn [In] in Hx.
    destruct Hx as [<-|[<-|[<-|[]]]]; eexists; (split; [reflexivity|]);
      unfold Qle; simpl; lia.
  - split; vm_compute; [reflexivity | discriminate].
  - unfold Qlt; simpl; lia.
  - right. cbn [sampleRate]. unfold Qle; simpl; lia.
  - simpl; lia.
  - exists resampledData, pcmBlob, int16.
    split; [exact H0|]. split; [exact H1|]. split; [exact H2|].
    apply Forall2_length in H3. symmetry. exact H3.
Defined.

End AudioCallbackFacts.

(** ** Transcription line buffer, delay model: what a run keeps *)

Section DelayFurther.
Import JS Browser Page Delay.

Lemma list_ascii_of_string_append (a b : string) :
  list_ascii_of_string (a +:+ b) = list_ascii_of_string a ++ list_ascii_of_string b.
Proof.
  induction a as [|c a IH]; [reflexivity|].
  change (c :: list_ascii_of_string (a +:+ b)
          = c :: (list_ascii_of_string a ++ list_ascii_of_string b)).
  now rewrite IH.
Qed.

Lemma blank_append (a b : string) : blank (a +:+ b) = blank a && blank b.
Proof.
  apply eq_true_iff_eq.
  rewrite andb_true_iff, !blank_spec, list_ascii_of_string_append, forallb_app,
    andb_true_iff.
  reflexivity.
Qed.

Lemma letters_append (a b : string) : letters (a +:+ b) = letters a ++ letters b.
Proof. unfold letters. now rewrite list_ascii_of_string_append, List.filter_app. Qed.

Lemma letters_blank (text : string) : blank text = true -> letters text = [].
Proof.
  rewrite blank_spec. unfold letters.
  induction (list_ascii_of_string text) as [|c l IH]; [reflexivity|].
  cbn [forallb List.filter]. intros H. apply andb_true_iff in H as [Hc Hl].
  rewrite Hc. cbn [negb]. apply IH, Hl.
Qed.

Lemma fold_right_append_end (l : list string) (b x : string) :
  fold_right String.append (b +:+ x) l = fold_right String.append b l +:+ x.
Proof.
  induction l as [|a l IH]; cbn [fold_right]; [reflexivity|].
  now rewrite IH, append_assoc.
Qed.


(** Time passing changes neither what has been said nor the data channel. *)
Lemma advance_keeps (s : App) (t : Z) :
  wf s ->
  said (advance t s) = said s /\
  dataConnection (advance t s) = dataConnection s /\
  translationDelay (advance t s) = translationDelay s.
Proof.
  intros Hwf.
  assert (Hidle : (forall h tm, timers s !! h = Some tm -> t < due tm) ->
                  said (advance t s) = said s /\
                  dataConnection (advance t s) = dataConnection s /\
                  translationDelay (advance t s) = translationDelay s).
  { intros H. rewrite advance_idle by assumption. repeat split. }
  destruct (wf_timers s Hwf) as [He | (h & tm & He & _)].
  - apply Hidle. intros k tm' H. rewrite He, lookup_empty in H. discriminate.
  - destruct (Z.le_gt_cases (due tm) t) as [Hd|Hd].
    + destruct (advance_fires s h tm t Hwf He Hd) as (Hp & Hb & _ & _ & Hdl & Hdc & _).
      split; [|split; assumption].
      unfold said. rewrite Hp, Hb, map_app, fold_right_app.
      cbn [map fold_right]. unfold own_text at 2. cbn [snd speaker text].
      change (String.eqb "You" "You") with true. cbv iota.
      now rewrite append_empty_r.
    + apply Hidle. intros k tm' H. rewrite He in H.
      apply lookup_singleton_Some in H as [_ <-]. lia.
Qed.

Lemma said_handle (s : App) (text : string) :
  wf s ->
  said (handleLocalTranscription text s)
  = if dropped text s then said s else said s +:+ text.
Proof.
  intros Hwf. destruct (dropped text s) eqn:Hd.
  - now rewrite handle_dropped.
  - destruct (handle_accepted s text Hwf Hd) as (Hb & _ & _ & _ & Hp & _).
    unfold said. rewrite Hb, Hp. apply fold_right_append_end.
Qed.

Lemma said_step (s : App) (e : Event) :
  wf s ->
  letters (said (step s e))
  = letters (said s) ++ flat_map letters (fragments [e]).
Proof.
  intros Hwf. destruct (advance_keeps s) with (t := match e with fragment t _ | wait t => t end)
    as (Hs & _); [exact Hwf|].
  destruct e as [t text | t]; cbn [step onmessage fragments flat_map app].
  - rewrite app_nil_r. destruct (truthy text) eqn:Ht.
    + rewrite said_handle by (apply wf_advance, Hwf).
      destruct (dropped text (advance t s)) eqn:Hd.
      * apply dropped_spec in Hd as [Hb _].
        now rewrite (letters_blank text Hb), app_nil_r, Hs.
      * now rewrite letters_append, Hs.
    + destruct text; [|discriminate]. now rewrite app_nil_r, Hs.
  - now rewrite app_nil_r, Hs.
Qed.

(** X11. Apart from white space, nothing the recognition service sends
    is lost or repeated by the line buffer: after any run of fragments
    and waits, the lines committed for the local speaker followed by the
    accumulator spell the fragments received, in order, up to white
    space. *)
Theorem transcript_conserved (events : list Event) (s : App) :
  wf s ->
  letters (said (run events s))
  = letters (said s) ++ flat_map letters (fragments events).
Proof.
  revert s. induction events as [|e events IH]; intros s Hwf.
  - cbn [run fold_left fragments flat_map]. now rewrite app_nil_r.
  - cbn [run fold_left]. fold (run events (step s e)).
    rewrite IH by (apply wf_step, Hwf).
    rewrite said_step by exact Hwf.
    change (e :: events) with ([e] ++ events).
    unfold fragments. rewrite !flat_map_app, <- app_assoc. reflexivity.
Qed.

Lemma transcript_conserved_witness :
  letters (said (run [fragment 0 "a b"; fragment 500 " "; wait 3000; fragment 4000 "c"]
                   initial))
  = list_ascii_of_string "abc".
Proof.
  rewrite (transcript_conserved _ initial wf_initial). reflexivity.
Defined.

End DelayFurther.

Section DelayRelay.
Import JS Browser Page Delay.









End DelayRelay.

Section DelayInvariants.
Import JS Browser Page Delay.

Lemma singleton_nonempty (h : positive) (tm : Timer) :
  ({[h := tm]} : gmap positive Timer) <> ∅.
Proof.
  intros H. apply (f_equal (fun m => m !! h)) in H.
  rewrite lookup_singleton_eq, lookup_empty in H. discriminate.
Qed.

Lemma steady_advance (s : App) (t : Z) :
  wf s -> steady s -> Forall worded (panel s) ->
  steady (advance t s) /\ Forall worded (panel (advance t s)).
Proof.
  intros Hwf Hst Hp.
  assert (Hidle : (forall h tm, timers s !! h = Some tm -> t < due tm) ->
                  steady (advance t s) /\ Forall worded (panel (advance t s))).
  { intros H. rewrite advance_idle by assumption. split; assumption. }
  destruct (wf_timers s Hwf) as [He | (h & tm & He & _)].
  - apply Hidle. intros k tm' H. rewrite He, lookup_empty in H. discriminate.
  - destruct (Z.le_gt_cases (due tm) t) as [Hd|Hd].
    + destruct (advance_fires s h tm t Hwf He Hd) as (Hpan & Hb & Ht & _).
      split; [left; split; assumption|].
      rewrite Hpan. apply Forall_app. split; [exact Hp|].
      constructor; [|constructor].
      destruct Hst as [[_ Hn]|[Hn _]]; [|exact Hn].
      rewrite He in Hn. exfalso. exact (singleton_nonempty h tm Hn).
    + apply Hidle. intros k tm' H. rewrite He in H.
      apply lookup_singleton_Some in H as [_ <-]. lia.
Qed.

Lemma steady_handle (s : App) (text : string) :
  wf s -> steady s ->
  steady (handleLocalTranscription text s) /\
  panel (handleLocalTranscription text s) = panel s.
Proof.
  intros Hwf Hst. destruct (dropped text s) eqn:Hd.
  - rewrite handle_dropped by exact Hd. split; [exact Hst | reflexivity].
  - destruct (handle_accepted s text Hwf Hd) as (Hb & Ht & _ & _ & Hp & _).
    split; [|exact Hp]. right. rewrite Hb, Ht, blank_append.
    split; [|apply singleton_nonempty].
    destruct (blank text) eqn:Hbl; [|apply andb_false_r].
    destruct Hst as [[He _]|[Hn _]]; [|now rewrite Hn].
    exfalso. assert (H : dropped text s = true); [|congruence].
    apply dropped_spec. split; assumption.
Qed.

Lemma steady_step (s : App) (e : Event) :
  wf s -> steady s -> Forall worded (panel s) ->
  steady (step s e) /\ Forall worded (panel (step s e)).
Proof.
  intros Hwf Hst Hp.
  destruct e as [t text | t]; cbn [step onmessage]; [|apply steady_advance; assumption].
  destruct (steady_advance s t Hwf Hst Hp) as [Hst' Hp'].
  destruct (truthy text); [|split; assumption].
  destruct (steady_handle (advance t s) text (wf_advance s t Hwf) Hst') as [H1 H2].
  split; [exact H1 | rewrite H2; exact Hp'].
Qed.

Lemma steady_run (events : list Event) (s : App) :
  wf s -> steady s -> Forall worded (panel s) ->
  wf (run events s) /\ steady (run events s) /\ Forall worded (panel (run events s)).
Proof.
  revert s. induction events as [|e events IH]; intros s Hwf Hst Hp.
  - split; [exact Hwf|]. split; assumption.
  - cbn [run fold_left]. fold (run events (step s e)).
    destruct (steady_step s e Hwf Hst Hp) as [Hst' Hp'].
    apply IH; [apply wf_step, Hwf | exact Hst' | exact Hp'].
Qed.

(** X14. The line buffer never commits a blank line. From a state at
    rest, or waiting to commit text that is not blank, every line a run
    of fragments and waits adds to the panel has text that is not blank:
    the guard on the first fragment keeps white space from starting a
    line. *)
Theorem no_blank_line_committed (events : list Event) (s : App) :
  wf s -> steady s -> Forall worded (panel s) ->
  Forall worded (panel (run events s)).
Proof.
  revert s. induction events as [|e events IH]; intros s Hwf Hst Hp; [exact Hp|].
  cbn [run fold_left]. fold (run events (step s e)).
  destruct (steady_step s e Hwf Hst Hp) as [Hst' Hp'].
  apply IH; [apply wf_step, Hwf | exact Hst' | exact Hp'].
Qed.

Lemma no_blank_line_committed_witness :
  Forall worded
    (panel (run [fragment 0 " "; fragment 100 "a"; fragment 200 " "; wait 5000;
                 fragment 6000 " "; wait 9000] initial)).
Proof.
  apply no_blank_line_committed.
  - apply wf_initial.
  - left. split; reflexivity.
  - constructor.
Defined.

(** X15. The states the line buffer reaches from the loaded page: after
    any run of fragments and waits, either the accumulator is empty and
    no timeout is pending, or exactly one timeout is pending, it is the
    one [localTranscriptionTimer] holds, it is due within one delay, and
    the line it will commit is the whole accumulator, which is not
    blank. *)
Theorem line_buffer_states (events : list Event) :
  let s := run events initial in
  (localTranscriptionBuffer s = "" /\ timers s = ∅) \/
  (exists (h : positive) (tm : Timer),
      timers s = {[h := tm]} /\
      localTranscriptionTimer s = Some h /\
      lineToTranslate tm = localTranscriptionBuffer s /\
      blank (localTranscriptionBuffer s) = false /\
      due tm <= now s + Z.max 0 (translationDelay s)).
Proof.
  intros s.
  destruct (steady_run events initial wf_initial) as (Hwf & Hst & _);
    [left; split; reflexivity | constructor |].
  fold s in Hwf, Hst.
  destruct Hst as [H|[Hb Hn]]; [left; exact H|]. right.
  destruct (wf_timers s Hwf) as [He | (h & tm & He & Hh & Hl & Hd)]; [contradiction|].
  exists h, tm. repeat split; assumption.
Qed.

End DelayInvariants.

(** ** The receiving side of the data channel *)

Section ChannelFacts.
Import JS Browser Page Delay Channel.

Lemma ondata_keeps (data : Data) (s : App) :
  localTranscriptionBuffer (ondata data s) = localTranscriptionBuffer s /\
  localTranscriptionTimer (ondata data s) = localTranscriptionTimer s /\
  timers (ondata data s) = timers s /\
  nextTimer (ondata data s) = nextTimer s /\
  dataConnection (ondata data s) = dataConnection s /\
  now (ondata data s) = now s /\
  translationDelay (ondata data s) = translationDelay s.
Proof. destruct data as [[text | n]|]; repeat split. Qed.

Lemma said_Participant (s : App) (text : string) :
  said (appendAndTranslate text "Participant" s) = said s.
Proof.
  unfold said. cbn [appendAndTranslate panel localTranscriptionBuffer].
  rewrite map_app, fold_right_app. reflexivity.
Qed.

(** X16. Receiving is not buffered: every transcription message that
    arrives on the data channel becomes a line of its own, attributed to
    the participant, in the order of arrival, and name messages add no
    line. Receiving never touches the local line buffer: the
    accumulator, the pending timeout, the data connection and what the
    local speaker has said stay as they were. *)
Theorem deliver_appends_lines (messages : list Message) (s : App) :
  let s' := deliver messages s in
  panel s'
  = panel s ++ map (fun text => (now s, {| speaker := "Participant"; text := text |}))
                 (transcriptions messages) /\
  localTranscriptionBuffer s' = localTranscriptionBuffer s /\
  timers s' = timers s /\
  localTranscriptionTimer s' = localTranscriptionTimer s /\
  dataConnection s' = dataConnection s /\
  said s' = said s.
Proof.
  revert s. induction messages as [|m messages IH]; intros s.
  - cbn zeta. cbn [deliver fold_left transcriptions map]. rewrite app_nil_r.
    repeat split.
  - cbn [deliver fold_left]. fold (deliver messages (ondata (message m) s)).
    specialize (IH (ondata (message m) s)). cbn zeta in IH.
    destruct IH as (Hp & Hb & Ht & Hh & Hd & Hs).
    destruct (ondata_keeps (message m) s) as (Kb & Kh & Kt & _ & Kd & Know & _).
    cbn zeta. rewrite Hp, Hb, Ht, Hh, Hd, Hs, Kb, Kh, Kt, Kd, Know.
    split; [|split; [reflexivity|]; split; [reflexivity|]; split; [reflexivity|];
             split; [reflexivity|]].
    + destruct m as [text | n]; cbn [ondata appendAndTranslate panel transcriptions map].
      * rewrite <- app_assoc. reflexivity.
      * reflexivity.
    + destruct m as [text | n]; [apply said_Participant | reflexivity].
Qed.

End ChannelFacts.

(** ** Teardown: tracks and the pending commit *)

Section TeardownFurther.
Import JS Browser Page Delay.

Lemma stop_lookup (t t' : TrackId) (store : TrackStore) :
  stop t store !! t' = if decide (t = t') then stopped <$> store !! t' else store !! t'.
Proof.
  unfold stop. destruct (decide (t = t')) as [<-|Hne].
  - destruct (store !! t) as [tr|] eqn:E; [|now rewrite E].
    apply lookup_insert_eq.
  - destruct (store !! t) as [tr|]; [|reflexivity].
    apply lookup_insert_ne. exact Hne.
Qed.

Lemma stopped_twice (x : option Track) : stopped <$> (stopped <$> x) = stopped <$> x.
Proof. destruct x as [[]|]; reflexivity. Qed.

Lemma stop_all_lookup (stream : MediaStream) (store : TrackStore) (t : TrackId) :
  stop_all stream store !! t
  = if in_dec Nat.eq_dec t stream then stopped <$> store !! t else store !! t.
Proof.
  revert store. induction stream as [|a stream IH]; intros store; [reflexivity|].
  cbn [stop_all fold_left]. fold (stop_all stream (stop a store)).
  rewrite IH, stop_lookup.
  destruct (decide (a = t)) as [->|Hne].
  - destruct (in_dec Nat.eq_dec t (t :: stream)) as [_|Hout'];
      [|exfalso; apply Hout'; left; reflexivity].
    destruct (in_dec Nat.eq_dec t stream); [apply stopped_twice | reflexivity].
  - destruct (in_dec Nat.eq_dec t stream) as [Hin|Hout],
             (in_dec Nat.eq_dec t (a :: stream)) as [Hin'|Hout']; try reflexivity.
    + exfalso. apply Hout'. right. exact Hin.
    + destruct Hin' as [Heq|Hin']; [congruence | contradiction].
Qed.

Lemma stop_all_in (stream : MediaStream) (store : TrackStore) (t : TrackId) :
  In t stream -> stop_all stream store !! t = stopped <$> store !! t.
Proof.
  intros H. rewrite stop_all_lookup.
  destruct (in_dec Nat.eq_dec t stream); [reflexivity | contradiction].
Qed.

Lemma stop_all_out (stream : MediaStream) (store : TrackStore) (t : TrackId) :
  ~ In t stream -> stop_all stream store !! t = store !! t.
Proof.
  intros H. rewrite stop_all_lookup.
  destruct (in_dec Nat.eq_dec t stream); [contradiction | reflexivity].
Qed.

(** X17. Teardown in index.js releases the capture: every track of the
    capture stream is stopped, keeping its kind, its enabled flag and its
    source; no other track object is touched; and the first external
    calls of the teardown are the [stop] of those tracks, in the order of
    the stream. *)
Theorem reset_releases_capture (s : App) (stream : MediaStream) :
  mediaStream s = Some stream ->
  let s' := IndexJs.resetApplicationState s in
  (forall t, In t stream -> tracks s' !! t = stopped <$> tracks s !! t) /\
  (forall t, ~ In t stream -> tracks s' !! t = tracks s !! t) /\
  (exists rest, calls s' = calls s ++ map track_stop stream ++ rest) /\
  mediaStream s' = None.
Proof.
  intros Hm. cbn zeta.
  unfold IndexJs.resetApplicationState, IndexJs.teardown_calls.
  cbn [tracks calls mediaStream]. rewrite Hm.
  split; [intros t Ht; apply stop_all_in, Ht|].
  split; [intros t Ht; apply stop_all_out, Ht|].
  split; [eexists; reflexivity | reflexivity].
Qed.

Lemma reset_releases_capture_witness :
  let s := Part000.requestMediaPermissions initial in
  readyState <$> (tracks s !! 0%nat) = Some live /\
  readyState <$> (tracks (IndexJs.resetApplicationState s) !! 0%nat) = Some ended.
Proof.
  intros s. split; [reflexivity|].
  destruct (reset_releases_capture s [0%nat; 1%nat]) as (H & _); [reflexivity|].
  pose proof (H 0%nat (or_introl eq_refl)) as H0.
  exact (eq_trans (f_equal (fmap readyState) H0) eq_refl).
Defined.

(** X18. Teardown in index.js cancels the pending commit: after
    [endMeeting] no timeout is pending and the accumulator is empty, so
    however much time passes no line appears on the emptied panel. *)
Theorem index_teardown_cancels_commit (s : App) :
  wf s ->
  let s' := IndexJs.endMeeting s in
  timers s' = ∅ /\
  localTranscriptionBuffer s' = "" /\
  wf s' /\
  forall t, panel (advance t s') = [] /\ localTranscriptionBuffer (advance t s') = "".
Proof.
  intros Hwf s'.
  assert (Ht : timers s' = ∅) by apply (clearTimeout_held s Hwf).
  assert (Hwf' : wf s').
  { split.
    - intros h tm H. rewrite Ht, lookup_empty in H. discriminate.
    - intros h H. discriminate. }
  split; [exact Ht|]. split; [reflexivity|]. split; [exact Hwf'|].
  intros t. rewrite advance_idle; [split; reflexivity | exact Hwf' |].
  intros h tm H. rewrite Ht, lookup_empty in H. discriminate.
Qed.

Lemma index_teardown_cancels_commit_witness :
  let s := handleLocalTranscription "a" initial in
  panel (advance 2000 s) = [(2000, {| speaker := "You"; text := "a" |})] /\
  panel (advance 2000 (IndexJs.endMeeting s)) = [].
Proof.
  cbn zeta. split; [reflexivity|].
  apply (index_teardown_cancels_commit (handleLocalTranscription "a" initial)).
  apply wf_handle, wf_initial.
Defined.

(** X19. Teardown in part_000 does not cancel the pending commit:
    [endMeeting] empties the panel and leaves the timeout and the
    accumulator as they are, so a line spoken just before the end is
    committed to the panel of the idle page when its timeout is due. *)
Theorem part_000_teardown_leaves_commit
    (s : App) (h : positive) (tm : Timer) (t : Z) :
  wf s -> isMeetingActive s = true -> timers s = {[h := tm]} -> due tm <= t ->
  let s' := Part000.endMeeting s in
  status s' = "idle" /\
  isMeetingActive s' = false /\
  panel s' = [] /\
  timers s' = timers s /\
  panel (advance t s')
  = [(Z.max (now s) (due tm),
      {| speaker := "You"; text := localTranscriptionBuffer s |})].
Proof.
  intros Hwf Ha Ht Hd s'.
  assert (Hs : s' = Part000.endMeeting s) by reflexivity.
  unfold Part000.endMeeting in Hs. rewrite Ha in Hs. cbn [negb] in Hs. cbv zeta in Hs.
  assert (Hwf' : wf s').
  { rewrite Hs. destruct Hwf as [H1 H2]. split; [exact H1 | exact H2]. }
  assert (Ht' : timers s' = {[h := tm]}) by (rewrite Hs; exact Ht).
  destruct (advance_fires s' h tm t Hwf' Ht' Hd) as (Hp & _).
  rewrite Hp, Ht'. rewrite Hs. cbn [panel now localTranscriptionBuffer Part000.resetUI].
  repeat split; try reflexivity. symmetry. exact Ht.
Qed.

Lemma part_000_teardown_leaves_commit_witness :
  let s := handleLocalTranscription "bye"
             (Part000.startMeeting false (48000 # 1) true
                (Part000.requestMediaPermissions initial)) in
  panel (advance 2000 (Part000.endMeeting s))
  = [(2000, {| speaker := "You"; text := "bye" |})].
Proof.
  intros s.
  refine (proj2 (proj2 (proj2 (proj2
            (part_000_teardown_leaves_commit s 1%positive
               {| due := 2000; lineToTranslate := "bye" |} 2000 _ _ _ _))))).
  - apply wf_handle. split.
    + intros h tm H. vm_compute in H. discriminate.
    + intros h H. vm_compute in H. discriminate.
  - reflexivity.
  - reflexivity.
  - reflexivity.
Defined.

(** X20. Teardown of a meeting in progress in part_000 stops the tracks
    of both streams, the capture stream and the stream holding the
    cloned audio track, and touches no other track object. *)
Theorem part_000_endMeeting_stops_both_streams
    (s : App) (capture recognition : MediaStream) :
  isMeetingActive s = true ->
  mediaStream s = Some capture -> geminiMediaStream s = Some recognition ->
  let s' := Part000.endMeeting s in
  (forall t, In t (capture ++ recognition) ->
     tracks s' !! t = stopped <$> tracks s !! t) /\
  (forall t, ~ In t (capture ++ recognition) -> tracks s' !! t = tracks s !! t) /\
  mediaStream s' = None /\ geminiMediaStream s' = None.
Proof.
  intros Ha Hm Hg. cbn zeta. unfold Part000.endMeeting.
  rewrite Ha. cbn [negb]. cbv zeta.
  cbn [Part000.resetUI tracks mediaStream geminiMediaStream]. rewrite Hm, Hg.
  split; [|split; [|split; reflexivity]].
  - intros t Ht. apply in_app_or in Ht.
    destruct (in_dec Nat.eq_dec t recognition) as [Hr|Hr].
    + rewrite stop_all_in by exact Hr.
      destruct (in_dec Nat.eq_dec t capture) as [Hc|Hc].
      * rewrite stop_all_in by exact Hc. apply stopped_twice.
      * rewrite stop_all_out by exact Hc. reflexivity.
    + rewrite stop_all_out by exact Hr.
      destruct Ht as [Hc|Hc]; [|contradiction].
      apply stop_all_in, Hc.
  - intros t Ht.
    rewrite stop_all_out by (intros H; apply Ht, in_or_app; right; exact H).
    apply stop_all_out. intros H. apply Ht, in_or_app. left. exact H.
Qed.

Lemma part_000_endMeeting_stops_both_streams_witness :
  let s := Part000.startMeeting false (48000 # 1) true
             (Part000.requestMediaPermissions initial) in
  geminiMediaStream s = Some [2%nat] /\
  readyState <$> (tracks s !! 2%nat) = Some live /\
  readyState <$> (tracks (Part000.endMeeting s) !! 2%nat) = Some ended.
Proof.
  intros s. split; [reflexivity|]. split; [reflexivity|].
  destruct (part_000_endMeeting_stops_both_streams s [0%nat; 1%nat] [2%nat])
    as (H & _); [reflexivity | reflexivity | reflexivity |].
  pose proof (H 2%nat (or_intror (or_intror (or_introl eq_refl)))) as H2.
  exact (eq_trans (f_equal (fmap readyState) H2) eq_refl).
Defined.

End TeardownFurther.

(** ** Push-to-talk: the gate, the processor and the relay *)

Section PushToTalkFurther.
Import JS Browser Page.






Lemma commit_blank (buffer : string) :
  (0 <? String.length (trim buffer))%nat = negb (blank buffer).
Proof. unfold blank. destruct (trim buffer); reflexivity. Qed.

Lemma mirror_step (s : PushToTalk.App) (e : PushToTalk.Event) (dc : DataConnection) :
  PushToTalk.dataConnection s = Some dc -> open dc = true ->
  exists (dc' : DataConnection) (lines : list string),
    PushToTalk.dataConnection (PushToTalk.step s e) = Some dc' /\
    open dc' = true /\
    sent dc' = sent dc ++ map transcription lines /\
    PushToTalk.panel (PushToTalk.step s e)
    = PushToTalk.panel s ++ map (fun t => {| speaker := "You"; text := t |}) lines /\
    Forall (fun t => blank t = false) lines.
Proof.
  intros Hdc Hopen.
  assert (Hsame : exists (dc' : DataConnection) (lines : list string),
             PushToTalk.dataConnection s = Some dc' /\
             open dc' = true /\
             sent dc' = sent dc ++ map transcription lines /\
             PushToTalk.panel s
             = PushToTalk.panel s ++ map (fun t => {| speaker := "You"; text := t |}) lines /\
             Forall (fun t => blank t = false) lines).
  { exists dc, []. cbn [map]. rewrite !app_nil_r. repeat split; try assumption.
    constructor. }
  destruct e as [| |text]; cbn [PushToTalk.step].
  - unfold PushToTalk.startTranscribing.
    destruct (PushToTalk.scriptProcessor s); [|exact Hsame].
    destruct (PushToTalk.audioContext s); [|exact Hsame].
    destruct (negb (PushToTalk.isMeetingActive s) || PushToTalk.isTalking s);
      exact Hsame.
  - unfold PushToTalk.stopTranscribing.
    destruct (PushToTalk.scriptProcessor s); [|exact Hsame].
    destruct (negb (PushToTalk.isMeetingActive s) || negb (PushToTalk.isTalking s));
      [exact Hsame|].
    cbv zeta. rewrite commit_blank.
    cbn [PushToTalk.dataConnection PushToTalk.panel].
    destruct (blank (PushToTalk.localTranscriptionBuffer s)) eqn:Eb; cbn [negb];
      [exact Hsame|].
    exists (send (transcription (PushToTalk.localTranscriptionBuffer s)) dc),
           [PushToTalk.localTranscriptionBuffer s].
    rewrite Hdc. cbn [send_if_open]. rewrite Hopen.
    split; [reflexivity|]. split; [exact Hopen|]. split; [reflexivity|].
    split; [reflexivity|]. constructor; [exact Eb | constructor].
  - unfold PushToTalk.onmessage, PushToTalk.handleLocalTranscription.
    destruct (truthy text); [|exact Hsame].
    destruct (negb (PushToTalk.isTalking s)); exact Hsame.
Qed.

(** X22. In the push-to-talk model, while the data channel is open, the
    peer is sent exactly the lines the local panel gets: every line
    committed at a release is sent as one message with the same text, in
    the same order, nothing else is sent, and none of these lines is
    blank. *)
Theorem push_to_talk_relay_mirrors_panel
    (events : list PushToTalk.Event) (s : PushToTalk.App) (dc : DataConnection) :
  PushToTalk.dataConnection s = Some dc -> open dc = true ->
  exists (dc' : DataConnection) (lines : list string),
    PushToTalk.dataConnection (PushToTalk.run events s) = Some dc' /\
    open dc' = true /\
    sent dc' = sent dc ++ map transcription lines /\
    PushToTalk.panel (PushToTalk.run events s)
    = PushToTalk.panel s ++ map (fun t => {| speaker := "You"; text := t |}) lines /\
    Forall (fun t => blank t = false) lines.
Proof.
  revert s dc. induction events as [|e events IH]; intros s dc Hdc Hopen.
  - exists dc, []. cbn [PushToTalk.run fold_left map]. rewrite !app_nil_r.
    repeat split; try assumption. constructor.
  - cbn [PushToTalk.run fold_left]. fold (PushToTalk.run events (PushToTalk.step s e)).
    destruct (mirror_step s e dc Hdc Hopen) as (dc1 & l1 & Hdc1 & Ho1 & Hs1 & Hp1 & Hb1).
    destruct (IH (PushToTalk.step s e) dc1 Hdc1 Ho1)
      as (dc2 & l2 & Hdc2 & Ho2 & Hs2 & Hp2 & Hb2).
    exists dc2, (l1 ++ l2).
    split; [exact Hdc2|]. split; [exact Ho2|].
    split; [rewrite Hs2, Hs1, map_app, app_assoc; reflexivity|].
    split; [rewrite Hp2, Hp1, map_app, app_assoc; reflexivity|].
    apply Forall_app. split; assumption.
Qed.

Lemma push_to_talk_relay_mirrors_panel_witness :
  let events := [PushToTalk.press; PushToTalk.fragment "one"; PushToTalk.release;
                 PushToTalk.press; PushToTalk.fragment " "; PushToTalk.release;
                 PushToTalk.press; PushToTalk.fragment "two"; PushToTalk.release] in
  exists (dc' : DataConnection) (lines : list string),
    PushToTalk.dataConnection (PushToTalk.run events PushToTalk.ready) = Some dc' /\
    open dc' = true /\
    sent dc' = [] ++ map transcription lines /\
    PushToTalk.panel (PushToTalk.run events PushToTalk.ready)
    = [] ++ map (fun t => {| speaker := "You"; text := t |}) lines /\
    Forall (fun t => blank t = false) lines.
Proof.
  intros events.
  apply (push_to_talk_relay_mirrors_panel events PushToTalk.ready
           {| open := true; sent := [] |}); reflexivity.
Defined.

End PushToTalkFurther.

(** ** part_002: teardown once the capture exists, and the switches *)

Section Part002Facts.
Import JS Browser Page Delay.

(** X23. In part_002 [endMeeting] tears down as soon as the capture
    stream exists, whether or not the meeting became active: the status
    is ['idle'], every handle is dropped, the transcription setup flag is
    lowered, the tracks of the capture stream are stopped, and a second
    call changes nothing. *)
Theorem part_002_endMeeting_with_capture (a : Part002.App) (stream : MediaStream) :
  mediaStream (Part002.base a) = Some stream ->
  let a' := Part002.endMeeting a in
  status (Part002.base a') = "idle" /\
  isMeetingActive (Part002.base a') = false /\
  mediaStream (Part002.base a') = None /\
  sessionPromise (Part002.base a') = None /\
  scriptProcessor (Part002.base a') = None /\
  dataConnection (Part002.base a') = None /\
  peer (Part002.base a') = None /\
  Part002.isTranscriptionSetup a' = false /\
  (forall t, In t stream ->
     tracks (Part002.base a') !! t = stopped <$> tracks (Part002.base a) !! t) /\
  Part002.endMeeting a' = a'.
Proof.
  intros Hm a'.
  assert (Ha : a' = Part002.endMeeting a) by reflexivity.
  unfold Part002.endMeeting in Ha. rewrite Hm in Ha. cbv zeta in Ha.
  assert (Ha' : a' =
    {| Part002.base :=
         Part000.resetUI
           {| isMeetingActive := false; sessionPromise := None; mediaStream := None;
              geminiMediaStream := geminiMediaStream (Part002.base a);
              peerMediaStream := None;
              audioContext := match audioContext (Part002.base a) with
                              | Some ctx => match state ctx with
                                            | closed => Some ctx
                                            | _ => None
                                            end
                              | None => None
                              end;
              scriptProcessor := None;
              translationDelay := translationDelay (Part002.base a);
              peer := None; dataConnection := None;
              meetingId := meetingId (Part002.base a);
              remoteName := remoteName (Part002.base a);
              localTranscriptionBuffer := localTranscriptionBuffer (Part002.base a);
              localTranscriptionTimer := localTranscriptionTimer (Part002.base a);
              tracks := stop_all stream (tracks (Part002.base a));
              timers := timers (Part002.base a);
              nextTimer := nextTimer (Part002.base a);
              now := now (Part002.base a);
              status := status (Part002.base a);
              panel := panel (Part002.base a);
              calls := calls (Part002.base a) ++ Part002.teardown_calls (Part002.base a) |};
       Part002.isTranscriptionSetup := false |}).
  { rewrite Ha. destruct (isMeetingActive (Part002.base a)); reflexivity. }
  clear Ha. rewrite Ha'.
  repeat (split; [reflexivity|]).
  split; [intros t Ht; apply stop_all_in, Ht | reflexivity].
Qed.

Lemma part_002_endMeeting_with_capture_witness :
  let a := {| Part002.base := IndexJs.showError (Part000.requestMediaPermissions initial);
              Part002.isTranscriptionSetup := false |} in
  status (Part002.base a) = "error" /\
  status (Part002.base (Part002.endMeeting a)) = "idle".
Proof.
  intros a. split; [reflexivity|].
  apply (part_002_endMeeting_with_capture a [0%nat; 1%nat]). reflexivity.
Defined.

Lemma flipped_twice (x : option Track) : flipped <$> (flipped <$> x) = x.
Proof. destruct x as [[k [] r d]|]; reflexivity. Qed.

Lemma toggle_lookup (st : TrackStore * bool) (t t' : TrackId) :
  (Part002.toggle st t).1 !! t'
  = if decide (t = t') then flipped <$> st.1 !! t' else st.1 !! t'.
Proof.
  unfold Part002.toggle.
  destruct (decide (t = t')) as [<-|Hne].
  - destruct (st.1 !! t) as [tr|] eqn:E; [|now rewrite E].
    cbn [fst]. unfold set_enabled. rewrite E. apply lookup_insert_eq.
  - destruct (st.1 !! t) as [tr|] eqn:E; [|reflexivity].
    cbn [fst]. unfold set_enabled. rewrite E. apply lookup_insert_ne. exact Hne.
Qed.

Lemma toggles_lookup (l : list TrackId) :
  NoDup l ->
  forall (st : TrackStore * bool) (t : TrackId),
    (fold_left Part002.toggle l st).1 !! t
    = if in_dec Nat.eq_dec t l then flipped <$> st.1 !! t else st.1 !! t.
Proof.
  induction 1 as [|a l Ha Hl IH]; intros st t; [reflexivity|].
  cbn [fold_left]. rewrite IH, toggle_lookup.
  assert (Ha' : ~ In a l) by (intros H; apply Ha, list_elem_of_In, H).
  destruct (decide (a = t)) as [->|Hne].
  - destruct (in_dec Nat.eq_dec t (t :: l)) as [_|Hout];
      [|exfalso; apply Hout; left; reflexivity].
    destruct (in_dec Nat.eq_dec t l); [contradiction | reflexivity].
  - destruct (in_dec Nat.eq_dec t l) as [Hin|Hout],
             (in_dec Nat.eq_dec t (a :: l)) as [Hin'|Hout']; try reflexivity.
    + exfalso. apply Hout'. right. exact Hin.
    + destruct Hin' as [Heq|Hin']; [congruence | contradiction].
Qed.

Lemma toggles_kind (l : list TrackId) (k : TrackKind) (st : TrackStore * bool) :
  NoDup l ->
  forall t, is_kind k (fold_left Part002.toggle l st).1 t = is_kind k st.1 t.
Proof.
  intros Hl t. unfold is_kind. rewrite (toggles_lookup l Hl).
  destruct (in_dec Nat.eq_dec t l); [|reflexivity].
  destruct (st.1 !! t) as [[]|]; reflexivity.
Qed.

Lemma toggles_twice (l : list TrackId) (st : TrackStore * bool) :
  NoDup l ->
  (fold_left Part002.toggle l (fold_left Part002.toggle l st)).1 = st.1.
Proof.
  intros Hl. apply map_eq. intros t. rewrite !(toggles_lookup l Hl).
  destruct (in_dec Nat.eq_dec t l); [apply flipped_twice | reflexivity].
Qed.

Lemma toggles_face (l : list TrackId) (b : bool) :
  NoDup l -> l <> [] ->
  forall st : TrackStore * bool,
    (forall t, In t l -> exists tr, st.1 !! t = Some tr /\ enabled tr = b) ->
    (fold_left Part002.toggle l st).2 = b.
Proof.
  induction 1 as [|a l Ha Hl IH]; intros Hne st Hall; [congruence|].
  cbn [fold_left].
  destruct (Hall a (or_introl eq_refl)) as (tr & Htr & Hb).
  destruct l as [|a' l'].
  - cbn [fold_left]. unfold Part002.toggle. rewrite Htr. exact Hb.
  - apply IH; [discriminate|]. intros t Ht.
    destruct (Hall t (or_intror Ht)) as (tr' & Htr' & Hb').
    exists tr'. split; [|exact Hb'].
    rewrite toggle_lookup.
    destruct (decide (a = t)) as [->|_]; [|exact Htr'].
    exfalso. apply Ha, list_elem_of_In, Ht.
Qed.

Lemma NoDup_filter_bool (f : TrackId -> bool) (l : list TrackId) :
  NoDup l -> NoDup (List.filter f l).
Proof.
  induction 1 as [|a l Ha Hl IH]; cbn [List.filter]; [constructor|].
  destruct (f a); [|exact IH].
  constructor; [|exact IH].
  intros H. apply Ha. apply list_elem_of_In in H. apply filter_In in H as [H _].
  apply list_elem_of_In, H.
Qed.

(** The switch over the tracks of one kind. *)
Lemma switch_flips (k : TrackKind) (stream : MediaStream) (store : TrackStore)
    (face : bool) :
  NoDup stream ->
  let l := List.filter (is_kind k store) stream in
  let st' := fold_left Part002.toggle l (store, face) in
  (forall t, In t l -> st'.1 !! t = flipped <$> store !! t) /\
  (forall t, ~ In t l -> st'.1 !! t = store !! t) /\
  List.filter (is_kind k st'.1) stream = l /\
  (fold_left Part002.toggle l st').1 = store /\
  (forall b, l <> [] ->
     (forall t tr, In t l -> store !! t = Some tr -> enabled tr = b) ->
     st'.2 = b).
Proof.
  intros Hs l st'.
  assert (Hl : NoDup l) by apply NoDup_filter_bool, Hs.
  split; [|split; [|split; [|split]]].
  - intros t Ht. unfold st'. rewrite (toggles_lookup l Hl). cbn [fst].
    destruct (in_dec Nat.eq_dec t l); [reflexivity | contradiction].
  - intros t Ht. unfold st'. rewrite (toggles_lookup l Hl). cbn [fst].
    destruct (in_dec Nat.eq_dec t l); [contradiction | reflexivity].
  - apply filter_ext. intros t. unfold st'. apply (toggles_kind l k (store, face) Hl).
  - unfold st'. apply (toggles_twice l (store, face) Hl).
  - intros b Hne Hb. unfold st'. apply (toggles_face l b Hl Hne). cbn [fst].
    intros t Ht. pose proof Ht as Hk. apply filter_In in Hk as [_ Hk].
    unfold is_kind in Hk. destruct (store !! t) as [tr|] eqn:E; [|discriminate].
    exists tr. split; [reflexivity|]. apply (Hb t tr Ht E).
Qed.

(** X24. The microphone switch of part_002 flips the enabled flag of
    every audio track of the capture stream and of nothing else, video
    tracks included; pressing it twice restores every track object; and
    when the audio tracks agree on their flag, as the single microphone
    track does, the switch shows its muted face exactly when it has just
    disabled them. The camera switch does the same on the video tracks. *)
Theorem switches_flip_their_tracks
    (stream : MediaStream) (store : TrackStore) (face : bool) :
  NoDup stream ->
  let mic := Part002.toggleMicrophone (Some stream) (store, face) in
  let cam := Part002.toggleCamera (Some stream) (store, face) in
  ((forall t, In t (getAudioTracks store stream) -> mic.1 !! t = flipped <$> store !! t) /\
   (forall t, ~ In t (getAudioTracks store stream) -> mic.1 !! t = store !! t) /\
   (Part002.toggleMicrophone (Some stream) mic).1 = store /\
   (forall b, getAudioTracks store stream <> [] ->
      (forall t tr, In t (getAudioTracks store stream) -> store !! t = Some tr ->
                    enabled tr = b) ->
      mic.2 = b)) /\
  ((forall t, In t (getVideoTracks store stream) -> cam.1 !! t = flipped <$> store !! t) /\
   (forall t, ~ In t (getVideoTracks store stream) -> cam.1 !! t = store !! t) /\
   (Part002.toggleCamera (Some stream) cam).1 = store /\
   (forall b, getVideoTracks store stream <> [] ->
      (forall t tr, In t (getVideoTracks store stream) -> store !! t = Some tr ->
                    enabled tr = b) ->
      cam.2 = b)).
Proof.
  intros Hs mic cam. split.
  - destruct (switch_flips audio stream store face Hs) as (H1 & H2 & H3 & H4 & H5).
    split; [exact H1|]. split; [exact H2|]. split; [|exact H5].
    unfold Part002.toggleMicrophone, getAudioTracks. fold mic.
    unfold mic, Part002.toggleMicrophone, getAudioTracks. cbn [fst].
    rewrite H3. exact H4.
  - destruct (switch_flips video stream store face Hs) as (H1 & H2 & H3 & H4 & H5).
    split; [exact H1|]. split; [exact H2|]. split; [|exact H5].
    unfold cam, Part002.toggleCamera, getVideoTracks. cbn [fst].
    rewrite H3. exact H4.
Qed.

Lemma switches_flip_their_tracks_witness :
  let mic := Part002.toggleMicrophone (Some [0%nat; 1%nat]) (captured, false) in
  enabled <$> (mic.1 !! 0%nat) = Some false /\
  enabled <$> (mic.1 !! 1%nat) = Some true /\
  mic.2 = true.
Proof.
  intros mic.
  destruct (switches_flip_their_tracks [0%nat; 1%nat] captured false)
    as ((H1 & H2 & _ & H4) & _).
  - repeat constructor; cbn; intros H; apply list_elem_of_In in H; cbn in H; intuition lia.
  - split; [|split].
    + exact (eq_trans (f_equal (fmap enabled) (H1 0%nat (or_introl eq_refl))) eq_refl).
    + refine (eq_trans (f_equal (fmap enabled) (H2 1%nat _)) eq_refl).
      vm_compute. intros [H|[]]. discriminate.
    + apply H4; [discriminate|].
      intros t tr Ht Htr. vm_compute in Ht. destruct Ht as [<-|[]].
      vm_compute in Htr. injection Htr as <-. reflexivity.
Defined.

End Part002Facts.

(** ** part_000: a meeting from start to end *)

Section Part000Lifecycle.
Import JS Browser Page Delay Splitter.

Lemma stopped_ended (x : option Track) (tr : Track) :
  stopped <$> x = Some tr -> readyState tr = ended.
Proof. destruct x as [tr'|]; [|discriminate]. intros [= <-]. reflexivity. Qed.

(** What [startMeeting] of part_000 leaves when the capture stream holds
    an audio and a video track and the recognition session connects. *)
Lemma part_000_started (isJoining : bool) (contextRate : Q) (s : App)
    (stream : MediaStream) :
  mediaStream s = Some stream ->
  getAudioTracks (tracks s) stream <> [] ->
  getVideoTracks (tracks s) stream <> [] ->
  exists (original cloned : TrackId) (tr : Track),
    let s1 := Part000.startMeeting isJoining contextRate true s in
    head (getAudioTracks (tracks s) stream) = Some original /\
    tracks s !! original = Some tr /\
    tracks s !! cloned = None /\
    isMeetingActive s1 = true /\
    mediaStream s1 = Some stream /\
    geminiMediaStream s1 = Some [cloned] /\
    peerMediaStream s1 = Some (getVideoTracks (tracks s) stream ++ [original]) /\
    tracks s1 = <[cloned := tr]> (tracks s) /\
    peer s1 = Some {| id := if isJoining then None else meetingId s;
                      destroyed := false |} /\
    scriptProcessor s1 = Some true /\
    panel s1 = [].
Proof.
  intros Hm Ha Hv.
  destruct (getAudioTracks (tracks s) stream) as [|a arest] eqn:Ea; [congruence|].
  destruct (getVideoTracks (tracks s) stream) as [|v vrest] eqn:Ev; [congruence|].
  assert (Hin : In a (getAudioTracks (tracks s) stream)) by (rewrite Ea; left; reflexivity).
  apply filter_In in Hin as [_ Hk].
  destruct (is_kind_lookup _ _ _ Hk) as [tr Htr].
  exists a, (fresh_id (tracks s)), tr. cbv zeta.
  split; [reflexivity|]. split; [exact Htr|].
  split; [apply fresh_id_unused|].
  unfold Part000.startMeeting.
  cbn [Part000.clear_panel mediaStream tracks]. rewrite Hm.
  unfold part_000_feeds. rewrite Ea, Ev. unfold clone. rewrite Htr.
  cbn -[fresh_id].
  repeat split. exact Hm.
Qed.

(** X25. A meeting of part_000 from start to end. When the capture
    stream holds an audio and a video track and the recognition session
    connects, [startMeeting] makes the meeting active, registers the
    peer under the meeting id when hosting and under no id when joining,
    and feeds the recognition from one new track; when [endMeeting]
    follows, the page is idle, every track of the capture stream and the
    new track are ended, and the track objects that existed before and
    are not in the stream are as they were. *)
Theorem part_000_meeting_lifecycle (isJoining : bool) (contextRate : Q) (s : App)
    (stream : MediaStream) :
  mediaStream s = Some stream ->
  getAudioTracks (tracks s) stream <> [] ->
  getVideoTracks (tracks s) stream <> [] ->
  let s1 := Part000.startMeeting isJoining contextRate true s in
  let s2 := Part000.endMeeting s1 in
  isMeetingActive s1 = true /\
  peer s1 = Some {| id := if isJoining then None else meetingId s; destroyed := false |} /\
  (exists cloned, geminiMediaStream s1 = Some [cloned] /\ tracks s !! cloned = None /\
                  readyState <$> tracks s2 !! cloned = Some ended) /\
  status s2 = "idle" /\
  isMeetingActive s2 = false /\
  (forall t tr, In t stream -> tracks s2 !! t = Some tr -> readyState tr = ended) /\
  (forall t tr, ~ In t stream -> tracks s !! t = Some tr -> tracks s2 !! t = Some tr).
Proof.
  intros Hm Ha Hv s1 s2.
  destruct (part_000_started isJoining contextRate s stream Hm Ha Hv)
    as (a & c & tr & H). cbv zeta in H. fold s1 in H.
  destruct H as (_ & Htr & Hc & Hact & Hms & Hgs & _ & Htracks & Hpeer & _ & _).
  assert (Hs2 : tracks s2 = stop_all [c] (stop_all stream (tracks s1))).
  { unfold s2, Part000.endMeeting. rewrite Hact. cbn [negb]. cbv zeta.
    cbn [Part000.resetUI tracks]. rewrite Hms, Hgs. reflexivity. }
  split; [exact Hact|]. split; [exact Hpeer|].
  split; [|split; [|split; [|split]]].
  - exists c. split; [exact Hgs|]. split; [exact Hc|].
    rewrite Hs2, stop_all_in by (left; reflexivity).
    rewrite stop_all_lookup, Htracks.
    destruct (in_dec Nat.eq_dec c stream);
      rewrite (store_lookup_insert (tracks s) c tr); reflexivity.
  - unfold s2, Part000.endMeeting. rewrite Hact. reflexivity.
  - unfold s2, Part000.endMeeting. rewrite Hact. reflexivity.
  - intros t tr' Hin Ht. rewrite Hs2 in Ht.
    rewrite stop_all_lookup in Ht.
    destruct (in_dec Nat.eq_dec t [c]); [exact (stopped_ended _ _ Ht)|].
    rewrite stop_all_in in Ht by exact Hin. exact (stopped_ended _ _ Ht).
  - intros t tr' Hout Ht.
    assert (Hne : c <> t) by (intros ->; congruence).
    rewrite Hs2, stop_all_out by (intros [H|[]]; exact (Hne H)).
    rewrite stop_all_out by exact Hout.
    rewrite Htracks. etrans; [apply lookup_insert_ne; exact Hne | exact Ht].
Qed.

Lemma part_000_meeting_lifecycle_witness :
  let s := Part000.requestMediaPermissions initial in
  let s2 := Part000.endMeeting (Part000.startMeeting false (48000 # 1) true s) in
  status s2 = "idle" /\
  (forall t tr, In t [0%nat; 1%nat] -> tracks s2 !! t = Some tr -> readyState tr = ended).
Proof.
  intros s s2.
  destruct (part_000_meeting_lifecycle false (48000 # 1) s [0%nat; 1%nat])
    as (_ & _ & _ & H1 & _ & H2 & _);
    [reflexivity | vm_compute; discriminate | vm_compute; discriminate |].
  split; [exact H1 | exact H2].
Defined.

End Part000Lifecycle.
